(** * pypath: the interaction-network core

    A shallow embedding of [pypath/interaction.py] (class [Interaction]) and of
    the parts of [pypath/core/network.py] (class [Network]) that deal with
    ingest, interaction removal and path search, with the properties of the
    specification stated and settled against them.

    Python dictionaries and sets whose iteration order is irrelevant are
    finite maps and finite sets; the interaction dictionary of a network,
    which is iterated while it is being modified, keeps its insertion
    order. *)

From Stdlib Require Import ZArith.
From stdpp Require Import base option numbers strings list gmap sets fin_maps.

Open Scope Z_scope.
Open Scope string_scope.
Open Scope list_scope.

(** * Entities and resources *)

Module Entities.

(** [pypath.entity.Entity] is imported by both source files.  Equality and
    hashing are on the identifying fields; the label is fixed by them when
    the entity is built. *)
Record Entity := mkEntity {
  identifier : string;
  id_type : string;
  entity_type : string;
  taxon : Z;
  label : option string;
}.

#[export] Instance Entity_eq_dec : EqDecision Entity.
Proof. solve_decision. Defined.

#[export] Instance Entity_countable : Countable Entity :=
  inj_countable'
    (fun e => (identifier e, id_type e, entity_type e, taxon e, label e))
    (fun t => match t with (i, it, et, tx, l) => mkEntity i it et tx l end)
    (fun e => match e with mkEntity _ _ _ _ _ => eq_refl end).

(** Modelled from the spec: [Entity.__lt__], used by [sorted((a, b))] in
    [Interaction.__init__], lives in [pypath/entity.py]; the canonical order
    is "lexicographic by entity key". *)
Definition entity_key_compare (x y : Entity) : comparison :=
  match String.compare (identifier x) (identifier y) with
  | Eq =>
      match String.compare (id_type x) (id_type y) with
      | Eq =>
          match String.compare (entity_type x) (entity_type y) with
          | Eq => Z.compare (taxon x) (taxon y)
          | c => c
          end
      | c => c
      end
  | c => c
  end.

Definition entity_lt (x y : Entity) : bool :=
  match entity_key_compare x y with Lt => true | _ => false end.

(** [sorted((a, b))]: a stable sort of two elements swaps them only when the
    second is strictly smaller. *)
Definition sorted_pair (x y : Entity) : Entity * Entity :=
  if entity_lt y x then (y, x) else (x, y).

End Entities.
Export Entities.

Module Resources.

(** [pypath.resource.NetworkResource]: [(name, interaction_type, data_model,
    via)]; a resource with a [via] is secondary. *)
Record NetworkResource := mkResource {
  name : string;
  interaction_type : string;
  data_model : string;
  via : option string;
}.

#[export] Instance NetworkResource_eq_dec : EqDecision NetworkResource.
Proof. solve_decision. Defined.

#[export] Instance NetworkResource_countable : Countable NetworkResource :=
  inj_countable'
    (fun r => (name r, interaction_type r, data_model r, via r))
    (fun t => match t with (n, it, dm, v) => mkResource n it dm v end)
    (fun r => match r with mkResource _ _ _ _ => eq_refl end).

End Resources.
Export Resources.

(** * Evidences *)

Module Evidence.

(** A literature reference is a PubMed identifier string. *)
Abbreviation Reference := string (only parsing).

(** Modelled from the spec: [pypath.evidence.Evidences] is not among the
    source files.  It is a set of [Evidence = (resource, set of references)]
    with at most one evidence per resource, hence a finite map from the
    resource to its references. *)
Abbreviation Evidences := (gmap NetworkResource (gset string)) (only parsing).

(** A single [Evidence(resource, references)] seen as a collection. *)
Definition Evidence (r : NetworkResource) (refs : gset string) : Evidences :=
  {[ r := refs ]}.

(** Modelled from the spec: [Evidences += Evidence | Evidences] is the union
    deduplicated by resource; on a matching resource the references become
    the union of both reference sets.  [sum] over evidences is the same
    union. *)
Definition evs_add (x y : Evidences) : Evidences :=
  union_with (fun r1 r2 => Some (r1 ∪ r2)) x y.

Definition evs_sum (l : list Evidences) : Evidences :=
  foldl evs_add ∅ l.

(** Truth value of a container: non-empty. *)
Definition evs_bool (x : Evidences) : bool :=
  bool_decide (x ≠ ∅).

(** The [via] argument of the filter: [None] is no constraint, [False]
    primary only, [True] secondary only, a name secondary via that primary. *)
Inductive ViaArg :=
  | ViaAny
  | ViaBool (secondary : bool)
  | ViaName (primary : string).

(** The filter tuple of [Evidences.filter] and of the counting methods. *)
Record FilterArgs := mkFilter {
  f_resource : option (gset string);
  f_interaction_type : option (gset string);
  f_data_model : option (gset string);
  f_references : option (gset string);
  f_via : ViaArg;
}.

Definition no_filter : FilterArgs :=
  mkFilter None None None None ViaAny.

Definition match_opt (c : option (gset string)) (v : string) : bool :=
  match c with
  | None => true
  | Some s => bool_decide (v ∈ s)
  end.

Definition match_via (c : ViaArg) (v : option string) : bool :=
  match c, v with
  | ViaAny, _ => true
  | ViaBool false, None => true
  | ViaBool false, Some _ => false
  | ViaBool true, None => false
  | ViaBool true, Some _ => true
  | ViaName _, None => false
  | ViaName p, Some q => bool_decide (p = q)
  end.

Definition match_refs (c : option (gset string)) (refs : gset string) : bool :=
  match c with
  | None => true
  | Some s => bool_decide (s ∩ refs ≠ ∅)
  end.

(** Modelled from the spec: an evidence is kept when its resource satisfies
    every supplied constraint. *)
Definition ev_match (f : FilterArgs) (r : NetworkResource)
    (refs : gset string) : bool :=
  match_opt (f_resource f) (name r)
  && match_opt (f_interaction_type f) (interaction_type r)
  && match_opt (f_data_model f) (data_model r)
  && match_refs (f_references f) refs
  && match_via (f_via f) (via r).

Definition evs_filter (f : FilterArgs) (x : Evidences) : Evidences :=
  filter (fun p => ev_match f p.1 p.2 = true) x.

(** Modelled from the spec: [Evidences.remove] (used by
    [Interaction.unset_direction]) drops the evidences the constraints
    select. *)
Definition evs_remove (f : FilterArgs) (x : Evidences) : Evidences :=
  filter (fun p => ev_match f p.1 p.2 = false) x.

(** Modelled from the spec: the three counts.  Curation effort is the number
    of distinct (reference, resource) pairs. *)
Definition get_references (x : Evidences) : gset string :=
  map_fold (fun _ refs acc => refs ∪ acc) ∅ x.

Definition count_resources (f : FilterArgs) (x : Evidences) : nat :=
  size (evs_filter f x).

Definition count_references (f : FilterArgs) (x : Evidences) : nat :=
  size (get_references (evs_filter f x)).

Definition count_curation_effort (f : FilterArgs) (x : Evidences) : nat :=
  map_fold (fun _ refs acc => (size refs + acc)%nat) 0%nat (evs_filter f x).

(** The interaction types of the resources of a container. *)
Definition get_interaction_types (x : Evidences) : gset string :=
  map_fold (fun r _ acc => {[ interaction_type r ]} ∪ acc) ∅ x.

End Evidence.
Export Evidence.

(** * Interactions *)

Module Interactions.

(** A direction key: the tuple [(source, target)] or the string
    ['undirected']. *)
Inductive DirKey :=
  | Directed (src tgt : Entity)
  | Undirected.

#[export] Instance DirKey_eq_dec : EqDecision DirKey.
Proof. solve_decision. Defined.

#[export] Instance DirKey_countable : Countable DirKey :=
  inj_countable'
    (fun d => match d with Directed s t => Some (s, t) | Undirected => None end)
    (fun o => match o with Some (s, t) => Directed s t | None => Undirected end)
    (fun d => match d with Directed _ _ => eq_refl | Undirected => eq_refl end).

(** The attributes of an [Interaction] object.  [direction], [positive] and
    [negative] are dictionaries keyed by direction keys. *)
Record Interaction := mkInteraction {
  a : Entity;
  b : Entity;
  evidences : gmap NetworkResource (gset string);
  direction : gmap DirKey (gmap NetworkResource (gset string));
  positive : gmap DirKey (gmap NetworkResource (gset string));
  negative : gmap DirKey (gmap NetworkResource (gset string));
}.

Definition nodes (ia : Interaction) : Entity * Entity := (a ia, b ia).
Definition a_b (ia : Interaction) : DirKey := Directed (a ia) (b ia).
Definition b_a (ia : Interaction) : DirKey := Directed (b ia) (a ia).

(** [Interaction.__init__]: the dictionary displays insert their keys left
    to right, so that for a self-loop ([a_b = b_a]) each dictionary has one
    directed key. *)
Definition new_interaction (x y : Entity) : Interaction :=
  let n := sorted_pair x y in
  let ab := Directed n.1 n.2 in
  let ba := Directed n.2 n.1 in
  {| a := n.1;
     b := n.2;
     evidences := ∅;
     direction := <[Undirected := ∅]> (<[ba := ∅]> (<[ab := ∅]> ∅));
     positive := <[ba := ∅]> (<[ab := ∅]> ∅);
     negative := <[ba := ∅]> (<[ab := ∅]> ∅) |}.

(** [Interaction._key] *)
Definition key (ia : Interaction) : Entity * Entity := (a ia, b ia).

Definition _check_nodes_key (ia : Interaction) (n : Entity * Entity) : bool :=
  bool_decide (Directed n.1 n.2 = a_b ia)
  || bool_decide (Directed n.1 n.2 = b_a ia).

Definition id_to_entity (ia : Interaction) (x : Entity) : option Entity :=
  if decide (a ia = x) then Some (a ia)
  else if decide (b ia = x) then Some (b ia)
  else None.

Definition direction_key (ia : Interaction) (d : DirKey) : option DirKey :=
  match d with
  | Undirected => Some Undirected
  | Directed x y =>
      match id_to_entity ia x, id_to_entity ia y with
      | Some x', Some y' =>
          if bool_decide (Directed x' y' = a_b ia)
             || bool_decide (Directed x' y' = b_a ia)
          then Some (Directed x' y')
          else None
      | _, _ => None
      end
  end.

Definition _directed_key (d : option DirKey) : bool :=
  match d with
  | Some (Directed _ _) => true
  | _ => false
  end.

(** [d[k] += ev] on a dictionary of evidences. *)
Definition slot_add (k : DirKey) (ev : gmap NetworkResource (gset string))
    (d : gmap DirKey (gmap NetworkResource (gset string)))
    : gmap DirKey (gmap NetworkResource (gset string)) :=
  alter (fun e => evs_add e ev) k d.

(** The [effect] argument of [add_evidence] is an integer or a string. *)
Inductive EffectArg :=
  | EffInt (z : Z)
  | EffStr (s : string).

Definition effect_is_positive (e : EffectArg) : bool :=
  match e with
  | EffInt z => bool_decide (z = 1)
  | EffStr s => bool_decide (s = "positive") || bool_decide (s = "stimulation")
  end.

Definition effect_is_negative (e : EffectArg) : bool :=
  match e with
  | EffInt z => bool_decide (z = -1)
  | EffStr s => bool_decide (s = "negative") || bool_decide (s = "inhibition")
  end.

(** [Interaction.add_evidence] *)
Definition add_evidence (ia : Interaction)
    (evidence : gmap NetworkResource (gset string))
    (dir : DirKey) (effect : EffectArg) : Interaction :=
  match direction_key ia dir with
  | None => ia
  | Some d =>
      let evs := evs_add (evidences ia) evidence in
      let dirs := slot_add d evidence (direction ia) in
      if bool_decide (d ≠ Undirected) then
        if effect_is_positive effect then
          mkInteraction (a ia) (b ia) evs dirs
            (slot_add d evidence (positive ia)) (negative ia)
        else if effect_is_negative effect then
          mkInteraction (a ia) (b ia) evs dirs
            (positive ia) (slot_add d evidence (negative ia))
        else
          mkInteraction (a ia) (b ia) evs dirs (positive ia) (negative ia)
      else
        mkInteraction (a ia) (b ia) evs dirs (positive ia) (negative ia)
  end.

#[export] Instance Interaction_eq_dec : EqDecision Interaction.
Proof. solve_decision. Defined.

(** [Interaction.is_directed]: [any(self.direction.values())]. *)
Definition is_directed (ia : Interaction) : bool :=
  bool_decide (map_Exists (fun _ e => evs_bool e = true) (direction ia)).




(** [Interaction._merge_evidences], the body of [__iadd__]: every key of
    each dictionary of [one] takes the evidences [other] has under it.
    Where [other] lacks a key of [one] the source raises [KeyError]; the
    model reads an empty container there, and the statements about [+=]
    say when every key is present ([iadd_returns]). *)
Definition merge_slots
    (one other : gmap DirKey (gmap NetworkResource (gset string)))
    : gmap DirKey (gmap NetworkResource (gset string)) :=
  map_imap (fun k e => Some (evs_add e (other !!! k))) one.

Definition _merge_evidences (one other : Interaction) : Interaction :=
  {| a := a one;
     b := b one;
     evidences := evs_add (evidences one) (evidences other);
     direction := merge_slots (direction one) (direction other);
     positive := merge_slots (positive one) (positive other);
     negative := merge_slots (negative one) (negative other) |}.

(** [Interaction.__iadd__] *)
Definition iadd (self other : Interaction) : Interaction :=
  if bool_decide (key self ≠ key other) then self
  else _merge_evidences self other.

(** [Interaction.merge]: the product of the three attributes with the three
    direction keys, the signs skipping ['undirected'].  A key missing on
    either side is a [KeyError] in the source and is skipped or read as
    empty here; the constructor gives every interaction these keys
    ([merge_returns]). *)
Definition merge_keys
    (ks : list DirKey)
    (one other : gmap DirKey (gmap NetworkResource (gset string)))
    : gmap DirKey (gmap NetworkResource (gset string)) :=
  foldl (fun d k => slot_add k (other !!! k) d) one ks.

Definition merge (self other : Interaction) : Interaction :=
  if negb (_check_nodes_key self (nodes other)) then self
  else
    {| a := a self;
       b := b self;
       evidences := evs_add (evidences self) (evidences other);
       direction :=
         merge_keys [a_b self; b_a self; Undirected]
           (direction self) (direction other);
       positive :=
         merge_keys [a_b self; b_a self] (positive self) (positive other);
       negative :=
         merge_keys [a_b self; b_a self] (negative self) (negative other) |}.

(** [Interaction._effect_synonyms] *)
Definition _effect_synonyms (effect : option string) : option string :=
  match effect with
  | None => None
  | Some s =>
      if bool_decide (s = "") then None
      else if bool_decide (s = "positive") || bool_decide (s = "stimulation")
              || bool_decide (s = "stimulatory") then Some "positive"
      else if bool_decide (s = "negative") || bool_decide (s = "inhibition")
              || bool_decide (s = "inhibitory") then Some "negative"
      else None
  end.

(** One step of the loop of [unset_direction]: with a resource the matching
    evidences are removed from the slot, without one the slot is replaced by
    an empty container. *)
Definition unset_slot (resource : option (gset string))
    (itype : option (gset string)) (v : ViaArg) (k : DirKey)
    (d : gmap DirKey (gmap NetworkResource (gset string)))
    : gmap DirKey (gmap NetworkResource (gset string)) :=
  match resource with
  | Some r => alter (evs_remove (mkFilter (Some r) itype None None v)) k d
  | None => <[k := ∅]> d
  end.

(** [Interaction.unset_direction]; [only_sign] is [None] for a false value.
    A sign name that is no synonym makes [getattr] fail before anything is
    changed. *)
Definition unset_direction (ia : Interaction) (dir : DirKey)
    (only_sign : option string) (resource : option (gset string))
    (itype : option (gset string)) (v : ViaArg) : Interaction :=
  match direction_key ia dir with
  | None => ia
  | Some d =>
      match only_sign with
      | Some s =>
          if bool_decide (s = "") then
            mkInteraction (a ia) (b ia) (evidences ia)
              (unset_slot resource itype v d (direction ia))
              (unset_slot resource itype v d (positive ia))
              (unset_slot resource itype v d (negative ia))
          else
            match _effect_synonyms (Some s) with
            | Some sign =>
                if bool_decide (sign = "positive") then
                  mkInteraction (a ia) (b ia) (evidences ia) (direction ia)
                    (unset_slot resource itype v d (positive ia)) (negative ia)
                else
                  mkInteraction (a ia) (b ia) (evidences ia) (direction ia)
                    (positive ia) (unset_slot resource itype v d (negative ia))
            | None => ia
            end
      | None =>
          mkInteraction (a ia) (b ia) (evidences ia)
            (unset_slot resource itype v d (direction ia))
            (unset_slot resource itype v d (positive ia))
            (unset_slot resource itype v d (negative ia))
      end
  end.

(** [Interaction.unset_sign] *)
Definition unset_sign (ia : Interaction) (dir : DirKey) (sign : string)
    (resource : option (gset string)) (itype : option (gset string))
    (v : ViaArg) : Interaction :=
  unset_direction ia dir (Some sign) resource itype v.

(** [Interaction.is_mutual] without resources. *)
Definition is_mutual (ia : Interaction) : bool :=
  evs_bool (direction ia !!! a_b ia) && evs_bool (direction ia !!! b_a ia).

(** The values of a dictionary of evidences, as iterated. *)
Definition dict_values (d : gmap DirKey (gmap NetworkResource (gset string)))
    : list (gmap NetworkResource (gset string)) :=
  (map_to_list d).*2.

(** [Interaction.which_directions] with its default arguments: the directed
    keys that carry evidence. *)
Definition which_directions (ia : Interaction) : list DirKey :=
  (filter (fun p : DirKey * Evidences => p.1 ≠ Undirected ∧ evs_bool p.2 = true)
     (map_to_list (direction ia))).*1.

(** The [direction] argument of [get_evidences]: [None], [True] or a key;
    the [effect] argument: [None], [True] or a name. *)
Inductive DirectionSel :=
  | DirAll
  | DirTrue
  | DirIs (d : DirKey).

Inductive EffectSel :=
  | EffAll
  | EffTrue
  | EffName (s : string).

(** The conditional expression of [get_evidences] that picks the container,
    branch by branch as in the source: the branch for ['negative'] reads the
    [positive] dictionary.  The [sum] of no container at all is the integer
    0 in the source, on which [filter] fails: so it is for
    [direction = True] on an interaction without directed evidence, where
    the model gives the empty container; the statements about [DirTrue]
    are for interactions that have one. *)
Definition select_evidences (ia : Interaction) (dir : DirectionSel)
    (effect : EffectSel) : gmap NetworkResource (gset string) :=
  let by_direction :=
    match dir with
    | DirTrue =>
        evs_sum (map (fun d => direction ia !!! d) (which_directions ia))
    | DirIs d =>
        match direction ia !! d with
        | Some e => e
        | None => evidences ia
        end
    | DirAll => evidences ia
    end in
  let positive_or_all :=
    match dir with
    | DirIs d =>
        match positive ia !! d with
        | Some e => e
        | None => evs_sum (dict_values (positive ia))
        end
    | _ => evs_sum (dict_values (positive ia))
    end in
  match effect with
  | EffTrue => evs_sum (dict_values (positive ia) ++ dict_values (negative ia))
  | EffName s =>
      if bool_decide (s = "positive") then positive_or_all
      else if bool_decide (s = "negative") then positive_or_all
      else by_direction
  | EffAll => by_direction
  end.

(** [Interaction.get_evidences] *)
Definition get_evidences (ia : Interaction) (dir : DirectionSel)
    (effect : EffectSel) (f : FilterArgs)
    : gmap NetworkResource (gset string) :=
  evs_filter f (select_evidences ia dir effect).

(** [Interaction.get_references] with its default arguments. *)
Definition ia_get_references (ia : Interaction) : gset string :=
  get_references (get_evidences ia DirAll EffAll no_filter).

(** The result of [majority_dir]: ['undirected'], [None] or a key. *)
Inductive Majority :=
  | MajUndirected
  | MajNone
  | MajDir (d : DirKey).

#[export] Instance Majority_eq_dec : EqDecision Majority.
Proof. solve_decision. Defined.

(** The choice of the counting method shared by [majority_dir] and
    [majority_sign]. *)
Definition count_by (by_references by_reference_resource_pairs : bool)
    : FilterArgs -> gmap NetworkResource (gset string) -> nat :=
  if by_references then count_references
  else if by_reference_resource_pairs then count_curation_effort
  else count_resources.

Definition count_args (only_interaction_type : option (gset string))
    (only_primary : bool) : FilterArgs :=
  mkFilter None only_interaction_type None None
    (if only_primary then ViaBool false else ViaAny).

(** The two counts [n_a_b] and [n_b_a] of [majority_dir]. *)
Definition dir_count (ia : Interaction) (d : DirKey)
    (only_interaction_type : option (gset string))
    (only_primary by_references by_reference_resource_pairs : bool) : nat :=
  count_by by_references by_reference_resource_pairs
    (count_args only_interaction_type only_primary) (direction ia !!! d).

(** [Interaction.majority_dir] *)
Definition majority_dir (ia : Interaction)
    (only_interaction_type : option (gset string))
    (only_primary by_references by_reference_resource_pairs : bool)
    : Majority :=
  let ab := direction ia !!! a_b ia in
  let ba := direction ia !!! b_a ia in
  if negb (evs_bool ab) && negb (evs_bool ba) then MajUndirected
  else
    let n_a_b := dir_count ia (a_b ia) only_interaction_type only_primary
                   by_references by_reference_resource_pairs in
    let n_b_a := dir_count ia (b_a ia) only_interaction_type only_primary
                   by_references by_reference_resource_pairs in
    if (n_a_b =? 0)%nat && (n_b_a =? 0)%nat then MajUndirected
    else if (n_a_b =? n_b_a)%nat then MajNone
    else if (n_b_a <? n_a_b)%nat then MajDir (a_b ia)
    else MajDir (b_a ia).

(** The pair of flags [majority_sign] stores for one direction:
    [[0 < n_pos >= n_neg, 0 < n_neg >= n_pos]]. *)
Definition sign_flags (ia : Interaction) (d : DirKey)
    (only_interaction_type : option (gset string))
    (only_primary by_references by_reference_resource_pairs : bool)
    : bool * bool :=
  let n_pos := count_by by_references by_reference_resource_pairs
                 (count_args only_interaction_type only_primary)
                 (positive ia !!! d) in
  let n_neg := count_by by_references by_reference_resource_pairs
                 (count_args only_interaction_type only_primary)
                 (negative ia !!! d) in
  ((0 <? n_pos)%nat && (n_neg <=? n_pos)%nat,
   (0 <? n_neg)%nat && (n_pos <=? n_neg)%nat).

(** [Interaction.majority_sign]: a dictionary filled for [a_b], then for
    [b_a].  A value is a Python object that could be [None]; the method only
    ever stores lists. *)
Definition majority_sign (ia : Interaction)
    (only_interaction_type : option (gset string))
    (only_primary by_references by_reference_resource_pairs : bool)
    : gmap DirKey (option (bool * bool)) :=
  foldl
    (fun result d =>
       <[d := Some (sign_flags ia d only_interaction_type only_primary
                      by_references by_reference_resource_pairs)]> result)
    ∅ [a_b ia; b_a ia].

(** A row of [consensus]: [[source, target, directedness, sign]]. *)
Definition Row : Type := Entity * Entity * string * string.

Definition dir_src (ia : Interaction) (d : DirKey) : Entity :=
  match d with Directed s _ => s | Undirected => a ia end.

Definition dir_tgt (ia : Interaction) (d : DirKey) : Entity :=
  match d with Directed _ t => t | Undirected => b ia end.

(** The body of the loop of [consensus] for one direction [d]. *)
Definition consensus_rows (ia : Interaction)
    (_effect : gmap DirKey (option (bool * bool))) (d : DirKey) : list Row :=
  match (_effect !!! d : option (bool * bool)) with
  | Some flags =>
      (if flags.1
       then [(dir_src ia d, dir_tgt ia d, "directed", "positive")]
       else [])
      ++ (if flags.2
          then [(dir_src ia d, dir_tgt ia d, "directed", "negative")]
          else [])
  | None => [(dir_src ia d, dir_tgt ia d, "directed", "unknown")]
  end.

(** [Interaction.consensus] *)
Definition consensus (ia : Interaction)
    (only_interaction_type : option (gset string))
    (only_primary by_references by_reference_resource_pairs : bool)
    : list Row :=
  let _dir := majority_dir ia only_interaction_type only_primary
                by_references by_reference_resource_pairs in
  let _effect := majority_sign ia only_interaction_type only_primary
                   by_references by_reference_resource_pairs in
  match _dir with
  | MajUndirected => [(a ia, b ia, "undirected", "unknown")]
  | MajNone => flat_map (consensus_rows ia _effect) [a_b ia; b_a ia]
  | MajDir d => flat_map (consensus_rows ia _effect) [d]
  end.

End Interactions.
Export Interactions.

(** * Networks *)

Module Dict.

(** A dictionary whose iteration order matters: the items in insertion
    order, no key twice. *)
Section Dict.
Context {K V : Type} `{EqDecision K}.

Fixpoint dict_get (k : K) (d : list (K * V)) : option V :=
  match d with
  | [] => None
  | (k', v) :: rest => if decide (k' = k) then Some v else dict_get k rest
  end.

(** [d[k] = v]: an existing key keeps its position, a new one goes last. *)
Fixpoint dict_set (k : K) (v : V) (d : list (K * V)) : list (K * V) :=
  match d with
  | [] => [(k, v)]
  | (k', v') :: rest =>
      if decide (k' = k) then (k, v) :: rest
      else (k', v') :: dict_set k v rest
  end.

(** [d.pop(k, None)] *)
Fixpoint dict_pop (k : K) (d : list (K * V)) : list (K * V) :=
  match d with
  | [] => []
  | (k', v') :: rest =>
      if decide (k' = k) then rest else (k', v') :: dict_pop k rest
  end.

Definition dict_keys (d : list (K * V)) : list K := d.*1.
End Dict.

End Dict.
Export Dict.

Module Networks.

Abbreviation IKey := (Entity * Entity)%type (only parsing).

(** The four dictionaries [Network.reset] creates.  [interactions_by_nodes]
    is a [defaultdict(set)]. *)
Record Network := mkNetwork {
  interactions : list (Entity * Entity * Interaction);
  nodes : gmap string Entity;
  nodes_by_label : gmap string Entity;
  interactions_by_nodes : gmap Entity (gset (Entity * Entity));
}.

#[export] Instance Network_eq_dec : EqDecision Network.
Proof. solve_decision. Defined.

(** [Network.reset] *)
Definition reset : Network := mkNetwork [] ∅ ∅ ∅.

Definition ecount (net : Network) : nat := length (interactions net).

(** Modelled from the spec: [Interaction.get_interaction_types] is called
    by [add_interaction] but is not defined by the [Interaction] class of
    the source file.  The spec speaks of the interaction-type set of an
    interaction, and gives every resource its interaction type: the set is
    that of the resources of the evidences. *)
Definition ia_get_interaction_types (ia : Interaction) : gset string :=
  get_interaction_types (evidences ia).

Section Mutation.
(** [Interaction.update_attrs], [Interaction.unset_interaction_type] and
    [Entity.__iadd__] are defined outside the source files, and the spec
    does not say what they compute: they are parameters of the network
    operations. *)
Context {Attrs : Type}.
Variable update_attrs : Interaction -> Attrs -> Interaction.
Variable entity_iadd : Entity -> Entity -> Entity.
Variable unset_interaction_type : Interaction -> string -> Interaction.

(** [entity.label or entity.identifier]: a missing or empty label is a
    false value. *)
Definition label_key (entity : Entity) : string :=
  match label entity with
  | Some l => if bool_decide (l = "") then identifier entity else l
  | None => identifier entity
  end.

(** [Network.add_node] without attributes. *)
Definition add_node (entity : Entity) (add : bool) (net : Network)
    : Network :=
  match nodes net !! identifier entity with
  | Some old =>
      mkNetwork (interactions net)
        (<[identifier entity := entity_iadd old entity]> (nodes net))
        (nodes_by_label net) (interactions_by_nodes net)
  | None =>
      if add then
        mkNetwork (interactions net)
          (<[identifier entity := entity]> (nodes net))
          (<[label_key entity := entity]> (nodes_by_label net))
          (interactions_by_nodes net)
      else net
  end.

(** [self.interactions_by_nodes[e].add(key)] on the [defaultdict]. *)
Definition adjacency_add (e : Entity) (k : Entity * Entity)
    (net : Network) : Network :=
  mkNetwork (interactions net) (nodes net) (nodes_by_label net)
    (<[e := {[ k ]} ∪ (interactions_by_nodes net !!! e)]>
       (interactions_by_nodes net)).

(** The tail of [add_interaction], after the interaction dictionary has
    been updated; [k] is the [key] the method computes at its start. *)
Definition add_interaction_finish (k : Entity * Entity)
    (interaction : Interaction) (attrs : Attrs) (only_directions : bool)
    (ints : list (Entity * Entity * Interaction)) (net : Network)
    : Network :=
  let ints :=
    match dict_get k ints with
    | Some ia => dict_set k (update_attrs ia attrs) ints
    | None => ints
    end in
  let net := mkNetwork ints (nodes net) (nodes_by_label net)
               (interactions_by_nodes net) in
  let net := add_node (a interaction) (negb only_directions) net in
  let net := add_node (b interaction) (negb only_directions) net in
  let net := adjacency_add (a interaction) k net in
  adjacency_add (b interaction) k net.

(** The loop of [add_interaction] that unsets from the incoming
    interaction the interaction types the existing one does not have. *)
Definition strip_foreign_types (existing interaction : Interaction)
    : Interaction :=
  foldl unset_interaction_type interaction
    (elements (ia_get_interaction_types interaction
               ∖ ia_get_interaction_types existing)).

(** [Network.add_interaction]; [attrs] is the dictionary of edge
    attributes the ingest passes. *)
Definition add_interaction (interaction : Interaction) (attrs : Attrs)
    (only_directions : bool) (net : Network) : Network :=
  let k := (a interaction, b interaction) in
  match dict_get k (interactions net) with
  | None =>
      if only_directions then net
      else
        add_interaction_finish k interaction attrs only_directions
          (dict_set k interaction (interactions net)) net
  | Some existing =>
      if only_directions then
        if bool_decide (ia_get_interaction_types existing
                        ∩ ia_get_interaction_types interaction ≠ ∅)
        then
          let interaction' := strip_foreign_types existing interaction in
          add_interaction_finish k interaction' attrs only_directions
            (dict_set k (iadd existing interaction') (interactions net)) net
        else net
      else
        add_interaction_finish k interaction attrs only_directions
          (dict_set k (iadd existing interaction) (interactions net)) net
  end.
End Mutation.

(** An implementation of [unset_interaction_type] for the examples, by
    what its name and the loop variable [itype_to_remove] say: the
    evidences whose resource has the interaction type are removed from
    every container, the way [unset_direction] removes by resource. *)
Definition type_filter (t : string) : FilterArgs :=
  mkFilter None (Some {[ t ]}) None None ViaAny.

Definition remove_interaction_type (ia : Interaction) (t : string)
    : Interaction :=
  {| a := a ia;
     b := b ia;
     evidences := evs_remove (type_filter t) (evidences ia);
     direction := evs_remove (type_filter t) <$> direction ia;
     positive := evs_remove (type_filter t) <$> positive ia;
     negative := evs_remove (type_filter t) <$> negative ia |}.

(** [Network.remove_interaction] and [Network.remove_node] call each other;
    [fuel] bounds the depth of the calls.  Both receive [Entity] objects,
    which [self.entity] returns as they are and which are true values. *)
Fixpoint remove_interaction_fuel (fuel : nat) (entity_a entity_b : Entity)
    (net : Network) : Network :=
  match fuel with
  | O => net
  | S fuel' =>
      let key_ab := (entity_a, entity_b) in
      let key_ba := (entity_b, entity_a) in
      let ints := dict_pop key_ba (dict_pop key_ab (interactions net)) in
      let keys : gset (Entity * Entity) := {[ key_ab; key_ba ]} in
      let adj := interactions_by_nodes net in
      let adj := <[entity_a := (adj !!! entity_a) ∖ keys]> adj in
      let adj := <[entity_b := (adj !!! entity_b) ∖ keys]> adj in
      let net := mkNetwork ints (nodes net) (nodes_by_label net) adj in
      let net :=
        if bool_decide (interactions_by_nodes net !! entity_a = Some ∅)
        then remove_node_fuel fuel' entity_a net else net in
      if bool_decide (interactions_by_nodes net !! entity_b = Some ∅)
      then remove_node_fuel fuel' entity_b net else net
  end
with remove_node_fuel (fuel : nat) (entity : Entity) (net : Network)
    : Network :=
  match fuel with
  | O => net
  | S fuel' =>
      let lbls :=
        match label entity with
        | Some l => delete l (nodes_by_label net)
        | None => nodes_by_label net
        end in
      let net := mkNetwork (interactions net)
                   (delete (identifier entity) (nodes net)) lbls
                   (interactions_by_nodes net) in
      match interactions_by_nodes net !! entity with
      | Some i_keys =>
          let net :=
            foldl (fun n i_key =>
                     remove_interaction_fuel fuel' i_key.1 i_key.2 n)
              net (elements i_keys) in
          mkNetwork (interactions net) (nodes net) (nodes_by_label net)
            (delete entity (interactions_by_nodes net))
      | None => net
      end
  end.

(** Called from outside, [remove_interaction] reaches [remove_node] only for
    a node whose set of interactions is empty, so the calls nest twice. *)
Definition remove_interaction (k : Entity * Entity) (net : Network)
    : Network :=
  remove_interaction_fuel 2 k.1 k.2 net.

(** [Network.numof_interactions_per_reference]: a [Counter] over the
    references of each interaction. *)
Definition numof_interactions_per_reference (net : Network)
    : gmap string nat :=
  foldl
    (fun cnt (p : Entity * Entity * Interaction) =>
       foldl (fun c ref => <[ref := S (c !!! ref)]> c) cnt
         (elements (ia_get_references p.2)))
    ∅ (interactions net).

(** The set comprehension [htp_refs] of [remove_htp]. *)
Definition htp_refs (threshold : Z) (net : Network) : gset string :=
  dom (filter (fun p : string * nat => threshold < Z.of_nat p.2)
         (numof_interactions_per_reference net)).

(** The condition under which [remove_htp] marks an interaction. *)
Definition htp_to_remove (threshold : Z) (keep_directed : bool)
    (net : Network) (ia : Interaction) : bool :=
  bool_decide (ia_get_references ia ∖ htp_refs threshold net = ∅)
  && (negb keep_directed || negb (is_directed ia)).

(** [Network.remove_htp]: the keys are collected first and removed in a
    second loop. *)
Definition remove_htp (threshold : Z) (keep_directed : bool) (net : Network)
    : Network :=
  let to_remove :=
    (filter (fun p : Entity * Entity * Interaction =>
               htp_to_remove threshold keep_directed net p.2 = true)
       (interactions net)).*1 in
  foldl (fun n k => remove_interaction k n) net to_remove.

(** How a loop over a dictionary ends: normally, or with the
    [RuntimeError] Python raises when the dictionary changed size during
    the iteration. *)
Inductive Outcome :=
  | Returned
  | RuntimeError.

#[export] Instance Outcome_eq_dec : EqDecision Outcome.
Proof. solve_decision. Defined.

(** The condition under which [remove_undirected] removes an interaction;
    [min_refs] is [None] or an integer. *)
Definition undirected_to_remove (min_refs : option Z) (ia : Interaction)
    : bool :=
  is_directed ia
  && match min_refs with
     | None => true
     | Some m =>
         bool_decide (m = 0)
         || bool_decide (Z.of_nat (size (ia_get_references ia)) < m)
     end.

(** The loop of [remove_undirected] over [iteritems(self.interactions)]:
    [items] are the items the iterator has not yet produced, [size0] the
    size of the dictionary when the iteration started. *)
Fixpoint remove_undirected_loop (size0 : nat) (min_refs : option Z)
    (items : list (Entity * Entity * Interaction)) (net : Network)
    : Network * Outcome :=
  if bool_decide (length (interactions net) ≠ size0) then (net, RuntimeError)
  else
    match items with
    | [] => (net, Returned)
    | (k, ia) :: rest =>
        remove_undirected_loop size0 min_refs rest
          (if undirected_to_remove min_refs ia
           then remove_interaction k net else net)
    end.

(** [Network.remove_undirected] *)
Definition remove_undirected (min_refs : option Z) (net : Network)
    : Network * Outcome :=
  remove_undirected_loop (length (interactions net)) min_refs
    (interactions net) net.

End Networks.
Export Networks.


(** * Ingest: the head of the loop of [_read_resource] *)

Module Ingest.

(** A record of the input is a raw line or an already tokenized sequence. *)
Inductive InputLine :=
  | RawLine (s : string)
  | Tokenized (fields : list string).

#[export] Instance InputLine_eq_dec : EqDecision InputLine.
Proof. solve_decision. Defined.

Definition len (line : InputLine) : nat :=
  match line with
  | RawLine s => String.length s
  | Tokenized fields => length fields
  end.

(** The test that makes the loop [continue]:
    [len(line) <= 1 or (lnum == 1 and networkinput.header)]. *)
Definition skipped (header : bool) (lnum : nat) (line : InputLine) : bool :=
  (len line <=? 1)%nat || ((lnum =? 1)%nat && header).

(** [enumerate(infile)] *)
Definition enumerate (infile : list InputLine) : list (nat * InputLine) :=
  imap (fun lnum line => (lnum, line)) infile.

(** The records that get past the first test of the loop body, with their
    line numbers, in order. *)
Definition records_read (header : bool) (infile : list InputLine)
    : list (nat * InputLine) :=
  filter (fun p : nat * InputLine => skipped header p.1 p.2 = false)
    (enumerate infile).

End Ingest.
Export Ingest.

(** * Path search *)

Module PathFinder.

Section FindPaths.
(** [self.partners(entity = start, **interaction_args[i])]: the
    neighbours selected for hop [i].  The properties below hold for every
    network and every filter, so the lookup is a parameter. *)
Variable partners : nat -> Entity -> gset Entity.
Variable loops : bool.
Variables minlen maxlen : nat.

(** The condition under which [find_all_paths_aux] returns [[path]]. *)
Definition path_complete (start : Entity) (end_ : option Entity)
    (path : list Entity) : bool :=
  (minlen + 1 <=? length path)%nat
  && (bool_decide (Some start = end_)
      || (bool_decide (end_ = None) && negb loops
          && (length path =? maxlen + 1)%nat)
      || (loops && bool_decide (head path = last path))).

(** The inner function [find_all_paths_aux] of [find_paths].  [fuel]
    bounds the recursion depth; [None] means it ran out. *)
Fixpoint find_all_paths_aux (fuel : nat) (start : Entity)
    (end_ : option Entity) (path : list Entity)
    : option (list (list Entity)) :=
  let path := path ++ [start] in
  if path_complete start end_ path then Some [path]
  else if (length path <=? maxlen)%nat then
    match fuel with
    | O => None
    | S fuel' =>
        let next_steps := partners (length path - 1) start in
        let next_steps :=
          if loops then next_steps else next_steps ∖ list_to_set path in
        mjoin <$>
          mapM (fun node => find_all_paths_aux fuel' node end_ path)
            (elements next_steps)
    end
  else Some [].
End FindPaths.

(** [Network.find_paths] for resolved start and end entities; an empty
    [end_] stands for [end = None]. *)
Definition find_paths (partners : nat -> Entity -> gset Entity)
    (start end_ : list Entity) (loops : bool) (maxlen minlen : nat)
    : option (list (list Entity)) :=
  let minlen := Nat.max 1 minlen in
  let ends :=
    match end_ with
    | [] => [None]
    | _ => Some <$> end_
    end in
  mjoin <$>
    mapM (fun se : Entity * option Entity =>
            find_all_paths_aux partners loops minlen maxlen maxlen
              se.1 se.2 [])
      (s ← start; e ← ends; [(s, e)]).

(** The start node of a path occurs in it only as first and last element. *)
Definition start_only_at_ends (p : list Entity) : Prop :=
  ∀ i x, p !! i = Some x → (0 < i)%nat → (S i < length p)%nat →
         Some x ≠ head p.

(** The first node of a path under construction does not occur again in
    it. *)
Definition start_not_revisited (path : list Entity) : Prop :=
  ∀ i x, path !! i = Some x → (0 < i)%nat → Some x ≠ head path.

End PathFinder.
Export PathFinder.

(** * The invariant I1 and the states an interaction can reach *)

Module Invariants.

(** Inclusion of containers: every evidence of [x] has an evidence of the
    same resource in [y] that carries at least its references. *)
Definition evs_le (x y : gmap NetworkResource (gset string)) : Prop :=
  ∀ r refs, x !! r = Some refs → ∃ refs', y !! r = Some refs' ∧ refs ⊆ refs'.

(** Every evidence of a slot of the dictionary [sign] is in the slot of [dir]
    with the same key and in [evs]. *)
Definition slots_ok
    (sign dir : gmap DirKey (gmap NetworkResource (gset string)))
    (evs : gmap NetworkResource (gset string)) : Prop :=
  ∀ d e, sign !! d = Some e →
         ∃ e', dir !! d = Some e' ∧ evs_le e e' ∧ evs_le e evs.

(** (I1) Every evidence in [positive[d]] or [negative[d]] also appears in
    [direction[d]] and in [evidences]. *)
Definition I1 (ia : Interaction) : Prop :=
  slots_ok (positive ia) (direction ia) (evidences ia)
  ∧ slots_ok (negative ia) (direction ia) (evidences ia).

(** The three keys of the [direction] dictionary are there. *)
Definition has_direction_keys (ia : Interaction) : Prop :=
  ∀ k, k = a_b ia ∨ k = b_a ia ∨ k = Undirected →
       is_Some (direction ia !! k).

(** The interactions that the constructor and the state-changing public
    methods of the class produce. *)
Inductive reachable : Interaction → Prop :=
  | reach_init x y :
      reachable (new_interaction x y)
  | reach_add_evidence ia ev d eff :
      reachable ia → reachable (add_evidence ia ev d eff)
  | reach_merge ia other :
      reachable ia → reachable other → reachable (merge ia other)
  | reach_iadd ia other :
      reachable ia → reachable other → reachable (iadd ia other)
  | reach_unset_direction ia d only_sign resource itype v :
      reachable ia →
      reachable (unset_direction ia d only_sign resource itype v)
  | reach_unset_sign ia d sign resource itype v :
      reachable ia → reachable (unset_sign ia d sign resource itype v).


End Invariants.
Export Invariants.

(** * Further queries on interactions *)

Module InteractionQueries.

(** [Interaction._is_effect] without resources: some slot of the sign
    dictionary, of the given direction when there is one, holds evidence. *)
Definition _is_effect
    (sign : gmap DirKey (gmap NetworkResource (gset string)))
    (dir : option DirKey) : bool :=
  bool_decide
    (map_Exists (fun d e => (dir = None ∨ dir = Some d) ∧ evs_bool e = true)
       sign).

(** [Interaction.is_stimulation], [is_inhibition] and [has_sign]. *)
Definition is_stimulation (ia : Interaction) (dir : option DirKey) : bool :=
  _is_effect (positive ia) dir.

Definition is_inhibition (ia : Interaction) (dir : option DirKey) : bool :=
  _is_effect (negative ia) dir.

Definition has_sign (ia : Interaction) (dir : option DirKey) : bool :=
  is_stimulation ia dir || is_inhibition ia dir.

(** [Interaction.get_direction] with its default answer type, the truth
    value of the slot.  The result is [Some None] for a direction that is
    no key of the interaction, where the method returns [None]; [None] is
    the [KeyError] of a key that is missing from the dictionary. *)
Definition get_direction (ia : Interaction) (dir : DirKey)
    : option (option bool) :=
  match direction_key ia dir with
  | Some d =>
      match direction ia !! d with
      | Some e => Some (Some (evs_bool e))
      | None => None
      end
  | None => Some None
  end.

(** The dictionaries of an interaction have the keys its constructor gives
    them. *)
Definition standard_keys (ia : Interaction) : Prop :=
  dom (direction ia) = {[ a_b ia; b_a ia; Undirected ]}
  ∧ dom (positive ia) = {[ a_b ia; b_a ia ]}
  ∧ dom (negative ia) = {[ a_b ia; b_a ia ]}.

(** [other] has every key the loops of [_merge_evidences] read: [one += other]
    on interactions of the same key returns, without [KeyError]. *)
Definition iadd_returns (one other : Interaction) : Prop :=
  key one = key other →
  dom (direction one) ⊆ dom (direction other)
  ∧ dom (positive one) ⊆ dom (positive other)
  ∧ dom (negative one) ⊆ dom (negative other).

(** Both interactions have the keys the loop of [merge] reads, when
    [merge] gets past its test of the nodes: it returns, without
    [KeyError]. *)
Definition merge_returns (self other : Interaction) : Prop :=
  _check_nodes_key self (Interactions.nodes other) = true →
  (∀ k, k ∈ [a_b self; b_a self; Undirected] →
        is_Some (direction self !! k) ∧ is_Some (direction other !! k))
  ∧ (∀ k, k ∈ [a_b self; b_a self] →
          is_Some (positive self !! k) ∧ is_Some (positive other !! k)
          ∧ is_Some (negative self !! k) ∧ is_Some (negative other !! k)).

(** The keys of the three dictionaries of an interaction are among the
    three its constructor uses. *)
Definition known_keys (ia : Interaction) : Prop :=
  ∀ k, is_Some (direction ia !! k) ∨ is_Some (positive ia !! k)
       ∨ is_Some (negative ia !! k) →
       k = a_b ia ∨ k = b_a ia ∨ k = Undirected.

End InteractionQueries.
Export InteractionQueries.

(** * Further operations on networks *)

Module NetworkQueries.

(** [Network.entity_by_id] and [Network.entity_by_label]. *)
Definition entity_by_id (net : Network) (identifier : string)
    : option Entity :=
  Networks.nodes net !! identifier.

Definition entity_by_label (net : Network) (label : string) : option Entity :=
  nodes_by_label net !! label.

(** [Network.entity] for an identifier or a label. *)
Definition entity (net : Network) (name : string) : option Entity :=
  match entity_by_id net name with
  | Some e => Some e
  | None => entity_by_label net name
  end.

(** [Network._get_interaction]: both orders of the pair are tried. *)
Definition _get_interaction (net : Network)
    (lookup : string → option Entity) (id_a id_b : string)
    : option Interaction :=
  match lookup id_a, lookup id_b with
  | Some entity_a, Some entity_b =>
      match dict_get (entity_a, entity_b) (interactions net) with
      | Some ia => Some ia
      | None => dict_get (entity_b, entity_a) (interactions net)
      end
  | _, _ => None
  end.

(** [Network.interaction_by_id] and [Network.interaction_by_label]. *)
Definition interaction_by_id (net : Network) (id_a id_b : string)
    : option Interaction :=
  _get_interaction net (entity_by_id net) id_a id_b.

Definition interaction_by_label (net : Network) (label_a label_b : string)
    : option Interaction :=
  _get_interaction net (entity_by_label net) label_a label_b.

(** [Network.remove_node] called from outside: the node, its interactions
    and, through [remove_interaction], the nodes these leave alone. *)
Definition remove_node (entity : Entity) (net : Network) : Network :=
  remove_node_fuel 3 entity net.

(** [Network.remove_zero_degree]: the nodes whose set of interactions is
    empty are collected in a set, then removed. *)
Definition zero_degree (net : Network) : gset Entity :=
  dom (filter (fun p : Entity * gset (Entity * Entity) => p.2 = ∅)
         (interactions_by_nodes net)).

Definition remove_zero_degree (net : Network) : Network :=
  foldl (fun n node => remove_node node n) net (elements (zero_degree net)).

(** [Network.get_organisms] *)
Definition get_organisms (net : Network) : gset Z :=
  map_fold (fun _ n acc => {[ taxon n ]} ∪ acc) ∅ (Networks.nodes net).

Section OrganismsCheck.
(** [reflists.check(name, id_type, ncbi_tax_id)] is an external lookup. *)
Variable check : string → string → Z → bool.

(** The test of the first loop of [organisms_check]; [organisms] is the set
    [common.to_set(organisms or self.ncbi_tax_id)], empty for no
    constraint. *)
Definition organism_mismatch (organisms : gset Z)
    (remove_mismatches remove_nonspecific : bool) (node : Entity) : bool :=
  (bool_decide (organisms ≠ ∅) && bool_decide (taxon node ∉ organisms))
  || (remove_mismatches
      && negb (bool_decide (entity_type node = "complex"))
      && negb (bool_decide (entity_type node = "lncrna"))
      && negb (check (identifier node) (id_type node) (taxon node)))
  || (remove_nonspecific && bool_decide (taxon node = 0)).

(** [Network.organisms_check] *)
Definition organisms_check (organisms : gset Z)
    (remove_mismatches remove_nonspecific : bool) (net : Network) : Network :=
  let to_remove : gset Entity :=
    list_to_set
      (filter (fun node => organism_mismatch organisms remove_mismatches
                             remove_nonspecific node = true)
         (map_to_list (Networks.nodes net)).*2) in
  foldl (fun n node => remove_node node n) net (elements to_remove).
End OrganismsCheck.

(** [Network.interactions_by_reference] *)
Definition interactions_by_reference (net : Network)
    : gmap string (gset (Entity * Entity)) :=
  foldl
    (fun acc (p : Entity * Entity * Interaction) =>
       foldl (fun m ref => <[ref := {[ p.1 ]} ∪ (m !!! ref)]> m) acc
         (elements (ia_get_references p.2)))
    ∅ (interactions net).

(** Every interaction key has its two endpoints among the nodes and is in
    the set of interactions of both. *)
Definition consistent (net : Network) : Prop :=
  ∀ k ia, dict_get k (interactions net) = Some ia →
    is_Some (Networks.nodes net !! identifier k.1)
    ∧ is_Some (Networks.nodes net !! identifier k.2)
    ∧ k ∈ interactions_by_nodes net !!! k.1
    ∧ k ∈ interactions_by_nodes net !!! k.2.



(** Every node is filed under its identifier. *)
Definition filed_by_identifier (net : Network) : Prop :=
  ∀ i n, Networks.nodes net !! i = Some n → identifier n = i.

(** No pair is stored twice and the network is consistent. *)
Definition well_formed (net : Network) : Prop :=
  NoDup (dict_keys (interactions net)) ∧ consistent net.

(** The network between the two [-=] of [remove_interaction] and its
    tests. *)
Definition after_pops (x y : Entity) (net : Network) : Network :=
  let keys : gset (Entity * Entity) := {[ (x, y); (y, x) ]} in
  let adj := interactions_by_nodes net in
  let adj := <[x := (adj !!! x) ∖ keys]> adj in
  let adj := <[y := (adj !!! y) ∖ keys]> adj in
  mkNetwork (dict_pop (y, x) (dict_pop (x, y) (interactions net)))
    (Networks.nodes net) (nodes_by_label net) adj.

End NetworkQueries.
Export NetworkQueries.


(** * Ingest: filters, direction and sign of a record, mapping, emission *)

Module IngestRows.

(** [line[i]] on a list: a negative index counts from the end, an index
    out of range raises [IndexError] ([None]). *)
Definition py_index {A} (line : list A) (i : Z) : option A :=
  if (0 <=? i)%Z then line !! Z.to_nat i
  else if (- Z.of_nat (length line) <=? i)%Z
       then line !! Z.to_nat (Z.of_nat (length line) + i)
       else None.

(** A filter [(column, values)] or [(column, values, separator)]. *)
Record RowFilter := mkRowFilter {
  flt_col : Z;
  flt_values : gset string;
  flt_sep : option (option string);
}.

Section Rows.
(** [str.split(sep)] of the Python library; [None] splits on white space. *)
Variable split : option string → string → list string.

(** [thisVal] of one turn of the loops of [_filters]. *)
Definition this_val (line : list string) (filtr : RowFilter)
    : option (gset string) :=
  match py_index line (flt_col filtr) with
  | None => None
  | Some field =>
      Some match flt_sep filtr with
           | Some sep => list_to_set (split sep field)
           | None => {[ field ]}
           end
  end.

(** The loop over the negative filters: [Some true] when it returns
    [True], [Some false] when it runs to its end. *)
Fixpoint negative_loop (line : list string) (filters : list RowFilter)
    : option bool :=
  match filters with
  | [] => Some false
  | filtr :: rest =>
      match this_val line filtr with
      | None => None
      | Some v =>
          if bool_decide (v ∩ flt_values filtr ≠ ∅) then Some true
          else negative_loop line rest
      end
  end.

Fixpoint positive_loop (line : list string) (filters : list RowFilter)
    : option bool :=
  match filters with
  | [] => Some false
  | filtr :: rest =>
      match this_val line filtr with
      | None => None
      | Some v =>
          if bool_decide (v ∩ flt_values filtr = ∅) then Some true
          else positive_loop line rest
      end
  end.

(** [Network._filters]: [Some true] discards the record. *)
Definition _filters (line : list string)
    (positive_filters negative_filters : list RowFilter) : option bool :=
  match negative_loop line negative_filters with
  | None => None
  | Some true => Some true
  | Some false => positive_loop line positive_filters
  end.

(** [Network._process_sign] on the text of the sign column; [pos] and
    [neg] are [common.to_set] of the second and third element of the sign
    definition, [sign_sep] its fourth element if any. *)
Definition _process_sign (sign_data : string) (pos neg : gset string)
    (sign_sep : option string) : bool * bool :=
  let data : gset string := list_to_set (split sign_sep sign_data) in
  (bool_decide (data ∩ pos ≠ ∅), bool_decide (data ∩ neg ≠ ∅)).

(** [Network._process_direction] *)
Definition _process_direction (line : list string) (dir_col : option Z)
    (dir_val : option (gset string)) (dir_sep : option string)
    : option bool :=
  match dir_col, dir_val with
  | Some col, Some val =>
      match py_index line col with
      | None => None
      | Some field =>
          let this_directed : gset string :=
            list_to_set (split dir_sep field) in
          Some (bool_decide (this_directed ∩ val ≠ ∅))
      end
  | _, _ => Some false
  end.
End Rows.

(** An edge record of [_read_resource], before the identifiers are
    translated; [Payload] stands for the fields the translation copies
    untouched. *)
Record RawEdge {Payload : Type} := mkRawEdge {
  id_a : string;
  id_b : string;
  id_type_a : string;
  id_type_b : string;
  entity_type_a : string;
  entity_type_b : string;
  taxon_a : Z;
  taxon_b : Z;
  payload : Payload;
}.
Arguments RawEdge : clear implicits.
Arguments mkRawEdge {Payload}.

(** The record [_map_edge] emits: the edge with the translated names. *)
Record MappedEdge {Payload : Type} := mkMappedEdge {
  edge : RawEdge Payload;
  default_name_a : string;
  default_name_type_a : string;
  default_name_b : string;
  default_name_type_b : string;
}.
Arguments MappedEdge : clear implicits.
Arguments mkMappedEdge {Payload}.

Section Mapping.
Context {Payload : Type}.
(** [mapping.map_name(name, id_type, target_id_type, ncbi_tax_id,
    expand_complexes)] is the external identifier translation, with the
    names it gives in the order [itertools.product] iterates them;
    [default_name_types] is the settings dictionary. *)
Variable map_name : string → string → string → Z → bool → list string.
Variable default_name_types : gmap string string.

(** [Network._map_edge]; [None] is the [KeyError] of an entity type without
    a default name type. *)
Definition _map_edge (e : RawEdge Payload) (expand_complexes : bool)
    : option (list (MappedEdge Payload)) :=
  match default_name_types !! entity_type_a e,
        default_name_types !! entity_type_b e with
  | Some type_a, Some type_b =>
      let default_id_a :=
        map_name (id_a e) (id_type_a e) type_a (taxon_a e) expand_complexes in
      let default_id_b :=
        map_name (id_b e) (id_type_b e) type_b (taxon_b e) expand_complexes in
      Some (x ← default_id_a;
            y ← default_id_b;
            [mkMappedEdge e x type_a y type_b])
  | _, _ => None
  end.

(** [Network._map_list] for edges. *)
Fixpoint _map_list (lst : list (RawEdge Payload)) (expand_complexes : bool)
    : option (list (MappedEdge Payload)) :=
  match lst with
  | [] => Some []
  | e :: rest =>
      match _map_edge e expand_complexes with
      | None => None
      | Some mapped =>
          match _map_list rest expand_complexes with
          | None => None
          | Some more => Some (mapped ++ more)
          end
      end
  end.
End Mapping.

(** The fields of a translated edge that [_add_update_edge] reads. *)
Record EdgeData {Attrs : Type} := mkEdgeData {
  evidences_ : gmap NetworkResource (gset string);
  is_directed_ : bool;
  positive_ : bool;
  negative_ : bool;
  attrs_edge : Attrs;
}.
Arguments EdgeData : clear implicits.
Arguments mkEdgeData {Attrs}.

Section Emission.
Context {Attrs : Type}.
Variable update_attrs : Interaction → Attrs → Interaction.
Variable entity_iadd : Entity → Entity → Entity.
Variable unset_interaction_type : Interaction → string → Interaction.
(** The label the [Entity] constructor gives to an identifier. *)
Variable entity_label : string → string → string → Z → option string.

Definition edge_entity_a (e : MappedEdge (EdgeData Attrs)) : Entity :=
  mkEntity (default_name_a e) (default_name_type_a e)
    (entity_type_a (edge e)) (taxon_a (edge e))
    (entity_label (default_name_a e) (default_name_type_a e)
       (entity_type_a (edge e)) (taxon_a (edge e))).

Definition edge_entity_b (e : MappedEdge (EdgeData Attrs)) : Entity :=
  mkEntity (default_name_b e) (default_name_type_b e)
    (entity_type_b (edge e)) (taxon_b (edge e))
    (entity_label (default_name_b e) (default_name_type_b e)
       (entity_type_b (edge e)) (taxon_b (edge e))).

(** The [Interaction] object [_add_update_edge] builds from an edge. *)
Definition edge_interaction (e : MappedEdge (EdgeData Attrs)) : Interaction :=
  let entity_a := edge_entity_a e in
  let entity_b := edge_entity_b e in
  let d := payload (edge e) in
  let interaction := new_interaction entity_a entity_b in
  let interaction :=
    if is_directed_ d
    then add_evidence interaction (evidences_ d) (Directed entity_a entity_b)
           (EffInt 0)
    else add_evidence interaction (evidences_ d) Undirected (EffInt 0) in
  let interaction :=
    if positive_ d
    then add_evidence interaction (evidences_ d) (Directed entity_a entity_b)
           (EffInt 1)
    else interaction in
  if negative_ d
  then add_evidence interaction (evidences_ d) (Directed entity_a entity_b)
         (EffInt (-1))
  else interaction.

(** [Network._add_update_edge] *)
Definition _add_update_edge (e : MappedEdge (EdgeData Attrs))
    (only_directions : bool) (net : Network) : Network :=
  add_interaction update_attrs entity_iadd unset_interaction_type
    (edge_interaction e)
    (attrs_edge (payload (edge e))) only_directions net.

(** The loop of [Network._add_edge_list]. *)
Definition _add_edge_list (edge_list : list (MappedEdge (EdgeData Attrs)))
    (only_directions : bool) (net : Network) : Network :=
  foldl (fun n e => _add_update_edge e only_directions n) net edge_list.

(** [Network.load_resource] after the input has been read and
    translated: the edges are added, then [organisms_check] and
    [remove_zero_degree] run with their default arguments; [organisms] is
    [common.to_set(self.ncbi_tax_id)] and [check] the lookup of
    [reflists.check]. *)
Definition load_resource_edges (check : string → string → Z → bool)
    (organisms : gset Z) (edge_list : list (MappedEdge (EdgeData Attrs)))
    (only_directions : bool) (net : Network) : Network :=
  remove_zero_degree
    (organisms_check check organisms true false
       (_add_edge_list edge_list only_directions net)).

(** The networks that [add_interaction] builds from the empty one. *)
Inductive built : Network → Prop :=
  | built_reset : built reset
  | built_add net ia attrs only_directions :
      built net →
      built (add_interaction update_attrs entity_iadd
               unset_interaction_type ia attrs
               only_directions net).
End Emission.

End IngestRows.
Export IngestRows.

(** * The per-hop arguments of the path search *)

Module PathArgs.

(** A filter argument of [find_paths]: one value for every hop, or a tuple
    or list with a value for each hop. *)
Inductive ArgValue (A : Type) :=
  | Scalar (v : A)
  | Tuple (l : list A).
Arguments Scalar {A}.
Arguments Tuple {A}.

(** The inner function [interaction_arg] of [find_paths]: the tuple is
    padded with its last element up to [maxlen] and cut at [maxlen].
    [None] is the [IndexError] of [value[-1]] on an empty tuple. *)
Definition interaction_arg {A} (value : ArgValue A) (maxlen : nat)
    : option (list A) :=
  let value := match value with Tuple l => l | Scalar v => [v] end in
  match last value with
  | None => None
  | Some v =>
      Some (take maxlen (value ++ replicate (maxlen - length value) v))
  end.

(** Consecutive nodes of a path are partners for the hop between them. *)
Definition linked (partners : nat → Entity → gset Entity)
    (p : list Entity) : Prop :=
  ∀ i x y, p !! i = Some x → p !! S i = Some y → y ∈ partners i x.

(** What a path of the result of [find_all_paths_aux] is, for a call that
    extends [prefix]: it starts as [prefix] does, is linked, has a length
    within the bounds, and its last node completes it. *)
Definition sound_from (partners : nat → Entity → gset Entity)
    (loops : bool) (minlen maxlen : nat) (prefix : list Entity)
    (end_ : option Entity) (p : list Entity) : Prop :=
  head p = head prefix
  ∧ linked partners p
  ∧ (minlen + 1 ≤ length p ∧ length p ≤ maxlen + 1)%nat
  ∧ ∃ t, last p = Some t
         ∧ path_complete loops minlen maxlen t end_ p = true.

End PathArgs.
Export PathArgs.

(** * Example data *)

Module Examples.

Definition eA : Entity := mkEntity "A" "uniprot" "protein" 9606 None.
Definition eB : Entity := mkEntity "B" "uniprot" "protein" 9606 None.
Definition eC : Entity := mkEntity "C" "uniprot" "protein" 9606 None.

Definition r1 : NetworkResource :=
  mkResource "r1" "post_translational" "activity_flow" None.
Definition r2 : NetworkResource :=
  mkResource "r2" "post_translational" "activity_flow" None.
Definition r3 : NetworkResource :=
  mkResource "r3" "post_translational" "activity_flow" None.

(** A, B with one undirected evidence citing reference 100. *)
Definition ia_undirected : Interaction :=
  add_evidence (new_interaction eA eB) (Evidence r1 {[ "100" ]})
    Undirected (EffInt 0).

(** A, C with one undirected evidence citing the same reference. *)
Definition ia_undirected_AC : Interaction :=
  add_evidence (new_interaction eA eC) (Evidence r2 {[ "100" ]})
    Undirected (EffInt 0).

(** A -> B directed, one evidence citing reference 100. *)
Definition ia_directed : Interaction :=
  add_evidence (new_interaction eA eB) (Evidence r1 {[ "100" ]})
    (Directed eA eB) (EffInt 0).

(** A -> B directed, from a resource without literature references. *)
Definition ia_directed_noref : Interaction :=
  add_evidence (new_interaction eA eB) (Evidence r1 ∅)
    (Directed eA eB) (EffInt 0).

(** A -| B: directed and inhibitory. *)
Definition ia_negative : Interaction :=
  add_evidence (new_interaction eA eB) (Evidence r1 {[ "100" ]})
    (Directed eA eB) (EffInt (-1)).

(** A -> B directed from [r3], as a secondary ingest would add it. *)
Definition ia_r3 : Interaction :=
  add_evidence (new_interaction eA eB) (Evidence r3 {[ "300" ]})
    (Directed eA eB) (EffInt 1).

Definition no_attrs (ia : Interaction) (_ : unit) : Interaction := ia.
Definition keep_entity (old _ : Entity) : Entity := old.

Definition net_of (ias : list Interaction) : Network :=
  foldl (fun net ia =>
           add_interaction no_attrs keep_entity remove_interaction_type ia tt
             false net)
    reset ias.

Definition net_directed : Network := net_of [ia_directed].
Definition net_undirected : Network :=
  net_of [ia_undirected; ia_undirected_AC].

(** The two-node cycle A -> B -> A. *)
Definition partners_AB (_ : nat) (e : Entity) : gset Entity :=
  if bool_decide (e = eA) then {[ eB ]}
  else if bool_decide (e = eB) then {[ eA ]}
  else ∅.

(** An input with a header line and two data lines. *)
Definition infile_with_header : list InputLine :=
  [ RawLine "id_a	id_b"; RawLine "P1	P2"; RawLine "P3	P4" ].

End Examples.

(** * More example data *)

Module IngestExamples.
Import Examples.

(** A record [A B] of resource [r1], directed and stimulatory, after the
    translation of its identifiers. *)
Definition edge_AB : MappedEdge (EdgeData unit) :=
  mkMappedEdge
    (mkRawEdge "A" "B" "uniprot" "uniprot" "protein" "protein" 9606 9606
       (mkEdgeData (Evidence r1 {[ "100" ]}) true true false tt))
    "A" "uniprot" "B" "uniprot".



Definition no_label (_ _ _ : string) (_ : Z) : option string := None.
Definition all_listed (_ _ : string) (_ : Z) : bool := true.

End IngestExamples.


(** * Properties of evidence containers *)

Module EvidenceProps.

(** Closed, decidable statements about the example data are settled by
    evaluating their decision procedure. *)
Ltac vm_decide := apply (bool_decide_unpack _); vm_compute; exact I.

Lemma evs_add_lookup (x y : gmap NetworkResource (gset string)) r :
  evs_add x y !! r =
    match x !! r, y !! r with
    | Some p, Some q => Some (p ∪ q)
    | Some p, None => Some p
    | None, o => o
    end.
Proof.
  unfold evs_add. rewrite lookup_union_with.
  destruct (x !! r), (y !! r); reflexivity.
Qed.

Lemma evs_add_empty_r (x : gmap NetworkResource (gset string)) :
  evs_add x ∅ = x.
Proof.
  apply map_eq; intros r. rewrite evs_add_lookup, lookup_empty.
  destruct (x !! r); reflexivity.
Qed.

Lemma evs_add_absorb (x y : gmap NetworkResource (gset string)) :
  evs_add (evs_add x y) y = evs_add x y.
Proof.
  apply map_eq; intros r. rewrite !evs_add_lookup.
  destruct (x !! r) as [p|], (y !! r) as [q|]; try reflexivity.
  - f_equal. set_solver.
  - f_equal. set_solver.
Qed.

Lemma evs_le_refl x : evs_le x x.
Proof. intros r refs H. exists refs. split; [exact H | reflexivity]. Qed.

Lemma evs_le_trans x y z : evs_le x y → evs_le y z → evs_le x z.
Proof.
  intros Hxy Hyz r refs H.
  destruct (Hxy _ _ H) as (p & Hp & Hsub).
  destruct (Hyz _ _ Hp) as (q & Hq & Hsub').
  exists q. split; [exact Hq | set_solver].
Qed.

Lemma evs_le_empty y : evs_le ∅ y.
Proof. intros r refs H. rewrite lookup_empty in H. discriminate. Qed.

Lemma evs_le_add_l x y : evs_le x (evs_add x y).
Proof.
  intros r refs H. rewrite evs_add_lookup, H.
  destruct (y !! r) as [q|]; eexists; split; try reflexivity. set_solver.
Qed.

Lemma evs_le_add_r x y : evs_le y (evs_add x y).
Proof.
  intros r refs H. rewrite evs_add_lookup, H.
  destruct (x !! r) as [p|]; eexists; split; try reflexivity. set_solver.
Qed.

Lemma evs_le_add_mono x x' y y' :
  evs_le x x' → evs_le y y' → evs_le (evs_add x y) (evs_add x' y').
Proof.
  intros Hx Hy r refs. rewrite !evs_add_lookup.
  destruct (x !! r) as [p|] eqn:Ep, (y !! r) as [q|] eqn:Eq; intros H;
    inversion H; subst; clear H.
  - destruct (Hx _ _ Ep) as (p' & -> & ?), (Hy _ _ Eq) as (q' & -> & ?).
    eexists; split; [reflexivity | set_solver].
  - destruct (Hx _ _ Ep) as (p' & -> & ?).
    destruct (y' !! r); eexists; (split; [reflexivity | set_solver]).
  - destruct (Hy _ _ Eq) as (q' & -> & ?).
    destruct (x' !! r); eexists; (split; [reflexivity | set_solver]).
Qed.

(** Removal by a constraint that does not look at the references keeps
    inclusion. *)
Lemma evs_le_remove f x y :
  f_references f = None → evs_le x y → evs_le (evs_remove f x) (evs_remove f y).
Proof.
  intros Hf Hxy r refs. unfold evs_remove.
  rewrite map_lookup_filter_Some. intros [H Hm].
  destruct (Hxy _ _ H) as (p & Hp & Hsub).
  exists p. split; [|exact Hsub].
  rewrite map_lookup_filter_Some. split; [exact Hp|].
  simpl in *. unfold ev_match in *. rewrite Hf in *. simpl in *. exact Hm.
Qed.

Lemma evs_le_remove_l f x : evs_le (evs_remove f x) x.
Proof.
  intros r refs. unfold evs_remove. rewrite map_lookup_filter_Some.
  intros [H _]. exists refs. split; [exact H | reflexivity].
Qed.

Lemma evs_bool_true x : evs_bool x = true ↔ x ≠ ∅.
Proof. unfold evs_bool. apply bool_decide_eq_true. Qed.

Lemma evs_bool_false x : evs_bool x = false ↔ x = ∅.
Proof.
  unfold evs_bool. rewrite bool_decide_eq_false.
  split; [apply dec_stable | intros -> H; apply H; reflexivity].
Qed.

(** Every counting method gives zero on an empty container. *)
Lemma count_by_empty by_references by_pairs f :
  count_by by_references by_pairs f ∅ = 0%nat.
Proof.
  destruct by_references, by_pairs; simpl;
    unfold count_references, count_curation_effort, count_resources,
      evs_filter;
    rewrite map_filter_empty; reflexivity.
Qed.

(** Without constraints the number of resources is the size of the
    container. *)
Lemma count_resources_no_filter x :
  count_resources (count_args None false) x = size x.
Proof.
  unfold count_resources, evs_filter. f_equal.
  apply map_filter_id. intros r refs _. reflexivity.
Qed.

End EvidenceProps.
Export EvidenceProps.

(** * Properties of interactions *)

Module InteractionProps.
Import Examples.

Lemma is_directed_true ia :
  is_directed ia = true ↔ ∃ d e, direction ia !! d = Some e ∧ e ≠ ∅.
Proof.
  unfold is_directed. rewrite bool_decide_eq_true. unfold map_Exists.
  split; intros (d & e & Hd & He); exists d, e; (split; [exact Hd|]);
    apply evs_bool_true; exact He.
Qed.

Lemma singleton_evidence_nonempty r refs : Evidence r refs ≠ ∅.
Proof. unfold Evidence. apply insert_non_empty. Qed.

(** C9. An interaction whose two directed slots are empty while its
    ['undirected'] slot holds evidence is reported as directed:
    [is_directed] looks at every value of the [direction] dictionary, so it
    is true exactly when some slot, directed or undirected, holds
    evidence. *)
Theorem is_directed_counts_undirected ia e :
  direction ia !!! a_b ia = ∅ →
  direction ia !!! b_a ia = ∅ →
  direction ia !! Undirected = Some e →
  e ≠ ∅ →
  is_directed ia = true
  ∧ (∀ ia', is_directed ia' = true
            ↔ ∃ d e', direction ia' !! d = Some e' ∧ e' ≠ ∅).
Proof.
  intros _ _ Hu He. split.
  - apply is_directed_true. exists Undirected, e. auto.
  - intros ia'. apply is_directed_true.
Qed.

Lemma is_directed_counts_undirected_witness :
  direction ia_undirected !!! a_b ia_undirected = ∅
  ∧ direction ia_undirected !!! b_a ia_undirected = ∅
  ∧ is_directed ia_undirected = true.
Proof.
  split; [vm_decide|].
  split; [vm_decide|].
  refine (proj1 (is_directed_counts_undirected ia_undirected
                   (Evidence r1 {[ "100" ]}) _ _ _ _)); vm_decide.
Defined.

(** C3. [get_evidences] with [effect = 'negative']: on the inhibitory
    interaction A -| B the call returns nothing although the negative slot
    of A -> B holds the evidence of [r1]; for every interaction the call
    returns what [effect = 'positive'] returns. *)
Theorem get_evidences_negative_reads_positive :
  get_evidences ia_negative (DirIs (Directed eA eB)) (EffName "negative")
    no_filter = ∅
  ∧ negative ia_negative !!! Directed eA eB = Evidence r1 {[ "100" ]}
  ∧ (∀ ia dir f,
       get_evidences ia dir (EffName "negative") f
       = get_evidences ia dir (EffName "positive") f).
Proof.
  split; [vm_decide|].
  split; [vm_decide|].
  intros ia dir f. reflexivity.
Qed.

(** The case table of [majority_dir], for every interaction and every
    choice of counting method and filters. *)
Lemma majority_dir_table ia oit op br brp :
  let n_ab := dir_count ia (a_b ia) oit op br brp in
  let n_ba := dir_count ia (b_a ia) oit op br brp in
  let res := majority_dir ia oit op br brp in
  (n_ab = 0%nat → n_ba = 0%nat → res = MajUndirected)
  ∧ (n_ab = n_ba → n_ab ≠ 0%nat → res = MajNone)
  ∧ ((n_ba < n_ab)%nat → res = MajDir (a_b ia))
  ∧ ((n_ab < n_ba)%nat → res = MajDir (b_a ia)).
Proof.
  intros n_ab n_ba res.
  assert (Hearly : negb (evs_bool (direction ia !!! a_b ia))
                   && negb (evs_bool (direction ia !!! b_a ia)) = true
                   → n_ab = 0%nat ∧ n_ba = 0%nat).
  { rewrite andb_true_iff, !negb_true_iff, !evs_bool_false.
    intros [Ha Hb]. subst n_ab n_ba. unfold dir_count.
    rewrite Ha, Hb, !count_by_empty. auto. }
  subst res. unfold majority_dir. fold n_ab n_ba.
  destruct (negb (evs_bool (direction ia !!! a_b ia))
            && negb (evs_bool (direction ia !!! b_a ia))) eqn:E.
  - destruct (Hearly eq_refl) as [Ha Hb].
    repeat split; intros; try lia; reflexivity.
  - clear Hearly E.
    destruct (Nat.eqb_spec n_ab 0), (Nat.eqb_spec n_ba 0),
      (Nat.eqb_spec n_ab n_ba), (Nat.ltb_spec n_ba n_ab);
      simpl; repeat split; intros; try lia; reflexivity.
Qed.

(** C6, as amended.  For every interaction, [majority_dir] is
    ['undirected'] when both counts are zero, [None] when they are equal
    and non-zero, and otherwise the key with the larger count.  For an
    interaction with evidence in a directed slot the result is one of the
    two keys or [None], with [None] exactly when the counts are equal, as
    soon as one of the counts is non-zero; counting resources without
    filters guarantees that. *)
Theorem majority_dir_by_counts ia oit op br brp :
  let n_ab := dir_count ia (a_b ia) oit op br brp in
  let n_ba := dir_count ia (b_a ia) oit op br brp in
  let res := majority_dir ia oit op br brp in
  (n_ab = 0%nat → n_ba = 0%nat → res = MajUndirected)
  ∧ (n_ab = n_ba → n_ab ≠ 0%nat → res = MajNone)
  ∧ ((n_ba < n_ab)%nat → res = MajDir (a_b ia))
  ∧ ((n_ab < n_ba)%nat → res = MajDir (b_a ia))
  ∧ (∀ d, d = a_b ia ∨ d = b_a ia → direction ia !!! d ≠ ∅ →
       (n_ab ≠ 0%nat ∨ n_ba ≠ 0%nat →
        (res = MajDir (a_b ia) ∨ res = MajDir (b_a ia) ∨ res = MajNone)
        ∧ (res = MajNone ↔ n_ab = n_ba))
       ∧ (oit = None → op = false → br = false → brp = false →
          n_ab ≠ 0%nat ∨ n_ba ≠ 0%nat)).
Proof.
  intros n_ab n_ba res.
  destruct (majority_dir_table ia oit op br brp) as (T0 & Teq & Tab & Tba).
  fold n_ab n_ba res in T0, Teq, Tab, Tba.
  split; [exact T0|]. split; [exact Teq|]. split; [exact Tab|].
  split; [exact Tba|].
  intros d Hd Hev. split; [intros Hnz; split; [|split]|].
  - destruct (lt_eq_lt_dec n_ab n_ba) as [[Hlt|Heq]|Hgt].
    + right; left; auto.
    + right; right. apply Teq; [exact Heq | lia].
    + left; auto.
  - intros Hres. destruct (lt_eq_lt_dec n_ab n_ba) as [[Hlt|Heq]|Hgt].
    + rewrite (Tba Hlt) in Hres. discriminate.
    + exact Heq.
    + rewrite (Tab Hgt) in Hres. discriminate.
  - intros Heq. apply Teq; [exact Heq | lia].
  - intros -> -> -> ->. subst n_ab n_ba. unfold dir_count. simpl.
    rewrite !count_resources_no_filter.
    destruct Hd as [-> | ->]; [left | right];
      intros Hz; apply map_size_empty_iff in Hz; contradiction.
Qed.

Lemma majority_dir_by_counts_witness :
  direction ia_directed !!! Directed eA eB ≠ ∅
  ∧ majority_dir ia_directed None false false false = MajDir (a_b ia_directed)
  ∧ (majority_dir ia_directed None false false false = MajNone
     ↔ dir_count ia_directed (a_b ia_directed) None false false false
       = dir_count ia_directed (b_a ia_directed) None false false false).
Proof.
  assert (Hev : direction ia_directed !!! Directed eA eB ≠ ∅) by vm_decide.
  split; [exact Hev|].
  destruct (majority_dir_by_counts ia_directed None false false false)
    as (_ & _ & Tab & _ & Hcons).
  split; [apply Tab; vm_decide|].
  destruct (Hcons (Directed eA eB) (or_introl eq_refl) Hev) as [Hnz Hres].
  apply (Hnz (Hres eq_refl eq_refl eq_refl eq_refl)).
Defined.

(** C6, counterexample without the restriction on the counts: A -> B is
    supported by a resource that gives no literature reference, no filter
    is applied, and the default counting method (curation effort) makes
    [majority_dir] answer ['undirected']. *)
Lemma majority_dir_noref_is_undirected :
  direction ia_directed_noref !!! Directed eA eB ≠ ∅
  ∧ majority_dir ia_directed_noref None false false true = MajUndirected
  ∧ MajUndirected ≠ MajDir (Directed eA eB)
  ∧ MajUndirected ≠ MajDir (Directed eB eA)
  ∧ MajUndirected ≠ MajNone.
Proof.
  split; [vm_decide|].
  split; [vm_decide|].
  repeat split; discriminate.
Qed.

Lemma majority_dir_key ia oit op br brp d :
  majority_dir ia oit op br brp = MajDir d → d = a_b ia ∨ d = b_a ia.
Proof.
  unfold majority_dir.
  repeat match goal with
         | |- context [if ?c then _ else _] => destruct c
         end; intros H; inversion H; auto.
Qed.

Lemma majority_sign_lookup ia oit op br brp k :
  k = a_b ia ∨ k = b_a ia →
  majority_sign ia oit op br brp !! k
  = Some (Some (sign_flags ia k oit op br brp)).
Proof.
  intros Hk. unfold majority_sign. simpl.
  destruct (decide (k = b_a ia)) as [-> | Hne].
  - apply lookup_insert_eq.
  - destruct Hk as [-> | ->]; [|contradiction].
    rewrite lookup_insert_ne by congruence. apply lookup_insert_eq.
Qed.

Lemma majority_sign_values ia oit op br brp k v :
  majority_sign ia oit op br brp !! k = Some v → v ≠ None.
Proof.
  destruct (decide (k = a_b ia ∨ k = b_a ia)) as [Hk|Hk].
  - rewrite (majority_sign_lookup _ _ _ _ _ _ Hk). intros H; inversion H.
    discriminate.
  - unfold majority_sign. simpl.
    rewrite !lookup_insert_ne by (intros E; apply Hk; rewrite <- E; auto).
    rewrite lookup_empty. discriminate.
Qed.

Lemma consensus_rows_signed ia oit op br brp k row :
  k = a_b ia ∨ k = b_a ia →
  row ∈ consensus_rows ia (majority_sign ia oit op br brp) k →
  row.2 = "positive" ∨ row.2 = "negative".
Proof.
  intros Hk. unfold consensus_rows.
  rewrite lookup_total_alt, (majority_sign_lookup _ _ _ _ _ _ Hk).
  generalize (sign_flags ia k oit op br brp).
  intros [[] []]; simpl; intros H; set_unfold in H;
    destruct_or?; subst; simpl; auto; contradiction.
Qed.

(** C10. When the majority direction is a directed key and the positive and
    negative slots are all empty, [consensus] returns the empty list.
    [majority_sign] stores a pair of flags, never [None], under each key,
    so that no row of any consensus is directed with sign ['unknown']. *)
Theorem consensus_directed_without_sign ia oit op br brp d :
  majority_dir ia oit op br brp = MajDir d →
  positive ia !!! a_b ia = ∅ →
  positive ia !!! b_a ia = ∅ →
  negative ia !!! a_b ia = ∅ →
  negative ia !!! b_a ia = ∅ →
  consensus ia oit op br brp = []
  ∧ (∀ ia' oit' op' br' brp' k v,
       majority_sign ia' oit' op' br' brp' !! k = Some v → v ≠ None)
  ∧ (∀ ia' oit' op' br' brp' row,
       row ∈ consensus ia' oit' op' br' brp' →
       row.1.2 = "directed" → row.2 ≠ "unknown").
Proof.
  intros Hdir Hpa Hpb Hna Hnb.
  split; [|split].
  - unfold consensus. rewrite Hdir. simpl. rewrite app_nil_r.
    pose proof (majority_dir_key _ _ _ _ _ _ Hdir) as Hk.
    unfold consensus_rows.
    rewrite lookup_total_alt, (majority_sign_lookup _ _ _ _ _ _ Hk). simpl.
    unfold sign_flags.
    destruct Hk as [-> | ->].
    + rewrite Hpa, Hna, !count_by_empty. reflexivity.
    + rewrite Hpb, Hnb, !count_by_empty. reflexivity.
  - intros ia' oit' op' br' brp' k v. apply majority_sign_values.
  - intros ia' oit' op' br' brp' row. unfold consensus.
    destruct (majority_dir ia' oit' op' br' brp') as [| |k] eqn:E.
    + intros H. apply list_elem_of_singleton in H. subst row. simpl.
      discriminate.
    + simpl. rewrite app_nil_r, elem_of_app.
      intros [H|H] _;
        apply consensus_rows_signed in H; auto;
        destruct H as [-> | ->]; discriminate.
    + simpl. rewrite app_nil_r. intros H _.
      apply consensus_rows_signed in H;
        [destruct H as [-> | ->]; discriminate
        |exact (majority_dir_key _ _ _ _ _ _ E)].
Qed.

Lemma consensus_directed_without_sign_witness :
  majority_dir ia_directed None false false true = MajDir (Directed eA eB)
  ∧ consensus ia_directed None false false true = [].
Proof.
  split; [vm_decide|].
  refine (proj1 (consensus_directed_without_sign ia_directed None false
                   false true (Directed eA eB) _ _ _ _ _)); vm_decide.
Defined.

End InteractionProps.

(** * The invariant I1 *)

Module InvariantProps.
Import Examples.

Lemma lookup_slot_add k x (d : gmap DirKey (gmap NetworkResource (gset string))) j :
  slot_add k x d !! j
  = (fun e => if decide (k = j) then evs_add e x else e) <$> d !! j.
Proof.
  unfold slot_add. rewrite lookup_alter.
  destruct (decide (k = j)) as [-> | Hne]; [reflexivity|].
  destruct (d !! j); reflexivity.
Qed.

Lemma lookup_merge_keys ks (one other : gmap DirKey (gmap NetworkResource (gset string))) j :
  merge_keys ks one other !! j
  = (fun e => if decide (j ∈ ks) then evs_add e (other !!! j) else e)
      <$> one !! j.
Proof.
  unfold merge_keys. revert one.
  induction ks as [|k ks IH]; intros one; simpl.
  - destruct (one !! j); reflexivity.
  - rewrite IH, lookup_slot_add.
    destruct (one !! j) as [e|]; simpl; [|reflexivity].
    f_equal.
    destruct (decide (k = j)) as [->|Hne].
    + rewrite (decide_True (P := j ∈ j :: ks)) by set_solver.
      destruct (decide (j ∈ ks)); [apply evs_add_absorb | reflexivity].
    + destruct (decide (j ∈ ks)).
      * rewrite decide_True by set_solver. reflexivity.
      * rewrite decide_False by set_solver. reflexivity.
Qed.

Lemma lookup_merge_slots (one other : gmap DirKey (gmap NetworkResource (gset string))) j :
  merge_slots one other !! j
  = (fun e => evs_add e (other !!! j)) <$> one !! j.
Proof.
  unfold merge_slots. rewrite map_lookup_imap.
  destruct (one !! j); reflexivity.
Qed.

(** A transformation that acts slot by slot and monotonically keeps
    [slots_ok]. *)
Lemma slots_ok_pointwise
    (s d s' d' : gmap DirKey (gmap NetworkResource (gset string)))
    (ev ev' : gmap NetworkResource (gset string))
    (fs fd : DirKey → gmap NetworkResource (gset string)
             → gmap NetworkResource (gset string)) :
  (∀ k, s' !! k = fs k <$> s !! k) →
  (∀ k, d' !! k = fd k <$> d !! k) →
  (∀ k x y, evs_le x y → evs_le (fs k x) (fd k y)) →
  (∀ k x, evs_le x ev → evs_le (fs k x) ev') →
  slots_ok s d ev → slots_ok s' d' ev'.
Proof.
  intros Hs Hd Hmono Hev Hok k e. rewrite Hs.
  destruct (s !! k) as [e0|] eqn:E; simpl; intros H; inversion H; subst.
  destruct (Hok _ _ E) as (e' & Hd' & Hle & Hle').
  exists (fd k e'). rewrite Hd, Hd'. simpl. auto.
Qed.

Lemma direction_key_cases ia d k :
  direction_key ia d = Some k → k = a_b ia ∨ k = b_a ia ∨ k = Undirected.
Proof.
  unfold direction_key. destruct d as [x y|].
  - destruct (id_to_entity ia x), (id_to_entity ia y); try discriminate.
    destruct (bool_decide _ || bool_decide _) eqn:E; [|discriminate].
    intros H; inversion H; subst.
    apply orb_true_iff in E. rewrite !bool_decide_eq_true in E. tauto.
  - intros H; inversion H. auto.
Qed.

Lemma slots_total_le
    (s d : gmap DirKey (gmap NetworkResource (gset string))) ev k :
  slots_ok s d ev → evs_le (s !!! k) (d !!! k) ∧ evs_le (s !!! k) ev.
Proof.
  intros Hok. rewrite !lookup_total_alt.
  destruct (s !! k) as [e|] eqn:E; simpl.
  - destruct (Hok _ _ E) as (e' & -> & ? & ?). simpl. auto.
  - split; apply evs_le_empty.
Qed.

Lemma I1_init x y : I1 (new_interaction x y) ∧ has_direction_keys (new_interaction x y).
Proof.
  split; [split|].
  - intros d e. unfold new_interaction. simpl. intros H.
    assert (e = ∅) as ->.
    { rewrite lookup_insert in H. case_decide; [congruence|].
      rewrite lookup_insert in H. case_decide; [congruence|].
      rewrite lookup_empty in H. discriminate. }
    assert (is_Some ((<[Undirected := ∅]>
              (<[Directed (sorted_pair x y).2 (sorted_pair x y).1 := ∅]>
                 (<[Directed (sorted_pair x y).1 (sorted_pair x y).2 := ∅]>
                    (∅ : gmap DirKey (gmap NetworkResource (gset string))))))
              !! d)) as [e' He'].
    { rewrite lookup_insert_ne.
      - rewrite lookup_insert in H |- *. case_decide; [eauto|].
        rewrite lookup_insert in H |- *. case_decide; [eauto|].
        rewrite lookup_empty in H. discriminate.
      - intros <-. rewrite !lookup_insert_ne, lookup_empty in H by discriminate.
        discriminate. }
    exists e'. split; [exact He'|]. split; apply evs_le_empty.
  - intros d e. unfold new_interaction. simpl. intros H.
    assert (e = ∅) as ->.
    { rewrite lookup_insert in H. case_decide; [congruence|].
      rewrite lookup_insert in H. case_decide; [congruence|].
      rewrite lookup_empty in H. discriminate. }
    assert (is_Some ((<[Undirected := ∅]>
              (<[Directed (sorted_pair x y).2 (sorted_pair x y).1 := ∅]>
                 (<[Directed (sorted_pair x y).1 (sorted_pair x y).2 := ∅]>
                    (∅ : gmap DirKey (gmap NetworkResource (gset string))))))
              !! d)) as [e' He'].
    { rewrite lookup_insert_ne.
      - rewrite lookup_insert in H |- *. case_decide; [eauto|].
        rewrite lookup_insert in H |- *. case_decide; [eauto|].
        rewrite lookup_empty in H. discriminate.
      - intros <-. rewrite !lookup_insert_ne, lookup_empty in H by discriminate.
        discriminate. }
    exists e'. split; [exact He'|]. split; apply evs_le_empty.
  - intros k Hk. unfold new_interaction, a_b, b_a in *. simpl in *.
    destruct Hk as [-> | [-> | ->]].
    + rewrite lookup_insert_ne by discriminate.
      rewrite lookup_insert. case_decide; [eauto|].
      rewrite lookup_insert_eq. eauto.
    + rewrite lookup_insert_ne by discriminate.
      rewrite lookup_insert_eq. eauto.
    + rewrite lookup_insert_eq. eauto.
Qed.

Lemma fmap_option_id {A} (o : option A) : o = (fun e => e) <$> o.
Proof. destruct o; reflexivity. Qed.

Lemma slots_ok_add_both s d ev k x :
  slots_ok s d ev → slots_ok (slot_add k x s) (slot_add k x d) (evs_add ev x).
Proof.
  apply (slots_ok_pointwise s d _ _ ev _
           (fun j e => if decide (k = j) then evs_add e x else e)
           (fun j e => if decide (k = j) then evs_add e x else e)).
  - intros j. apply lookup_slot_add.
  - intros j. apply lookup_slot_add.
  - intros j p q Hle. destruct (decide (k = j)); [|exact Hle].
    apply evs_le_add_mono; [exact Hle | apply evs_le_refl].
  - intros j p Hle. destruct (decide (k = j)).
    + apply evs_le_add_mono; [exact Hle | apply evs_le_refl].
    + eapply evs_le_trans; [exact Hle | apply evs_le_add_l].
Qed.

Lemma slots_ok_add_direction s d ev k x :
  slots_ok s d ev → slots_ok s (slot_add k x d) (evs_add ev x).
Proof.
  apply (slots_ok_pointwise s d _ _ ev _
           (fun j e => e)
           (fun j e => if decide (k = j) then evs_add e x else e)).
  - intros j. apply fmap_option_id.
  - intros j. apply lookup_slot_add.
  - intros j p q Hle. destruct (decide (k = j)); [|exact Hle].
    eapply evs_le_trans; [exact Hle | apply evs_le_add_l].
  - intros j p Hle. eapply evs_le_trans; [exact Hle | apply evs_le_add_l].
Qed.

Lemma slots_ok_merge_keys ks ks' s d ev so do evo :
  (∀ j, j ∈ ks → j ∈ ks') →
  slots_ok s d ev → slots_ok so do evo →
  slots_ok (merge_keys ks s so) (merge_keys ks' d do) (evs_add ev evo).
Proof.
  intros Hsub Hok Hoko. revert Hok.
  apply (slots_ok_pointwise s d _ _ ev _
           (fun j e => if decide (j ∈ ks) then evs_add e (so !!! j) else e)
           (fun j e => if decide (j ∈ ks') then evs_add e (do !!! j) else e)).
  - intros j. apply lookup_merge_keys.
  - intros j. apply lookup_merge_keys.
  - intros j p q Hle.
    destruct (slots_total_le so do evo j Hoko) as [Hso _].
    destruct (decide (j ∈ ks)) as [Hin|Hin].
    + rewrite decide_True by auto. apply evs_le_add_mono; assumption.
    + destruct (decide (j ∈ ks')); [|exact Hle].
      eapply evs_le_trans; [exact Hle | apply evs_le_add_l].
  - intros j p Hle.
    destruct (slots_total_le so do evo j Hoko) as [_ Hso].
    destruct (decide (j ∈ ks)).
    + apply evs_le_add_mono; assumption.
    + eapply evs_le_trans; [exact Hle | apply evs_le_add_l].
Qed.

Lemma slots_ok_merge_slots s d ev so do evo :
  slots_ok s d ev → slots_ok so do evo →
  slots_ok (merge_slots s so) (merge_slots d do) (evs_add ev evo).
Proof.
  intros Hok Hoko. revert Hok.
  apply (slots_ok_pointwise s d _ _ ev _
           (fun j e => evs_add e (so !!! j))
           (fun j e => evs_add e (do !!! j))).
  - intros j. apply lookup_merge_slots.
  - intros j. apply lookup_merge_slots.
  - intros j p q Hle.
    destruct (slots_total_le so do evo j Hoko) as [Hso _].
    apply evs_le_add_mono; assumption.
  - intros j p Hle.
    destruct (slots_total_le so do evo j Hoko) as [_ Hso].
    apply evs_le_add_mono; assumption.
Qed.

Lemma lookup_unset_slot_resource r itype v k
    (d : gmap DirKey (gmap NetworkResource (gset string))) j :
  unset_slot (Some r) itype v k d !! j
  = (fun e => if decide (k = j)
              then evs_remove (mkFilter (Some r) itype None None v) e
              else e) <$> d !! j.
Proof.
  unfold unset_slot. rewrite lookup_alter.
  destruct (decide (k = j)) as [-> | Hne]; [reflexivity|].
  destruct (d !! j); reflexivity.
Qed.

(** Unsetting the same key of a sign dictionary and of [direction]. *)
Lemma slots_ok_unset_both resource itype v k s d ev :
  slots_ok s d ev →
  slots_ok (unset_slot resource itype v k s) (unset_slot resource itype v k d)
    ev.
Proof.
  destruct resource as [r|].
  - apply (slots_ok_pointwise s d _ _ ev _
             (fun j e => if decide (k = j)
                         then evs_remove (mkFilter (Some r) itype None None v) e
                         else e)
             (fun j e => if decide (k = j)
                         then evs_remove (mkFilter (Some r) itype None None v) e
                         else e)).
    + intros j. apply lookup_unset_slot_resource.
    + intros j. apply lookup_unset_slot_resource.
    + intros j p q Hle. destruct (decide (k = j)); [|exact Hle].
      apply evs_le_remove; [reflexivity | exact Hle].
    + intros j p Hle. destruct (decide (k = j)); [|exact Hle].
      eapply evs_le_trans; [apply evs_le_remove_l | exact Hle].
  - intros Hok j e. unfold unset_slot. rewrite !lookup_insert.
    destruct (decide (k = j)).
    + intros H; inversion H; subst. exists ∅.
      split; [reflexivity|]. split; apply evs_le_empty.
    + apply Hok.
Qed.

(** Unsetting a key of a sign dictionary only. *)
Lemma slots_ok_unset_sign resource itype v k s d ev :
  is_Some (d !! k) →
  slots_ok s d ev → slots_ok (unset_slot resource itype v k s) d ev.
Proof.
  intros [e' He']. destruct resource as [r|].
  - apply (slots_ok_pointwise s d _ _ ev _
             (fun j e => if decide (k = j)
                         then evs_remove (mkFilter (Some r) itype None None v) e
                         else e)
             (fun j e => e)).
    + intros j. apply lookup_unset_slot_resource.
    + intros j. apply fmap_option_id.
    + intros j p q Hle. destruct (decide (k = j)); [|exact Hle].
      eapply evs_le_trans; [apply evs_le_remove_l | exact Hle].
    + intros j p Hle. destruct (decide (k = j)); [|exact Hle].
      eapply evs_le_trans; [apply evs_le_remove_l | exact Hle].
  - intros Hok j e. unfold unset_slot. rewrite lookup_insert.
    destruct (decide (k = j)) as [<- | Hne].
    + intros H; inversion H; subst. exists e'.
      split; [exact He'|]. split; apply evs_le_empty.
    + apply Hok.
Qed.

Lemma is_Some_slot_add k x (d : gmap DirKey (gmap NetworkResource (gset string))) j :
  is_Some (d !! j) → is_Some (slot_add k x d !! j).
Proof. rewrite lookup_slot_add, fmap_is_Some. auto. Qed.

Lemma is_Some_merge_keys ks (d o : gmap DirKey (gmap NetworkResource (gset string))) j :
  is_Some (d !! j) → is_Some (merge_keys ks d o !! j).
Proof. rewrite lookup_merge_keys, fmap_is_Some. auto. Qed.

Lemma is_Some_merge_slots (d o : gmap DirKey (gmap NetworkResource (gset string))) j :
  is_Some (d !! j) → is_Some (merge_slots d o !! j).
Proof. rewrite lookup_merge_slots, fmap_is_Some. auto. Qed.

Lemma is_Some_unset_slot resource itype v k
    (d : gmap DirKey (gmap NetworkResource (gset string))) j :
  is_Some (d !! j) → is_Some (unset_slot resource itype v k d !! j).
Proof.
  destruct resource as [r|].
  - rewrite lookup_unset_slot_resource, fmap_is_Some. auto.
  - unfold unset_slot. rewrite lookup_insert.
    destruct (decide (k = j)); eauto.
Qed.

Lemma I1_add_evidence ia ev d eff :
  I1 ia ∧ has_direction_keys ia →
  I1 (add_evidence ia ev d eff) ∧ has_direction_keys (add_evidence ia ev d eff).
Proof.
  intros [[Hp Hn] Hk]. unfold add_evidence.
  destruct (direction_key ia d) as [k|]; [|repeat split; assumption].
  assert (Hkeys : ∀ p n,
            has_direction_keys
              (mkInteraction (a ia) (b ia) (evs_add (evidences ia) ev)
                 (slot_add k ev (direction ia)) p n)).
  { intros p n j Hj. simpl. apply is_Some_slot_add. apply Hk. exact Hj. }
  destruct (bool_decide (k ≠ Undirected));
    [destruct (effect_is_positive eff);
       [|destruct (effect_is_negative eff)]|];
    (split; [split|apply Hkeys]); simpl;
    auto using slots_ok_add_both, slots_ok_add_direction.
Qed.

Lemma I1_merge ia other :
  I1 ia ∧ has_direction_keys ia → I1 other →
  I1 (merge ia other) ∧ has_direction_keys (merge ia other).
Proof.
  intros [[Hp Hn] Hk] [Hpo Hno]. unfold merge.
  destruct (negb (_check_nodes_key ia (Interactions.nodes other)));
    [repeat split; assumption|].
  split; [split|]; unfold has_direction_keys, a_b, b_a;
    cbn [positive negative direction evidences a b].
  - apply slots_ok_merge_keys; [set_solver | assumption | assumption].
  - apply slots_ok_merge_keys; [set_solver | assumption | assumption].
  - intros j Hj. apply is_Some_merge_keys. apply Hk. exact Hj.
Qed.

Lemma I1_iadd ia other :
  I1 ia ∧ has_direction_keys ia → I1 other →
  I1 (iadd ia other) ∧ has_direction_keys (iadd ia other).
Proof.
  intros [[Hp Hn] Hk] [Hpo Hno]. unfold iadd.
  destruct (bool_decide (key ia ≠ key other));
    [repeat split; assumption|].
  split; [split|]; unfold has_direction_keys, a_b, b_a;
    cbn [positive negative direction evidences a b].
  - apply slots_ok_merge_slots; assumption.
  - apply slots_ok_merge_slots; assumption.
  - intros j Hj. apply is_Some_merge_slots. apply Hk. exact Hj.
Qed.

Lemma I1_unset_direction ia d only_sign resource itype v :
  I1 ia ∧ has_direction_keys ia →
  I1 (unset_direction ia d only_sign resource itype v)
  ∧ has_direction_keys (unset_direction ia d only_sign resource itype v).
Proof.
  intros [[Hp Hn] Hk]. unfold unset_direction.
  destruct (direction_key ia d) as [k|] eqn:E; [|repeat split; assumption].
  pose proof (Hk k (direction_key_cases _ _ _ E)) as Hsome.
  assert (Hfull :
    I1 (mkInteraction (a ia) (b ia) (evidences ia)
          (unset_slot resource itype v k (direction ia))
          (unset_slot resource itype v k (positive ia))
          (unset_slot resource itype v k (negative ia)))
    ∧ has_direction_keys
        (mkInteraction (a ia) (b ia) (evidences ia)
          (unset_slot resource itype v k (direction ia))
          (unset_slot resource itype v k (positive ia))
          (unset_slot resource itype v k (negative ia)))).
  { split; [split|]; simpl.
    - apply slots_ok_unset_both; assumption.
    - apply slots_ok_unset_both; assumption.
    - intros j Hj. simpl. apply is_Some_unset_slot. apply Hk. exact Hj. }
  destruct only_sign as [s|]; [|exact Hfull].
  destruct (bool_decide (s = "")); [exact Hfull|].
  destruct (_effect_synonyms (Some s)) as [sign|];
    [|repeat split; assumption].
  destruct (bool_decide (sign = "positive"));
    (split; [split|]; simpl;
     [first [apply slots_ok_unset_sign; assumption | assumption]
     |first [apply slots_ok_unset_sign; assumption | assumption]
     |intros j Hj; apply Hk; exact Hj]).
Qed.

Lemma I1_reachable ia :
  reachable ia → I1 ia ∧ has_direction_keys ia.
Proof.
  induction 1 as [x y | ia ev d eff _ IH | ia other _ IH _ IHo
                 | ia other _ IH _ IHo | ia d os r it v _ IH
                 | ia d s r it v _ IH].
  - apply I1_init.
  - apply I1_add_evidence, IH.
  - apply I1_merge; [exact IH | apply IHo].
  - apply I1_iadd; [exact IH | apply IHo].
  - apply I1_unset_direction, IH.
  - unfold unset_sign. apply I1_unset_direction, IH.
Qed.

(** C8. Invariant I1 holds in every state an interaction reaches from its
    constructor through [add_evidence], [merge], [+=], [unset_direction] and
    [unset_sign]: every evidence of [positive[d]] or [negative[d]] has an
    evidence of the same resource, with at least its references, in
    [direction[d]] and in [evidences]. *)
Theorem I1_preserved ia :
  reachable ia →
  ∀ d e r refs,
    positive ia !! d = Some e ∨ negative ia !! d = Some e →
    e !! r = Some refs →
    (∃ e' refs', direction ia !! d = Some e' ∧ e' !! r = Some refs'
                 ∧ refs ⊆ refs')
    ∧ (∃ refs', evidences ia !! r = Some refs' ∧ refs ⊆ refs').
Proof.
  intros Hreach d e r refs Hslot Hr.
  destruct (I1_reachable ia Hreach) as [[Hp Hn] _].
  assert (Hok : ∃ e', direction ia !! d = Some e' ∧ evs_le e e'
                      ∧ evs_le e (evidences ia)).
  { destruct Hslot as [H|H]; [apply (Hp _ _ H) | apply (Hn _ _ H)]. }
  destruct Hok as (e' & Hd & Hle & Hev).
  destruct (Hle _ _ Hr) as (refs' & Hr' & Hsub).
  split; [exists e', refs'; auto | apply (Hev _ _ Hr)].
Qed.

(** The interaction of scenario S2: A -> B positive from [r1], negative
    from [r2], merged into one. *)
Lemma S2_reachable :
  reachable (merge ia_r3 ia_negative).
Proof.
  apply reach_merge; apply reach_add_evidence, reach_init.
Qed.

Lemma I1_preserved_witness :
  ∃ refs', evidences (merge ia_r3 ia_negative) !! r1 = Some refs'
           ∧ ({[ "100" ]} : gset string) ⊆ refs'.
Proof.
  refine (proj2 (I1_preserved (merge ia_r3 ia_negative) S2_reachable
                   (Directed eA eB) (Evidence r1 {[ "100" ]}) r1 {[ "100" ]}
                   _ _)).
  - right. vm_decide.
  - vm_decide.
Defined.

End InvariantProps.

(** * Properties of the ingest loop *)

Module IngestProps.
Import Examples.

(** Which records get past the head of the loop: those longer than one
    character (or field) whose line number is not 1 when there is a
    header. *)
Lemma records_read_spec header infile lnum line :
  (lnum, line) ∈ records_read header infile
  ↔ infile !! lnum = Some line
    ∧ (1 < len line)%nat
    ∧ ¬ (lnum = 1%nat ∧ header = true).
Proof.
  unfold records_read, enumerate, skipped.
  rewrite list_elem_of_filter, elem_of_lookup_imap. simpl.
  rewrite orb_false_iff, andb_false_iff, Nat.leb_gt, Nat.eqb_neq.
  split.
  - intros [(Hlen & Hhead) (i & y & Heq & Hi)]. inversion Heq; subst.
    split; [exact Hi|]. split; [exact Hlen|].
    intros [-> ->]. destruct Hhead; [lia | discriminate].
  - intros (Hi & Hlen & Hhead). split.
    + split; [exact Hlen|]. destruct (decide (lnum = 1%nat)); [|auto].
      right. destruct header; [|reflexivity]. exfalso. auto.
    + exists lnum, line. auto.
Qed.

(** C2. With [header = true] the record with index 0, the header itself,
    is read as data, and the record with index 1, the first data row, is
    skipped: the test compares the zero-based line number with 1. *)
Theorem header_row_is_read :
  records_read true infile_with_header
  = [ (0%nat, RawLine "id_a	id_b"); (2%nat, RawLine "P3	P4") ]
  ∧ (∀ infile line,
       infile !! 0%nat = Some line → (1 < len line)%nat →
       (0%nat, line) ∈ records_read true infile)
  ∧ (∀ infile line, (1%nat, line) ∉ records_read true infile).
Proof.
  split; [vm_decide|]. split.
  - intros infile line H0 Hlen. apply records_read_spec.
    split; [exact H0|]. split; [exact Hlen|]. intros [H _]. discriminate.
  - intros infile line H. apply records_read_spec in H.
    destruct H as (_ & _ & H). apply H. auto.
Qed.

End IngestProps.

(** * The depth of the calls between [remove_interaction] and [remove_node] *)

Module RemovalProps.

Lemma remove_node_fuel_isolated n e net :
  interactions_by_nodes net !! e = Some ∅ →
  remove_node_fuel (S n) e net = remove_node_fuel 1 e net.
Proof.
  intros H. simpl. rewrite H, elements_empty. reflexivity.
Qed.

(** Two levels of calls are all [remove_interaction] needs: more fuel gives
    the same network. *)
Lemma remove_interaction_fuel_enough n k net :
  remove_interaction_fuel (S (S n)) k.1 k.2 net = remove_interaction k net.
Proof.
  unfold remove_interaction.
  change (remove_interaction_fuel (S (S n)) k.1 k.2 net) with
    (let key_ab := (k.1, k.2) in
     let key_ba := (k.2, k.1) in
     let ints := dict_pop key_ba (dict_pop key_ab (interactions net)) in
     let keys : gset (Entity * Entity) := {[ key_ab; key_ba ]} in
     let adj := interactions_by_nodes net in
     let adj := <[k.1 := (adj !!! k.1) ∖ keys]> adj in
     let adj := <[k.2 := (adj !!! k.2) ∖ keys]> adj in
     let net1 := mkNetwork ints (Networks.nodes net) (nodes_by_label net) adj in
     let net2 :=
       if bool_decide (interactions_by_nodes net1 !! k.1 = Some ∅)
       then remove_node_fuel (S n) k.1 net1 else net1 in
     if bool_decide (interactions_by_nodes net2 !! k.2 = Some ∅)
     then remove_node_fuel (S n) k.2 net2 else net2).
  change (remove_interaction_fuel 2 k.1 k.2 net) with
    (let key_ab := (k.1, k.2) in
     let key_ba := (k.2, k.1) in
     let ints := dict_pop key_ba (dict_pop key_ab (interactions net)) in
     let keys : gset (Entity * Entity) := {[ key_ab; key_ba ]} in
     let adj := interactions_by_nodes net in
     let adj := <[k.1 := (adj !!! k.1) ∖ keys]> adj in
     let adj := <[k.2 := (adj !!! k.2) ∖ keys]> adj in
     let net1 := mkNetwork ints (Networks.nodes net) (nodes_by_label net) adj in
     let net2 :=
       if bool_decide (interactions_by_nodes net1 !! k.1 = Some ∅)
       then remove_node_fuel 1 k.1 net1 else net1 in
     if bool_decide (interactions_by_nodes net2 !! k.2 = Some ∅)
     then remove_node_fuel 1 k.2 net2 else net2).
  cbv zeta.
  set (net1 := mkNetwork _ _ _ _).
  destruct (bool_decide (interactions_by_nodes net1 !! k.1 = Some ∅)) eqn:E1.
  - apply bool_decide_eq_true in E1.
    rewrite (remove_node_fuel_isolated n _ _ E1).
    set (net2 := remove_node_fuel 1 k.1 net1).
    destruct (bool_decide (interactions_by_nodes net2 !! k.2 = Some ∅))
      eqn:E2; [|reflexivity].
    apply bool_decide_eq_true in E2.
    apply remove_node_fuel_isolated, E2.
  - destruct (bool_decide (interactions_by_nodes net1 !! k.2 = Some ∅))
      eqn:E2; [|reflexivity].
    apply bool_decide_eq_true in E2.
    apply remove_node_fuel_isolated, E2.
Qed.

End RemovalProps.

(** * Properties of the network operations *)

Module NetworkProps.
Import Examples IngestExamples.

(** C1. [remove_undirected] on a network whose only interaction is the
    directed A -> B: the interaction is removed, and the loop ends with the
    [RuntimeError] of a dictionary changed during iteration.  The test of
    the loop is [is_directed()], not its negation. *)
Theorem remove_undirected_removes_directed :
  dict_get (eA, eB) (interactions net_directed) = Some ia_directed
  ∧ direction ia_directed !!! Directed eA eB ≠ ∅
  ∧ direction ia_directed !!! Undirected = ∅
  ∧ interactions (remove_undirected None net_directed).1 = []
  ∧ (remove_undirected None net_directed).2 = RuntimeError
  ∧ (∀ ia, undirected_to_remove None ia = is_directed ia).
Proof.
  do 5 (split; [vm_decide|]).
  intros ia. unfold undirected_to_remove. apply andb_true_r.
Qed.

(** C4. [remove_htp] with [threshold = 1] and [keep_directed = True] on two
    undirected interactions that cite the same single reference: the
    reference is high-throughput, neither interaction has directed evidence,
    and both are kept, because [is_directed()] is true for them. *)
Theorem remove_htp_keeps_undirected :
  htp_refs 1 net_undirected = {[ "100" ]}
  ∧ ia_get_references ia_undirected = {[ "100" ]}
  ∧ direction ia_undirected !!! a_b ia_undirected = ∅
  ∧ direction ia_undirected !!! b_a ia_undirected = ∅
  ∧ is_directed ia_undirected = true
  ∧ dict_get (eA, eB) (interactions (remove_htp 1 true net_undirected))
    = Some ia_undirected
  ∧ remove_htp 1 true net_undirected = net_undirected
  ∧ interactions (remove_htp 1 false net_undirected) = [].
Proof.
  do 7 (split; [vm_decide|]). vm_decide.
Qed.


Section DictFacts.
Context {K V : Type} `{EqDecision K}.

Lemma dict_get_set_eq (k : K) (v : V) d : dict_get k (dict_set k v d) = Some v.
Proof.
  induction d as [|[k' v'] d IH]; simpl.
  - rewrite decide_True by reflexivity. reflexivity.
  - destruct (decide (k' = k)) as [-> | Hne]; simpl.
    + rewrite decide_True by reflexivity. reflexivity.
    + rewrite decide_False by exact Hne. exact IH.
Qed.

Lemma dict_keys_set (k : K) (v v0 : V) d :
  dict_get k d = Some v0 → dict_keys (dict_set k v d) = dict_keys d.
Proof.
  unfold dict_keys. induction d as [|[k' v'] d IH]; simpl; [discriminate|].
  destruct (decide (k' = k)) as [-> | Hne]; simpl; [reflexivity|].
  intros H. f_equal. apply IH. exact H.
Qed.

End DictFacts.

Section AddInteraction.
Context {Attrs : Type}.
Variable update_attrs : Interaction → Attrs → Interaction.
Variable entity_iadd : Entity → Entity → Entity.
Variable unset_interaction_type : Interaction → string → Interaction.







End AddInteraction.




(** Scenario S6, evaluated: after the ingest of [r3] with [only_directions]
    the slot of A -> B of the stored interaction holds the evidence of
    [r3]. *)
Lemma S6_direction_holds_r3 :
  dict_get (eA, eB)
    (interactions (add_interaction no_attrs keep_entity
                     remove_interaction_type ia_r3 tt true
                     (net_of [ia_undirected])))
  ≫= (fun merged => (direction merged !!! Directed eA eB) !! r3)
  = Some {[ "300" ]}.
Proof. vm_decide. Qed.




End NetworkProps.

(** * Properties of the path search *)

Module PathProps.
Import Examples.

(** A property of the paths each call yields is a property of the
    concatenation of the results. *)
Lemma mapM_join_forall {A B} (f : A → option (list B)) (P : B → Prop)
    (l : list A) (k : list (list B)) :
  (∀ x r, x ∈ l → f x = Some r → ∀ p, p ∈ r → P p) →
  mapM f l = Some k →
  ∀ p, p ∈ mjoin k → P p.
Proof.
  intros Hf Hm p Hp. apply mapM_Some_1 in Hm.
  apply list_elem_of_join in Hp. destruct Hp as (r & Hpr & Hr).
  apply list_elem_of_lookup in Hr. destruct Hr as [i Hi].
  destruct (Forall2_lookup_r _ _ _ _ _ Hm Hi) as (x & Hx & Hfx).
  apply (Hf x r); [|exact Hfx|exact Hpr].
  apply list_elem_of_lookup. eauto.
Qed.

Section FindPathsFacts.
Variable partners : nat → Entity → gset Entity.
Variable loops : bool.
Variables minlen maxlen : nat.

(** With enough fuel the search returns. *)
Lemma find_all_paths_aux_total fuel start end_ path :
  (maxlen ≤ length path + fuel)%nat →
  is_Some (find_all_paths_aux partners loops minlen maxlen fuel start end_
             path).
Proof.
  revert start path. induction fuel as [|fuel IH]; intros start path Hfuel.
  - simpl. destruct (path_complete _ _ _ _ _ _); [eauto|].
    destruct (Nat.leb_spec (length (path ++ [start])) maxlen) as [Hle|Hgt];
      [|eauto].
    rewrite length_app in Hle. simpl in Hle. lia.
  - simpl. destruct (path_complete _ _ _ _ _ _); [eauto|].
    destruct (Nat.leb_spec (length (path ++ [start])) maxlen) as [Hle|Hgt];
      [|eauto].
    apply fmap_is_Some, mapM_is_Some_2, Forall_forall.
    intros node _. apply IH. rewrite length_app. simpl. lia.
Qed.

(** Without loops a path never visits a node twice. *)
Lemma find_all_paths_aux_NoDup fuel start end_ path ps :
  loops = false →
  NoDup (path ++ [start]) →
  find_all_paths_aux partners loops minlen maxlen fuel start end_ path
  = Some ps →
  ∀ p, p ∈ ps → NoDup p.
Proof.
  intros Hloops. rewrite Hloops. clear Hloops. revert start path ps.
  induction fuel as [|fuel IH]; intros start path ps Hnd; simpl.
  - destruct (path_complete _ _ _ _ _ _).
    + intros H p Hp. inversion H; subst.
      apply list_elem_of_singleton in Hp. subst p. exact Hnd.
    + destruct (length (path ++ [start]) <=? maxlen)%nat; [discriminate|].
      intros H p Hp. inversion H; subst. apply elem_of_nil in Hp.
      contradiction.
  - destruct (path_complete _ _ _ _ _ _).
    + intros H p Hp. inversion H; subst.
      apply list_elem_of_singleton in Hp. subst p. exact Hnd.
    + destruct (length (path ++ [start]) <=? maxlen)%nat.
      * intros H.
        apply fmap_Some in H. destruct H as (k & Hk & ->).
        eapply mapM_join_forall; [|exact Hk].
        intros node r Hnode Hr. eapply IH; [|exact Hr].
        apply elem_of_elements in Hnode.
        apply NoDup_app. split; [exact Hnd|]. split; [|apply NoDup_singleton].
        intros x Hx Hx'. apply list_elem_of_singleton in Hx'. subst x.
        set_solver.
      * intros H p Hp. inversion H; subst. apply elem_of_nil in Hp.
        contradiction.
Qed.

End FindPathsFacts.

Lemma head_snoc_nonempty (path : list Entity) x :
  path ≠ [] → head (path ++ [x]) = head path.
Proof. destruct path; [contradiction | reflexivity]. Qed.

(** A path whose first node was not revisited, extended by one node, has
    its first node at the ends only. *)
Lemma snoc_at_ends path start :
  start_not_revisited path → start_only_at_ends (path ++ [start]).
Proof.
  intros Hclean i x Hi Hpos Hlen.
  rewrite length_app in Hlen. simpl in Hlen.
  rewrite lookup_app_l in Hi by lia.
  rewrite head_snoc_nonempty by (intros ->; simpl in Hlen; lia).
  apply (Hclean i x Hi Hpos).
Qed.

(** When loops are searched with [minlen = 1], a path that is not yielded
    does not end in its first node. *)
Lemma snoc_not_revisited maxlen path start end_ :
  start_not_revisited path →
  path_complete true 1 maxlen start end_ (path ++ [start]) = false →
  start_not_revisited (path ++ [start]).
Proof.
  intros Hclean Hinc i x Hi Hpos.
  assert (Hne : path ≠ []).
  { intros ->. destruct i; [lia | discriminate]. }
  apply lookup_snoc_Some in Hi. destruct Hi as [[_ Hi] | [-> ->]].
  - rewrite head_snoc_nonempty by exact Hne. apply (Hclean i x Hi Hpos).
  - unfold path_complete in Hinc. rewrite last_snoc in Hinc.
    apply andb_false_iff in Hinc. destruct Hinc as [Hinc|Hinc].
    + apply Nat.leb_gt in Hinc. rewrite length_app in Hinc.
      destruct path; [contradiction | simpl in Hinc; lia].
    + apply orb_false_iff in Hinc. destruct Hinc as [_ Hinc].
      apply bool_decide_eq_false in Hinc. congruence.
Qed.

Lemma find_all_paths_aux_at_ends partners maxlen fuel start end_ path ps :
  start_not_revisited path →
  find_all_paths_aux partners true 1 maxlen fuel start end_ path = Some ps →
  ∀ p, p ∈ ps → start_only_at_ends p.
Proof.
  revert start path ps.
  induction fuel as [|fuel IH]; intros start path ps Hclean; simpl.
  - destruct (path_complete _ _ _ _ _ _).
    + intros H p Hp. inversion H; subst.
      apply list_elem_of_singleton in Hp. subst p.
      apply snoc_at_ends, Hclean.
    + destruct (length (path ++ [start]) <=? maxlen)%nat; [discriminate|].
      intros H p Hp. inversion H; subst. apply elem_of_nil in Hp.
      contradiction.
  - destruct (path_complete _ _ _ _ _ _) eqn:Hinc.
    + intros H p Hp. inversion H; subst.
      apply list_elem_of_singleton in Hp. subst p.
      apply snoc_at_ends, Hclean.
    + destruct (length (path ++ [start]) <=? maxlen)%nat.
      * intros H. apply fmap_Some in H. destruct H as (k & Hk & ->).
        eapply mapM_join_forall; [|exact Hk].
        intros node r _ Hr. eapply IH; [|exact Hr].
        eapply snoc_not_revisited; eassumption.
      * intros H p Hp. inversion H; subst. apply elem_of_nil in Hp.
        contradiction.
Qed.

(** C7, as amended.  [find_paths] returns; with [loops = False] no returned
    path contains a node more than once; with [loops = True] and
    [minlen <= 1] the first node of a returned path occurs in it only as its
    first and its last element. *)
Theorem find_paths_start_at_ends partners start end_ loops maxlen minlen :
  (loops = true → (minlen ≤ 1)%nat) →
  ∃ paths,
    find_paths partners start end_ loops maxlen minlen = Some paths
    ∧ ∀ p, p ∈ paths →
           (loops = false → NoDup p)
           ∧ (loops = true → start_only_at_ends p).
Proof.
  intros Hmin. unfold find_paths.
  match goal with
  | |- context [mapM ?f ?l] =>
      destruct (mapM f l) as [k|] eqn:Hk
  end.
  - exists (mjoin k). split; [reflexivity|].
    intros p Hp. split; intros Hloops; subst loops.
    + revert p Hp. eapply mapM_join_forall; [|exact Hk].
      intros se r _ Hr. eapply find_all_paths_aux_NoDup; [reflexivity| |exact Hr].
      simpl. apply NoDup_singleton.
    + revert p Hp. eapply mapM_join_forall; [|exact Hk].
      intros se r _ Hr.
      replace (Nat.max 1 minlen) with 1%nat in Hr by (specialize (Hmin eq_refl); lia).
      eapply find_all_paths_aux_at_ends; [|exact Hr].
      intros i x Hi. rewrite lookup_nil in Hi. discriminate.
  - exfalso. apply mapM_None_1, Exists_exists in Hk.
    destruct Hk as (se & _ & Hnone).
    destruct (find_all_paths_aux_total partners loops (Nat.max 1 minlen)
                maxlen maxlen se.1 se.2 []) as [r Hr]; [simpl; lia|].
    rewrite Hr in Hnone. discriminate.
Qed.

Lemma find_paths_start_at_ends_witness :
  ∃ paths,
    find_paths partners_AB [eA] [] true 4 1 = Some paths
    ∧ ∀ p, p ∈ paths →
           (true = false → NoDup p) ∧ (true = true → start_only_at_ends p).
Proof.
  apply (find_paths_start_at_ends partners_AB [eA] [] true 4 1).
  intros _. lia.
Defined.

(** C7, counterexample without the restriction on [minlen]: A and B point
    at each other and loops of length at least 3 are asked for from A.  The
    only path returned is A, B, A, B, A, which has A in the middle. *)
Lemma find_paths_revisits_start :
  find_paths partners_AB [eA] [] true 4 3 = Some [[eA; eB; eA; eB; eA]]
  ∧ ¬ start_only_at_ends [eA; eB; eA; eB; eA].
Proof.
  split; [vm_decide|].
  intros H. apply (H 2%nat eA); [reflexivity | lia | simpl; lia | reflexivity].
Qed.

End PathProps.


(** * Further properties of interactions *)

Module InteractionMoreProps.
Import Examples.

Lemma id_to_entity_Some ia x e : id_to_entity ia x = Some e → e = x.
Proof.
  unfold id_to_entity.
  destruct (decide (a ia = x)); [congruence|].
  destruct (decide (b ia = x)); [congruence | discriminate].
Qed.

Lemma direction_key_valid ia d :
  d = a_b ia ∨ d = b_a ia ∨ d = Undirected → direction_key ia d = Some d.
Proof.
  intros [-> | [-> | ->]]; unfold direction_key, id_to_entity, a_b, b_a;
    [| |reflexivity];
    repeat (destruct (decide _)); simpl;
    repeat case_bool_decide; simpl; congruence.
Qed.

Lemma direction_key_mismatch ia x y :
  Directed x y ≠ a_b ia → Directed x y ≠ b_a ia →
  direction_key ia (Directed x y) = None.
Proof.
  intros Hab Hba. simpl.
  destruct (id_to_entity ia x) as [x'|] eqn:Ex; [|reflexivity].
  destruct (id_to_entity ia y) as [y'|] eqn:Ey; [|reflexivity].
  apply id_to_entity_Some in Ex, Ey. subst x' y'.
  rewrite bool_decide_eq_false_2 by exact Hab.
  rewrite bool_decide_eq_false_2 by exact Hba. reflexivity.
Qed.

(** X1. Evidence for a direction between other entities, and a merge with
    an interaction of other endpoints, leave the interaction as it is:
    [add_evidence] returns after the log message, [merge] accepts the
    endpoints of the other interaction in either order and nothing else,
    [+=] accepts an equal key only. *)
Theorem mismatch_is_no_op ia ev x y eff other :
  Directed x y ≠ a_b ia → Directed x y ≠ b_a ia →
  add_evidence ia ev (Directed x y) eff = ia
  ∧ (Interactions.nodes other ≠ (a ia, b ia) →
     Interactions.nodes other ≠ (b ia, a ia) → merge ia other = ia)
  ∧ (key other ≠ key ia → iadd ia other = ia).
Proof.
  intros Hab Hba. split; [|split].
  - unfold add_evidence. rewrite (direction_key_mismatch _ _ _ Hab Hba).
    reflexivity.
  - intros H1 H2. unfold merge, _check_nodes_key, a_b, b_a.
    rewrite !bool_decide_eq_false_2; [reflexivity| |].
    + intros E. apply H2. destruct (Interactions.nodes other).
      simpl in E. congruence.
    + intros E. apply H1. destruct (Interactions.nodes other).
      simpl in E. congruence.
  - intros H. unfold iadd. rewrite bool_decide_eq_true_2; [reflexivity|].
    congruence.
Qed.

Lemma mismatch_is_no_op_witness :
  add_evidence ia_directed (Evidence r2 {[ "7" ]}) (Directed eA eC) (EffInt 1)
  = ia_directed.
Proof.
  refine (proj1 (mismatch_is_no_op ia_directed (Evidence r2 {[ "7" ]}) eA eC
                   (EffInt 1) ia_directed _ _)); vm_decide.
Defined.

Lemma lookup_total_slot_add k x
    (d : gmap DirKey (gmap NetworkResource (gset string))) j :
  is_Some (d !! j) →
  slot_add k x d !!! j
  = if decide (k = j) then evs_add (d !!! j) x else d !!! j.
Proof.
  intros [e He]. rewrite !lookup_total_alt, InvariantProps.lookup_slot_add, He.
  reflexivity.
Qed.

Lemma evs_le_slot_add k x
    (d : gmap DirKey (gmap NetworkResource (gset string))) j :
  evs_le (d !!! j) (slot_add k x d !!! j).
Proof.
  rewrite !lookup_total_alt, InvariantProps.lookup_slot_add.
  destruct (d !! j) as [e|]; simpl; [|apply evs_le_empty].
  destruct (decide (k = j)); [apply evs_le_add_l | apply evs_le_refl].
Qed.

(** X2. After [add_evidence] with one of the three keys of the
    interaction, the evidence is in [evidences] and in the slot of that
    direction, and nothing that was there is lost.  A sign is recorded only
    for a directed key and only for the effects 1, ['positive'],
    ['stimulation'] and -1, ['negative'], ['inhibition']: with
    ['undirected'] or any other effect both sign dictionaries stay as they
    are. *)
Theorem add_evidence_lands ia ev d eff :
  d = a_b ia ∨ d = b_a ia ∨ d = Undirected →
  is_Some (direction ia !! d) →
  let ia' := add_evidence ia ev d eff in
  evs_le ev (evidences ia')
  ∧ evs_le ev (direction ia' !!! d)
  ∧ evs_le (evidences ia) (evidences ia')
  ∧ (∀ k, evs_le (direction ia !!! k) (direction ia' !!! k))
  ∧ (d ≠ Undirected → effect_is_positive eff = true →
     is_Some (positive ia !! d) →
     evs_le ev (positive ia' !!! d) ∧ negative ia' = negative ia)
  ∧ (d ≠ Undirected → effect_is_positive eff = false →
     effect_is_negative eff = true → is_Some (negative ia !! d) →
     evs_le ev (negative ia' !!! d) ∧ positive ia' = positive ia)
  ∧ (d = Undirected
     ∨ (effect_is_positive eff = false ∧ effect_is_negative eff = false) →
     positive ia' = positive ia ∧ negative ia' = negative ia).
Proof.
  intros Hd Hsome ia'. subst ia'. unfold add_evidence.
  rewrite (direction_key_valid _ _ Hd).
  assert (Hev : evs_le ev (evs_add (evidences ia) ev)) by apply evs_le_add_r.
  assert (Hdir : evs_le ev (slot_add d ev (direction ia) !!! d)).
  { rewrite lookup_total_slot_add by exact Hsome.
    rewrite decide_True by reflexivity. apply evs_le_add_r. }
  assert (Hkeep : evs_le (evidences ia) (evs_add (evidences ia) ev))
    by apply evs_le_add_l.
  destruct (bool_decide (d ≠ Undirected)) eqn:Eu;
    [apply bool_decide_eq_true in Eu
    |apply bool_decide_eq_false in Eu; apply dec_stable in Eu];
    [destruct (effect_is_positive eff) eqn:Ep;
       [|destruct (effect_is_negative eff) eqn:En]|];
    simpl;
    (split; [exact Hev|]); (split; [exact Hdir|]);
    (split; [exact Hkeep|]); (split; [intros k; apply evs_le_slot_add|]);
    (split; [|split]); try (intros; congruence); try (intros; tauto).
  - intros _ _ Hp. split; [|reflexivity].
    rewrite lookup_total_slot_add by exact Hp.
    rewrite decide_True by reflexivity. apply evs_le_add_r.
  - intros [?|[? ?]]; congruence.
  - intros _ _ _ Hn. split; [|reflexivity].
    rewrite lookup_total_slot_add by exact Hn.
    rewrite decide_True by reflexivity. apply evs_le_add_r.
  - intros [?|[? ?]]; congruence.
Qed.

Lemma add_evidence_lands_witness :
  evs_le (Evidence r2 {[ "7" ]})
    (direction (add_evidence ia_directed (Evidence r2 {[ "7" ]})
                  (Directed eA eB) (EffStr "inhibition"))
     !!! Directed eA eB).
Proof.
  refine (proj1 (proj2 (add_evidence_lands ia_directed
                          (Evidence r2 {[ "7" ]}) (Directed eA eB)
                          (EffStr "inhibition") _ _))).
  - left. vm_decide.
  - apply (bool_decide_unpack _). vm_compute. exact I.
Defined.

Lemma evs_add_diag (x : gmap NetworkResource (gset string)) : evs_add x x = x.
Proof.
  apply map_eq; intros r. rewrite evs_add_lookup.
  destruct (x !! r); [f_equal; set_solver | reflexivity].
Qed.

Lemma merge_keys_absorb ks
    (d o : gmap DirKey (gmap NetworkResource (gset string))) :
  merge_keys ks (merge_keys ks d o) o = merge_keys ks d o.
Proof.
  apply map_eq; intros j. rewrite !InvariantProps.lookup_merge_keys.
  destruct (d !! j) as [e|]; simpl; [|reflexivity].
  destruct (decide (j ∈ ks)); [|reflexivity].
  rewrite evs_add_absorb. reflexivity.
Qed.

Lemma merge_keys_diag ks
    (d : gmap DirKey (gmap NetworkResource (gset string))) :
  merge_keys ks d d = d.
Proof.
  apply map_eq; intros j. rewrite InvariantProps.lookup_merge_keys.
  rewrite lookup_total_alt.
  destruct (d !! j) as [e|]; simpl; [|reflexivity].
  destruct (decide (j ∈ ks)); [|reflexivity].
  rewrite evs_add_diag. reflexivity.
Qed.

Lemma merge_slots_absorb
    (d o : gmap DirKey (gmap NetworkResource (gset string))) :
  merge_slots (merge_slots d o) o = merge_slots d o.
Proof.
  apply map_eq; intros j. rewrite !InvariantProps.lookup_merge_slots.
  destruct (d !! j) as [e|]; simpl; [|reflexivity].
  rewrite evs_add_absorb. reflexivity.
Qed.

Lemma merge_slots_diag
    (d : gmap DirKey (gmap NetworkResource (gset string))) :
  merge_slots d d = d.
Proof.
  apply map_eq; intros j. rewrite InvariantProps.lookup_merge_slots.
  rewrite lookup_total_alt.
  destruct (d !! j) as [e|]; simpl; [|reflexivity].
  rewrite evs_add_diag. reflexivity.
Qed.

Lemma dom_merge_slots
    (d o : gmap DirKey (gmap NetworkResource (gset string))) :
  dom (merge_slots d o) = dom d.
Proof.
  apply set_eq. intros j.
  rewrite !elem_of_dom, InvariantProps.lookup_merge_slots, fmap_is_Some.
  reflexivity.
Qed.

Lemma merge_keys_is_Some ks
    (d o : gmap DirKey (gmap NetworkResource (gset string))) j :
  is_Some (merge_keys ks d o !! j) ↔ is_Some (d !! j).
Proof. rewrite InvariantProps.lookup_merge_keys. apply fmap_is_Some. Qed.

(** X3. Merging is idempotent where it returns, that is where the
    dictionary keys the source reads are there ([merge_returns],
    [iadd_returns]; [KeyError] otherwise): the same interaction can then
    be merged a second time, which changes nothing, and an interaction
    merged with itself is itself, for [merge] and for [+=]. *)
Theorem merge_idempotent x y :
  (merge_returns x y →
     merge_returns (merge x y) y ∧ merge (merge x y) y = merge x y)
  ∧ (merge_returns x x → merge x x = x)
  ∧ (iadd_returns x y →
     iadd_returns (iadd x y) y ∧ iadd (iadd x y) y = iadd x y)
  ∧ iadd_returns x x
  ∧ iadd x x = x.
Proof.
  split; [|split; [|split; [|split]]].
  - intros Hret. split.
    + unfold merge.
      destruct (negb (_check_nodes_key x (Interactions.nodes y))) eqn:E;
        [exact Hret|].
      apply negb_false_iff in E. destruct (Hret E) as [Hd Hs].
      intros _. unfold a_b, b_a in *.
      cbn [a b direction positive negative]. split.
      * intros k Hk. rewrite merge_keys_is_Some. apply Hd, Hk.
      * intros k Hk. rewrite !merge_keys_is_Some. apply Hs, Hk.
    + unfold merge at 2 3.
      destruct (negb (_check_nodes_key x (Interactions.nodes y))) eqn:E.
      * unfold merge. rewrite E. reflexivity.
      * unfold merge, _check_nodes_key, a_b, b_a in *.
        cbn [a b evidences direction positive negative]. rewrite E.
        rewrite evs_add_absorb, !merge_keys_absorb. reflexivity.
  - intros _. unfold merge, _check_nodes_key, Interactions.nodes, a_b, b_a.
    cbn [fst snd]. rewrite bool_decide_eq_true_2 by reflexivity.
    cbn [orb negb]. rewrite evs_add_diag, !merge_keys_diag.
    destruct x; reflexivity.
  - intros Hret. split.
    + unfold iadd. destruct (bool_decide (key x ≠ key y)) eqn:E; [exact Hret|].
      apply bool_decide_eq_false in E. apply dec_stable in E.
      destruct (Hret E) as (Hd & Hp & Hn). intros _.
      unfold _merge_evidences. cbn [direction positive negative].
      rewrite !dom_merge_slots. auto.
    + unfold iadd at 2 3.
      destruct (bool_decide (key x ≠ key y)) eqn:E.
      * unfold iadd. rewrite E. reflexivity.
      * unfold iadd, _merge_evidences, key in *.
        cbn [a b evidences direction positive negative]. rewrite E.
        rewrite evs_add_absorb, !merge_slots_absorb. reflexivity.
  - intros _. auto.
  - unfold iadd. rewrite bool_decide_eq_false_2 by (intros H; apply H; reflexivity).
    unfold _merge_evidences. rewrite evs_add_diag, !merge_slots_diag.
    destruct x; reflexivity.
Qed.

Lemma merge_idempotent_witness :
  iadd (iadd ia_undirected ia_r3) ia_r3 = iadd ia_undirected ia_r3.
Proof.
  refine (proj2 (proj1 (proj2 (proj2 (merge_idempotent ia_undirected ia_r3)))
                   _)).
  intros _. split; [vm_decide|]. split; vm_decide.
Defined.

(** X4. For interactions with the same key, whose dictionaries have the
    keys the constructor gives them, [merge] and [+=] give the same
    interaction. *)
Theorem merge_agrees_with_iadd x y :
  standard_keys x → key y = key x → merge x y = iadd x y.
Proof.
  intros (Hd & Hp & Hn) Hkey. unfold merge, iadd, _merge_evidences.
  assert (Hnodes : Interactions.nodes y = (a x, b x)) by exact Hkey.
  unfold _check_nodes_key, a_b. rewrite Hnodes. cbn [fst snd].
  rewrite bool_decide_eq_true_2 by reflexivity. cbn [orb negb].
  rewrite bool_decide_eq_false_2 by (intros H; apply H; symmetry; exact Hkey).
  assert (Hslots : ∀ ks (d o : gmap DirKey (gmap NetworkResource (gset string))),
            dom d = list_to_set ks → merge_keys ks d o = merge_slots d o).
  { intros ks d o Hdom. apply map_eq; intros j.
    rewrite InvariantProps.lookup_merge_keys, InvariantProps.lookup_merge_slots.
    destruct (d !! j) as [e|] eqn:E; simpl; [|reflexivity].
    rewrite decide_True; [reflexivity|].
    assert (j ∈ dom d) by (apply elem_of_dom; eauto).
    rewrite Hdom in H. set_solver. }
  f_equal; apply Hslots.
  - rewrite Hd. unfold a_b. set_solver.
  - rewrite Hp. unfold a_b. set_solver.
  - rewrite Hn. unfold a_b. set_solver.
Qed.

Lemma merge_agrees_with_iadd_witness :
  merge ia_r3 ia_negative = iadd ia_r3 ia_negative.
Proof.
  apply (merge_agrees_with_iadd ia_r3 ia_negative).
  - split; [vm_decide|]. split; vm_decide.
  - vm_decide.
Defined.

End InteractionMoreProps.

(** * Queries on interactions: signs, fallbacks and the consensus rows *)

Module InteractionQueryProps.
Import Examples EvidenceProps InteractionProps InvariantProps InteractionMoreProps.

Lemma is_Some_slot_add_inv k x
    (d : gmap DirKey (gmap NetworkResource (gset string))) j :
  is_Some (slot_add k x d !! j) → is_Some (d !! j).
Proof. rewrite lookup_slot_add, fmap_is_Some. auto. Qed.

Lemma is_Some_merge_keys_inv ks
    (d o : gmap DirKey (gmap NetworkResource (gset string))) j :
  is_Some (merge_keys ks d o !! j) → is_Some (d !! j).
Proof. rewrite lookup_merge_keys, fmap_is_Some. auto. Qed.

Lemma is_Some_merge_slots_inv
    (d o : gmap DirKey (gmap NetworkResource (gset string))) j :
  is_Some (merge_slots d o !! j) → is_Some (d !! j).
Proof. rewrite lookup_merge_slots, fmap_is_Some. auto. Qed.

Lemma is_Some_unset_slot_inv resource itype v k
    (d : gmap DirKey (gmap NetworkResource (gset string))) j :
  is_Some (unset_slot resource itype v k d !! j) → is_Some (d !! j) ∨ j = k.
Proof.
  unfold unset_slot. destruct resource as [r|].
  - rewrite lookup_alter. destruct (decide (k = j)); [auto|].
    rewrite ?fmap_is_Some; auto.
  - destruct (decide (k = j)) as [-> | Hne]; [auto|].
    rewrite lookup_insert_ne by exact Hne. auto.
Qed.

Lemma known_keys_reachable ia : reachable ia → known_keys ia.
Proof.
  induction 1 as [x y|ia ev d eff _ IH|ia other _ IH _ _|ia other _ IH _ _
                 |ia d only_sign resource itype v _ IH
                 |ia d sign resource itype v _ IH].
  - intros k. unfold new_interaction, a_b, b_a; simpl.
    rewrite !lookup_insert_is_Some, !lookup_empty.
    intros H.
    assert (∀ A, ¬ @is_Some A None) by (intros A [? ?]; discriminate).
    naive_solver.
  - intros k. unfold add_evidence.
    destruct (direction_key ia d) as [d'|]; [|apply IH].
    repeat (match goal with
            | |- context [if ?c then _ else _] => destruct c
            end); unfold a_b, b_a; cbn [direction positive negative a b]; intros H; apply IH;
      destruct H as [H|[H|H]]; eauto using is_Some_slot_add_inv.
  - intros k. unfold merge.
    destruct (negb _); [apply IH|].
    unfold a_b, b_a; cbn [direction positive negative a b]. intros H; apply IH.
    destruct H as [H|[H|H]]; eauto using is_Some_merge_keys_inv.
  - intros k. unfold iadd.
    destruct (bool_decide _); [apply IH|].
    unfold _merge_evidences, a_b, b_a; cbn [direction positive negative a b]. intros H; apply IH.
    destruct H as [H|[H|H]]; eauto using is_Some_merge_slots_inv.
  - intros k. unfold unset_direction.
    destruct (direction_key ia d) as [d'|] eqn:Ed; [|apply IH].
    pose proof (direction_key_cases _ _ _ Ed) as Hd'.
    assert (Hstep : ∀ m : gmap DirKey (gmap NetworkResource (gset string)),
              is_Some (unset_slot resource itype v d' m !! k) →
              is_Some (m !! k) ∨ k = a_b ia ∨ k = b_a ia ∨ k = Undirected).
    { intros m Hm. apply is_Some_unset_slot_inv in Hm as [Hm | ->]; auto. }
    destruct only_sign as [s|].
    + destruct (bool_decide (s = "")).
      * unfold a_b, b_a in *; cbn [direction positive negative a b]. intros [H|[H|H]];
          apply Hstep in H as [H|H]; auto; apply IH; auto.
      * destruct (_effect_synonyms (Some s)); [|apply IH].
        destruct (bool_decide _); unfold a_b, b_a in *; cbn [direction positive negative a b];
          intros [H|[H|H]]; try (apply IH; auto; fail);
          apply Hstep in H as [H|H]; auto; apply IH; auto.
    + unfold a_b, b_a in *; cbn [direction positive negative a b]. intros [H|[H|H]];
        apply Hstep in H as [H|H]; auto; apply IH; auto.
  - intros k. unfold unset_sign, unset_direction.
    destruct (direction_key ia d) as [d'|] eqn:Ed; [|apply IH].
    pose proof (direction_key_cases _ _ _ Ed) as Hd'.
    assert (Hstep : ∀ m : gmap DirKey (gmap NetworkResource (gset string)),
              is_Some (unset_slot resource itype v d' m !! k) →
              is_Some (m !! k) ∨ k = a_b ia ∨ k = b_a ia ∨ k = Undirected).
    { intros m Hm. apply is_Some_unset_slot_inv in Hm as [Hm | ->]; auto. }
    destruct (bool_decide (sign = "")).
    + unfold a_b, b_a in *; cbn [direction positive negative a b]. intros [H|[H|H]];
        apply Hstep in H as [H|H]; auto; apply IH; auto.
    + destruct (_effect_synonyms (Some sign)); [|apply IH].
      destruct (bool_decide _); unfold a_b, b_a in *; cbn [direction positive negative a b];
        intros [H|[H|H]]; try (apply IH; auto; fail);
        apply Hstep in H as [H|H]; auto; apply IH; auto.
Qed.

Lemma _is_effect_true sign dir :
  _is_effect sign dir = true ↔
  ∃ d e, sign !! d = Some e ∧ (dir = None ∨ dir = Some d) ∧ e ≠ ∅.
Proof.
  unfold _is_effect. rewrite bool_decide_eq_true, map_Exists_lookup.
  split; intros (d & e & H1 & H2).
  - destruct H2 as [H2 H3]. apply evs_bool_true in H3. eauto.
  - destruct H2 as [H2 H3]. exists d, e. rewrite evs_bool_true. auto.
Qed.

Lemma evs_le_nonempty x y : evs_le x y → x ≠ ∅ → y ≠ ∅.
Proof.
  intros Hle Hx Hy. subst y.
  apply map_choose in Hx as (r & refs & Hr).
  destruct (Hle _ _ Hr) as (refs' & Hr' & _).
  rewrite lookup_empty in Hr'. discriminate.
Qed.

(** X5. A sign is never without its direction: when a reachable
    interaction has a sign, for a given direction or for any, it counts
    as directed, and [get_direction] of the given direction is [True]. *)
Theorem sign_implies_direction ia dir :
  reachable ia →
  has_sign ia dir = true →
  is_directed ia = true
  ∧ (∀ d, dir = Some d → get_direction ia d = Some (Some true)).
Proof.
  intros Hreach Hsign.
  destruct (I1_reachable _ Hreach) as [[Hpos Hneg] _].
  pose proof (known_keys_reachable _ Hreach) as Hkeys.
  assert (Hsl : ∃ d e e', (positive ia !! d = Some e ∨ negative ia !! d = Some e)
                          ∧ (dir = None ∨ dir = Some d)
                          ∧ direction ia !! d = Some e' ∧ e' ≠ ∅).
  { unfold has_sign, is_stimulation, is_inhibition in Hsign.
    apply orb_true_iff in Hsign as [H|H];
      apply _is_effect_true in H as (d & e & Hd & Hdir & Hne).
    - destruct (Hpos _ _ Hd) as (e' & He' & Hle & _).
      exists d, e, e'. repeat split; auto.
      exact (evs_le_nonempty _ _ Hle Hne).
    - destruct (Hneg _ _ Hd) as (e' & He' & Hle & _).
      exists d, e, e'. repeat split; auto.
      exact (evs_le_nonempty _ _ Hle Hne). }
  destruct Hsl as (d & e & e' & Hs & Hdir & He' & Hne).
  split.
  - apply is_directed_true. eauto.
  - intros d0 ->. destruct Hdir as [Hdir|Hdir]; [discriminate|].
    inversion Hdir; subst d0. unfold get_direction.
    rewrite (direction_key_valid ia d).
    + rewrite He'. do 2 f_equal. apply evs_bool_true, Hne.
    + apply Hkeys. left. eauto.
Qed.

Lemma sign_implies_direction_witness :
  get_direction ia_negative (Directed eA eB) = Some (Some true).
Proof.
  refine (proj2 (sign_implies_direction ia_negative
                   (Some (Directed eA eB)) _ _) _ eq_refl).
  - apply reach_add_evidence, reach_init.
  - vm_decide.
Defined.

(** X6. For a reachable interaction, [get_evidences] with a direction
    that is none of its keys -- a pair of other nodes -- does not give an
    empty container: it gives what it gives without a direction, all the
    evidences or all those of the sign asked for. *)
Theorem get_evidences_foreign_direction ia x y effect f :
  reachable ia →
  Directed x y ≠ a_b ia → Directed x y ≠ b_a ia →
  get_evidences ia (DirIs (Directed x y)) effect f
  = get_evidences ia DirAll effect f.
Proof.
  intros Hreach Hab Hba.
  pose proof (known_keys_reachable _ Hreach (Directed x y)) as Hk.
  assert (Hd : direction ia !! Directed x y = None).
  { destruct (direction ia !! Directed x y) eqn:E; [|reflexivity].
    exfalso. destruct Hk as [?|[?|?]]; eauto; discriminate. }
  assert (Hp : positive ia !! Directed x y = None).
  { destruct (positive ia !! Directed x y) eqn:E; [|reflexivity].
    exfalso. destruct Hk as [?|[?|?]]; eauto; discriminate. }
  unfold get_evidences, select_evidences. rewrite Hd, Hp. reflexivity.
Qed.

Lemma get_evidences_foreign_direction_witness :
  get_evidences ia_directed (DirIs (Directed eA eC)) EffAll no_filter
  = get_evidences ia_directed DirAll EffAll no_filter.
Proof.
  apply (get_evidences_foreign_direction ia_directed eA eC EffAll no_filter).
  - apply reach_add_evidence, reach_init.
  - vm_decide.
  - vm_decide.
Defined.

(** X7. The flags [majority_sign] stores for a directed key, by the counts
    of the positive and the negative slot: positive when there is positive
    evidence and no more negative than positive; both on a tie of non-zero
    counts; none when both counts are zero; never both unset otherwise. *)
Theorem majority_sign_by_counts ia oit op br brp k :
  k = a_b ia ∨ k = b_a ia →
  let n_pos := count_by br brp (count_args oit op) (positive ia !!! k) in
  let n_neg := count_by br brp (count_args oit op) (negative ia !!! k) in
  ∃ p n,
    majority_sign ia oit op br brp !! k = Some (Some (p, n))
    ∧ (p = true ↔ (0 < n_pos ∧ n_neg ≤ n_pos)%nat)
    ∧ (n = true ↔ (0 < n_neg ∧ n_pos ≤ n_neg)%nat)
    ∧ (p = true ∧ n = true ↔ n_pos = n_neg ∧ n_pos ≠ 0%nat)
    ∧ (p = false ∧ n = false ↔ n_pos = 0%nat ∧ n_neg = 0%nat).
Proof.
  intros Hk n_pos n_neg.
  exists ((0 <? n_pos)%nat && (n_neg <=? n_pos)%nat),
         ((0 <? n_neg)%nat && (n_pos <=? n_neg)%nat).
  split; [rewrite (majority_sign_lookup _ _ _ _ _ _ Hk); reflexivity|].
  rewrite !andb_true_iff, !andb_false_iff, !Nat.ltb_lt, !Nat.leb_le,
    !Nat.ltb_ge, !Nat.leb_gt.
  repeat split; try tauto; lia.
Qed.

Lemma majority_sign_by_counts_witness :
  ∃ p n,
    majority_sign ia_negative None false false false !! Directed eA eB
    = Some (Some (p, n)).
Proof.
  destruct (majority_sign_by_counts ia_negative None false false false
              (Directed eA eB)) as (p & n & H & _).
  - left. vm_decide.
  - exists p, n. exact H.
Defined.

Lemma consensus_rows_elem ia oit op br brp k row :
  k = a_b ia ∨ k = b_a ia →
  row ∈ consensus_rows ia (majority_sign ia oit op br brp) k ↔
  (row = (dir_src ia k, dir_tgt ia k, "directed", "positive")
   ∧ (sign_flags ia k oit op br brp).1 = true)
  ∨ (row = (dir_src ia k, dir_tgt ia k, "directed", "negative")
     ∧ (sign_flags ia k oit op br brp).2 = true).
Proof.
  intros Hk. unfold consensus_rows.
  rewrite lookup_total_alt, (majority_sign_lookup _ _ _ _ _ _ Hk).
  generalize (sign_flags ia k oit op br brp).
  intros [[] []]; cbn [fst snd from_option app]; set_unfold;
    intuition (try discriminate; auto).
Qed.

(** X8. The directed rows of [consensus]: a row from [s] to [t] with a
    sign is there exactly when [(s, t)] is a direction of the interaction,
    the majority direction is this one or a tie, and [majority_sign] has
    the flag of this sign set for it.  The rows are at most four, and the
    undirected row is never with another. *)
Theorem consensus_directed_rows ia oit op br brp :
  (∀ s t sign,
     (s, t, "directed", sign) ∈ consensus ia oit op br brp ↔
     (Directed s t = a_b ia ∨ Directed s t = b_a ia)
     ∧ (majority_dir ia oit op br brp = MajNone
        ∨ majority_dir ia oit op br brp = MajDir (Directed s t))
     ∧ ((sign = "positive"
         ∧ (sign_flags ia (Directed s t) oit op br brp).1 = true)
        ∨ (sign = "negative"
           ∧ (sign_flags ia (Directed s t) oit op br brp).2 = true)))
  ∧ (length (consensus ia oit op br brp) ≤ 4)%nat
  ∧ (∀ row, row ∈ consensus ia oit op br brp → row.1.2 = "undirected" →
       consensus ia oit op br brp = [(a ia, b ia, "undirected", "unknown")]).
Proof.
  assert (Hlen : ∀ k, (length (consensus_rows ia
                                 (majority_sign ia oit op br brp) k) ≤ 2)%nat
                      ∨ ¬ (k = a_b ia ∨ k = b_a ia)).
  { intros k. destruct (decide (k = a_b ia ∨ k = b_a ia)) as [Hk|Hk]; [|auto].
    left. unfold consensus_rows.
    rewrite lookup_total_alt, (majority_sign_lookup _ _ _ _ _ _ Hk).
    generalize (sign_flags ia k oit op br brp).
    intros [[] []]; simpl; lia. }
  split; [|split].
  - intros s t sign. unfold consensus.
    destruct (majority_dir ia oit op br brp) as [| |k] eqn:E.
    + rewrite list_elem_of_singleton. split.
      * intros H; inversion H.
      * intros (_ & [H|H] & _); discriminate.
    + cbn [flat_map]. rewrite app_nil_r, elem_of_app.
      rewrite !consensus_rows_elem by auto.
      unfold a_b, b_a, dir_src, dir_tgt. split.
      * intros [[[H Hf]|[H Hf]]|[[H Hf]|[H Hf]]]; inversion H; subst;
          (split; [auto|]); (split; [auto|]); auto.
      * intros (Hst & _ & Hsign).
        destruct Hst as [Hst|Hst]; inversion Hst; subst;
          destruct Hsign as [[-> Hf]|[-> Hf]]; auto.
    + pose proof (majority_dir_key _ _ _ _ _ _ E) as Hk.
      cbn [flat_map]. rewrite app_nil_r.
      rewrite consensus_rows_elem by exact Hk.
      split.
      * intros [[H Hf]|[H Hf]]; destruct Hk as [-> | ->];
          unfold a_b, b_a, dir_src, dir_tgt in *; inversion H; subst;
          (split; [auto|]); (split; [auto|]); auto.
      * intros (Hst & [Hm|Hm] & Hsign); [discriminate|].
        inversion Hm; subst k. unfold dir_src, dir_tgt.
        destruct Hsign as [[-> Hf]|[-> Hf]]; auto.
  - unfold consensus.
    destruct (majority_dir ia oit op br brp) as [| |k] eqn:E.
    + simpl. lia.
    + cbn [flat_map]. rewrite app_nil_r, length_app.
      destruct (Hlen (a_b ia)) as [H1|H1]; [|exfalso; auto].
      destruct (Hlen (b_a ia)) as [H2|H2]; [|exfalso; auto]. lia.
    + cbn [flat_map]. rewrite app_nil_r.
      destruct (Hlen k) as [H1|H1]; [lia|].
      exfalso. apply H1. exact (majority_dir_key _ _ _ _ _ _ E).
  - intros row. unfold consensus.
    destruct (majority_dir ia oit op br brp) as [| |k] eqn:E.
    + reflexivity.
    + cbn [flat_map]. rewrite app_nil_r, elem_of_app.
      rewrite !consensus_rows_elem by auto.
      intros [[[-> _]|[-> _]]|[[-> _]|[-> _]]]; discriminate.
    + cbn [flat_map]. rewrite app_nil_r.
      rewrite consensus_rows_elem by exact (majority_dir_key _ _ _ _ _ _ E).
      intros [[-> _]|[-> _]]; discriminate.
Qed.

End InteractionQueryProps.

(** * Networks: additions, lookups and removals *)

Module NetworkMoreProps.
Import Examples EvidenceProps RemovalProps NetworkProps.

Section DictMore.
Context {K V : Type} `{EqDecision K}.

Lemma dict_get_set_ne (k k' : K) (v : V) d :
  k ≠ k' → dict_get k' (dict_set k v d) = dict_get k' d.
Proof.
  intros Hne. induction d as [|[k0 v0] d IH]; simpl.
  - rewrite decide_False by exact Hne. reflexivity.
  - destruct (decide (k0 = k)) as [-> | Hk]; simpl.
    + rewrite !decide_False by exact Hne. reflexivity.
    + destruct (decide (k0 = k')); [reflexivity | exact IH].
Qed.

Lemma dict_get_None (k : K) (d : list (K * V)) :
  dict_get k d = None ↔ k ∉ dict_keys d.
Proof.
  unfold dict_keys. induction d as [|[k0 v0] d IH]; simpl.
  - split; [intros _; apply not_elem_of_nil | reflexivity].
  - rewrite not_elem_of_cons. destruct (decide (k0 = k)) as [-> | Hk].
    + split; [discriminate | intros [? _]; congruence].
    + rewrite IH. split; [intros ?; split; [congruence | assumption]
                         | intros [_ ?]; assumption].
Qed.

Lemma dict_get_Some_elem (k : K) (v : V) d :
  dict_get k d = Some v → (k, v) ∈ d.
Proof.
  induction d as [|[k0 v0] d IH]; simpl; [discriminate|].
  destruct (decide (k0 = k)) as [-> | Hk].
  - intros H; inversion H; subst. apply list_elem_of_here.
  - intros H. apply list_elem_of_further, IH, H.
Qed.

Lemma dict_get_elem (k : K) (v : V) d :
  NoDup (dict_keys d) → (k, v) ∈ d → dict_get k d = Some v.
Proof.
  unfold dict_keys. induction d as [|[k0 v0] d IH]; simpl.
  - intros _ H. apply not_elem_of_nil in H. contradiction.
  - rewrite NoDup_cons. intros [Hnot Hnd] Hin.
    apply elem_of_cons in Hin as [Heq | Hin].
    + inversion Heq; subst. rewrite decide_True by reflexivity. reflexivity.
    + destruct (decide (k0 = k)) as [-> | Hk]; [|auto].
      exfalso. apply Hnot. apply list_elem_of_fmap. exists (k, v). auto.
Qed.

Lemma dict_keys_set_new (k : K) (v : V) d :
  dict_get k d = None → dict_keys (dict_set k v d) = dict_keys d ++ [k].
Proof.
  unfold dict_keys. induction d as [|[k0 v0] d IH]; simpl; [reflexivity|].
  destruct (decide (k0 = k)) as [-> | Hk]; [discriminate|].
  intros H. simpl. f_equal. apply IH, H.
Qed.

Lemma dict_keys_pop (k : K) (d : list (K * V)) :
  dict_keys (dict_pop k d) ⊆ dict_keys d.
Proof.
  unfold dict_keys. induction d as [|[k0 v0] d IH]; simpl; [reflexivity|].
  destruct (decide (k0 = k)) as [-> | Hk]; simpl.
  - intros x Hx. apply list_elem_of_further, Hx.
  - intros x Hx. apply elem_of_cons in Hx as [-> | Hx].
    + apply list_elem_of_here.
    + apply list_elem_of_further, IH, Hx.
Qed.

Lemma dict_pop_NoDup (k : K) (d : list (K * V)) :
  NoDup (dict_keys d) → NoDup (dict_keys (dict_pop k d)).
Proof.
  unfold dict_keys. induction d as [|[k0 v0] d IH]; simpl; [auto|].
  rewrite NoDup_cons. intros [Hnot Hnd].
  destruct (decide (k0 = k)) as [-> | Hk]; simpl; [exact Hnd|].
  apply NoDup_cons. split; [|auto].
  intros Hin. apply Hnot. exact (dict_keys_pop k d _ Hin).
Qed.

Lemma dict_set_NoDup (k : K) (v : V) (d : list (K * V)) :
  NoDup (dict_keys d) → NoDup (dict_keys (dict_set k v d)).
Proof.
  intros Hnd. destruct (dict_get k d) as [v0|] eqn:E.
  - rewrite (dict_keys_set _ _ _ _ E). exact Hnd.
  - rewrite (dict_keys_set_new _ _ _ E). apply NoDup_app.
    split; [exact Hnd|]. split; [|apply NoDup_singleton].
    intros x Hx Hx'. apply list_elem_of_singleton in Hx'. subst x.
    apply dict_get_None in E. contradiction.
Qed.

Lemma dict_get_pop_ne (k k' : K) (d : list (K * V)) :
  k ≠ k' → dict_get k' (dict_pop k d) = dict_get k' d.
Proof.
  intros Hne. induction d as [|[k0 v0] d IH]; simpl; [reflexivity|].
  destruct (decide (k0 = k)) as [-> | Hk]; simpl.
  - rewrite decide_False by exact Hne. reflexivity.
  - destruct (decide (k0 = k')); [reflexivity | exact IH].
Qed.

Lemma dict_get_pop_eq (k : K) (d : list (K * V)) :
  NoDup (dict_keys d) → dict_get k (dict_pop k d) = None.
Proof.
  unfold dict_keys. induction d as [|[k0 v0] d IH]; simpl; [reflexivity|].
  rewrite NoDup_cons. intros [Hnot Hnd].
  destruct (decide (k0 = k)) as [-> | Hk]; simpl.
  - apply dict_get_None. exact Hnot.
  - rewrite decide_False by exact Hk. auto.
Qed.

Lemma dict_pop_absent (k : K) (d : list (K * V)) :
  dict_get k d = None → dict_pop k d = d.
Proof.
  induction d as [|[k0 v0] d IH]; simpl; [reflexivity|].
  destruct (decide (k0 = k)) as [-> | Hk]; [discriminate|].
  intros H. f_equal. apply IH, H.
Qed.

Lemma dict_pop_length (k : K) (v : V) (d : list (K * V)) :
  dict_get k d = Some v → S (length (dict_pop k d)) = length d.
Proof.
  induction d as [|[k0 v0] d IH]; simpl; [discriminate|].
  destruct (decide (k0 = k)) as [-> | Hk]; [reflexivity|].
  intros H. simpl. f_equal. apply IH, H.
Qed.

Lemma dict_pop_length_le (k : K) (d : list (K * V)) :
  (length (dict_pop k d) ≤ length d)%nat.
Proof.
  induction d as [|[k0 v0] d IH]; simpl; [lia|].
  destruct (decide (k0 = k)); simpl; lia.
Qed.

Lemma dict_pop_set_new (k : K) (v : V) (d : list (K * V)) :
  dict_get k d = None → dict_pop k (dict_set k v d) = d.
Proof.
  induction d as [|[k0 v0] d IH]; simpl.
  - rewrite decide_True by reflexivity. reflexivity.
  - destruct (decide (k0 = k)) as [-> | Hk]; [discriminate|].
    intros H. simpl. rewrite decide_False by exact Hk. f_equal. apply IH, H.
Qed.
End DictMore.

Section Additions.
Context {Attrs : Type}.
Variable update_attrs : Interaction → Attrs → Interaction.
Variable entity_iadd : Entity → Entity → Entity.
Variable unset_interaction_type : Interaction → string → Interaction.

Lemma add_node_fields e add net :
  let net' := add_node entity_iadd e add net in
  interactions net' = interactions net
  ∧ interactions_by_nodes net' = interactions_by_nodes net
  ∧ (∀ i, is_Some (Networks.nodes net !! i) →
          is_Some (Networks.nodes net' !! i))
  ∧ (add = true → is_Some (Networks.nodes net' !! identifier e)).
Proof.
  unfold add_node.
  destruct (Networks.nodes net !! identifier e) as [old|] eqn:E.
  - cbn [interactions interactions_by_nodes Networks.nodes].
    repeat split; auto.
    + intros i Hi. rewrite lookup_insert_is_Some.
      destruct (decide (identifier e = i)); auto.
    + intros _. rewrite lookup_insert_eq. eauto.
  - destruct add; cbn [interactions interactions_by_nodes Networks.nodes].
    + repeat split; auto.
      * intros i Hi. rewrite lookup_insert_is_Some.
        destruct (decide (identifier e = i)); auto.
      * intros _. rewrite lookup_insert_eq. eauto.
    + repeat split; auto. discriminate.
Qed.

Lemma add_interaction_finish_fields k ia attrs od ints net :
  let net' := add_interaction_finish update_attrs entity_iadd k ia attrs od
                ints net in
  interactions net'
  = match dict_get k ints with
    | Some i => dict_set k (update_attrs i attrs) ints
    | None => ints
    end
  ∧ (∀ i, is_Some (Networks.nodes net !! i) →
          is_Some (Networks.nodes net' !! i))
  ∧ (od = false → is_Some (Networks.nodes net' !! identifier (a ia))
                  ∧ is_Some (Networks.nodes net' !! identifier (b ia)))
  ∧ (∀ e, interactions_by_nodes net' !!! e
          = (if decide (e = a ia ∨ e = b ia) then {[ k ]} else ∅)
            ∪ interactions_by_nodes net !!! e).
Proof.
  intros net'. subst net'. unfold add_interaction_finish, adjacency_add.
  cbv zeta.
  set (ints' := match dict_get k ints with
                | Some i => dict_set k (update_attrs i attrs) ints
                | None => ints
                end).
  set (n0 := mkNetwork ints' (Networks.nodes net) (nodes_by_label net)
               (interactions_by_nodes net)).
  destruct (add_node_fields (a ia) (negb od) n0) as (Hi1 & Ha1 & Hn1 & Hadd1).
  set (n1 := add_node entity_iadd (a ia) (negb od) n0) in *.
  destruct (add_node_fields (b ia) (negb od) n1) as (Hi2 & Ha2 & Hn2 & Hadd2).
  set (n2 := add_node entity_iadd (b ia) (negb od) n1) in *.
  cbn [interactions interactions_by_nodes Networks.nodes].
  split; [rewrite Hi2, Hi1; reflexivity|].
  split; [intros i Hi; apply Hn2, Hn1, Hi|].
  split.
  - intros Hod. split; [apply Hn2, Hadd1 | apply Hadd2]; rewrite Hod; reflexivity.
  - intros e. rewrite Ha2, Ha1. subst n0. cbn [interactions_by_nodes].
    rewrite !lookup_total_alt.
    destruct (decide (e = b ia)) as [-> | Hb].
    + rewrite lookup_insert_eq. cbn [from_option default].
      rewrite decide_True by auto.
      destruct (decide (a ia = b ia)) as [Heq | Hab].
      * rewrite Heq, lookup_insert_eq. cbn [from_option default].
        unfold id. clear. set_solver.
      * rewrite lookup_insert_ne by exact Hab. reflexivity.
    + rewrite lookup_insert_ne by congruence.
      destruct (decide (e = a ia)) as [-> | Ha].
      * rewrite lookup_insert_eq. cbn [from_option default].
        rewrite decide_True by auto. reflexivity.
      * rewrite lookup_insert_ne by congruence.
        rewrite decide_False by tauto. clear. set_solver.
Qed.

(** X9. [add_interaction] without [only_directions], the incoming
    interaction having every dictionary key of the one stored under its
    pair, if there is one, so that [+=] returns: the interaction is stored
    under the pair of its nodes -- as it is when the pair is new, and then
    last in the order of the dictionary, merged by [+=] into the existing
    one otherwise, which keeps its place -- with the attributes updated;
    no other interaction changes; both nodes are among the nodes
    afterwards and have the pair among their interactions. *)
Theorem add_interaction_stores net ia attrs :
  (∀ existing, dict_get (a ia, b ia) (interactions net) = Some existing →
               iadd_returns existing ia) →
  let k := (a ia, b ia) in
  let net' := add_interaction update_attrs entity_iadd
                unset_interaction_type ia attrs false net in
  dict_get k (interactions net')
  = Some (update_attrs
            (match dict_get k (interactions net) with
             | Some existing => iadd existing ia
             | None => ia
             end) attrs)
  ∧ dict_keys (interactions net')
    = match dict_get k (interactions net) with
      | Some _ => dict_keys (interactions net)
      | None => dict_keys (interactions net) ++ [k]
      end
  ∧ (∀ k', k' ≠ k →
       dict_get k' (interactions net') = dict_get k' (interactions net))
  ∧ is_Some (Networks.nodes net' !! identifier (a ia))
  ∧ is_Some (Networks.nodes net' !! identifier (b ia))
  ∧ k ∈ interactions_by_nodes net' !!! a ia
  ∧ k ∈ interactions_by_nodes net' !!! b ia.
Proof.
  intros _ k net'. subst net'. unfold add_interaction. cbv zeta. fold k.
  assert (Hgoal : ∀ stored,
    let net' := add_interaction_finish update_attrs entity_iadd k ia attrs
                  false (dict_set k stored (interactions net)) net in
    dict_get k (interactions net') = Some (update_attrs stored attrs)
    ∧ dict_keys (interactions net')
      = dict_keys (dict_set k stored (interactions net))
    ∧ (∀ k', k' ≠ k →
         dict_get k' (interactions net') = dict_get k' (interactions net))
    ∧ is_Some (Networks.nodes net' !! identifier (a ia))
    ∧ is_Some (Networks.nodes net' !! identifier (b ia))
    ∧ k ∈ interactions_by_nodes net' !!! a ia
    ∧ k ∈ interactions_by_nodes net' !!! b ia).
  { intros stored net'.
    destruct (add_interaction_finish_fields k ia attrs false
                (dict_set k stored (interactions net)) net)
      as (Hi & _ & Hn & Hadj).
    fold net' in Hi, Hn, Hadj.
    rewrite dict_get_set_eq in Hi.
    destruct (Hn eq_refl) as [Hna Hnb].
    split; [rewrite Hi; apply dict_get_set_eq|].
    split; [rewrite Hi; apply (dict_keys_set _ _ stored), dict_get_set_eq|].
    split.
    { intros k' Hk'. rewrite Hi, !dict_get_set_ne by congruence. reflexivity. }
    split; [exact Hna|]. split; [exact Hnb|].
    rewrite !Hadj. rewrite !decide_True by auto. set_solver. }
  destruct (dict_get k (interactions net)) as [existing|] eqn:E.
  - destruct (Hgoal (iadd existing ia)) as (H1 & H2 & H3).
    split; [exact H1|]. split; [|exact H3].
    rewrite H2. apply (dict_keys_set _ _ existing), E.
  - destruct (Hgoal ia) as (H1 & H2 & H3).
    split; [exact H1|]. split; [|exact H3].
    rewrite H2. apply dict_keys_set_new, E.
Qed.

Lemma well_formed_finish k ia attrs od ints net :
  NoDup (dict_keys ints) →
  (∀ k' i, dict_get k' ints = Some i →
     (k' = k ∧ k = (a ia, b ia) ∧ od = false)
     ∨ (is_Some (Networks.nodes net !! identifier k'.1)
        ∧ is_Some (Networks.nodes net !! identifier k'.2)
        ∧ k' ∈ interactions_by_nodes net !!! k'.1
        ∧ k' ∈ interactions_by_nodes net !!! k'.2)) →
  well_formed (add_interaction_finish update_attrs entity_iadd k ia attrs od
                 ints net).
Proof.
  intros Hnd Hall.
  destruct (add_interaction_finish_fields k ia attrs od ints net)
    as (Hi & Hmono & Hn & Hadj).
  cbv zeta in *.
  set (net' := add_interaction_finish update_attrs entity_iadd k ia attrs od
                 ints net) in *.
  split.
  - rewrite Hi. destruct (dict_get k ints); [|exact Hnd].
    apply dict_set_NoDup, Hnd.
  - intros k' i Hk.
    assert (Hk' : is_Some (dict_get k' ints)).
    { rewrite Hi in Hk. destruct (dict_get k ints) eqn:E; [|eauto].
      destruct (decide (k = k')) as [<- | Hne]; [eauto|].
      rewrite dict_get_set_ne in Hk by exact Hne. eauto. }
    destruct Hk' as [i0 Hi0].
    destruct (Hall _ _ Hi0) as [(-> & Hkab & ->) | (H1 & H2 & H3 & H4)].
    + destruct (Hn eq_refl) as [Hna Hnb]. rewrite Hkab at 1 2 4 6.
      cbn [fst snd].
      split; [exact Hna|]. split; [exact Hnb|].
      rewrite !Hadj, !decide_True by auto. set_solver.
    + split; [apply Hmono, H1|]. split; [apply Hmono, H2|].
      rewrite !Hadj. set_solver.
Qed.

Lemma well_formed_add_interaction net ia attrs od :
  well_formed net →
  well_formed (add_interaction update_attrs entity_iadd
                 unset_interaction_type ia attrs od net).
Proof.
  intros [Hnd Hc]. unfold add_interaction. cbv zeta.
  assert (Hset : ∀ stored k i,
            dict_get k (dict_set (a ia, b ia) stored (interactions net))
            = Some i →
            k = (a ia, b ia) ∨ dict_get k (interactions net) = Some i).
  { intros stored k i Hk.
    destruct (decide ((a ia, b ia) = k)) as [<- | Hne]; [auto|].
    rewrite dict_get_set_ne in Hk by exact Hne. auto. }
  destruct (dict_get (a ia, b ia) (interactions net)) as [existing|] eqn:E.
  - assert (Hfin : ∀ ia' stored,
              well_formed
                (add_interaction_finish update_attrs entity_iadd
                   (a ia, b ia) ia' attrs od
                   (dict_set (a ia, b ia) stored (interactions net)) net)).
    { intros ia' stored. apply well_formed_finish.
      - apply dict_set_NoDup, Hnd.
      - intros k i Hk. right.
        destruct (Hset _ _ _ Hk) as [-> | Hk']; eauto. }
    destruct od; [|apply Hfin].
    destruct (bool_decide _); [apply Hfin | split; assumption].
  - destruct od; [split; assumption|].
    apply well_formed_finish.
    + apply dict_set_NoDup, Hnd.
    + intros k i Hk. destruct (Hset _ _ _ Hk) as [-> | Hk']; eauto.
Qed.

(** X10. Whatever sequence of [add_interaction] calls builds a network
    from the empty one, with or without [only_directions], no pair is
    stored twice, the endpoints of every stored interaction are among the
    nodes, and the pair is among the interactions of both endpoints.  So
    it is after [_add_edge_list], which makes such calls. *)
Theorem built_well_formed net :
  built update_attrs entity_iadd unset_interaction_type net →
  NoDup (dict_keys (interactions net))
  ∧ consistent net
  ∧ (∀ (label_of : string → string → string → Z → option string)
       edges od,
       consistent (_add_edge_list update_attrs entity_iadd
                     unset_interaction_type label_of edges od net)).
Proof.
  intros Hb.
  assert (Hwf : well_formed net).
  { induction Hb as [|net ia attrs od _ IH].
    - split; [apply NoDup_nil_2|]. intros k i H. discriminate.
    - apply well_formed_add_interaction, IH. }
  destruct Hwf as [Hnd Hc]. split; [exact Hnd|]. split; [exact Hc|].
  intros label_of edges od. unfold _add_edge_list.
  assert (Hwf : well_formed net) by (split; assumption).
  clear Hb Hnd Hc. revert net Hwf.
  induction edges as [|e edges IH]; intros net Hwf; simpl.
  - apply Hwf.
  - apply IH. unfold _add_update_edge.
    apply well_formed_add_interaction, Hwf.
Qed.

End Additions.

Lemma add_interaction_stores_witness :
  dict_get (eA, eB)
    (interactions (add_interaction no_attrs keep_entity
                     remove_interaction_type ia_r3 tt false net_undirected))
  = Some (no_attrs (iadd ia_undirected ia_r3) tt).
Proof.
  refine (proj1 (add_interaction_stores no_attrs keep_entity
                   remove_interaction_type net_undirected ia_r3 tt _)).
  intros existing H.
  assert (existing = ia_undirected) as ->.
  { revert H. change (a ia_r3, b ia_r3) with (eA, eB).
    replace (dict_get (eA, eB) (interactions net_undirected))
      with (Some ia_undirected) by (symmetry; vm_decide).
    intros H. inversion H. reflexivity. }
  intros _. split; [vm_decide|]. split; vm_decide.
Defined.

Lemma built_well_formed_witness :
  consistent net_undirected.
Proof.
  refine (proj1 (proj2 (built_well_formed no_attrs keep_entity
                          remove_interaction_type net_undirected _))).
  unfold net_undirected, net_of. simpl.
  apply built_add, built_add, built_reset.
Defined.

End NetworkMoreProps.

(** * Networks: what the removals remove *)

Module RemovalMoreProps.
Import Examples EvidenceProps RemovalProps NetworkProps NetworkMoreProps.

Lemma foldl_fuel_0 (l : list (Entity * Entity)) net :
  foldl (fun n i_key => remove_interaction_fuel 0 i_key.1 i_key.2 n) net l
  = net.
Proof. induction l as [|k l IH]; simpl; [reflexivity | exact IH]. Qed.

(** [remove_node] at the bottom of the calls: the entries of the node
    are popped and nothing else changes. *)
Lemma remove_node_fuel_1 e net :
  remove_node_fuel 1 e net
  = mkNetwork (interactions net)
      (delete (identifier e) (Networks.nodes net))
      (match label e with
       | Some l => delete l (nodes_by_label net)
       | None => nodes_by_label net
       end)
      (delete e (interactions_by_nodes net)).
Proof.
  simpl. destruct (interactions_by_nodes net !! e) as [ks|] eqn:E.
  - rewrite foldl_fuel_0. reflexivity.
  - rewrite (delete_id (interactions_by_nodes net) e E). reflexivity.
Qed.

Lemma remove_interaction_unfold x y net :
  remove_interaction (x, y) net
  = let net1 := after_pops x y net in
    let net2 :=
      if bool_decide (interactions_by_nodes net1 !! x = Some ∅)
      then remove_node_fuel 1 x net1 else net1 in
    if bool_decide (interactions_by_nodes net2 !! y = Some ∅)
    then remove_node_fuel 1 y net2 else net2.
Proof. reflexivity. Qed.

Lemma after_pops_adj x y net e :
  interactions_by_nodes (after_pops x y net) !! e
  = if decide (e = x ∨ e = y)
    then Some ((interactions_by_nodes net !!! e) ∖ {[ (x, y); (y, x) ]})
    else interactions_by_nodes net !! e.
Proof.
  unfold after_pops. cbn [interactions_by_nodes].
  destruct (decide (e = y)) as [-> | Hy].
  - rewrite lookup_insert_eq, decide_True by auto. f_equal.
    destruct (decide (x = y)) as [-> | Hxy].
    + rewrite lookup_total_insert_eq. set_solver.
    + rewrite lookup_total_insert_ne by exact Hxy. reflexivity.
  - rewrite lookup_insert_ne by congruence.
    destruct (decide (e = x)) as [-> | Hx].
    + rewrite lookup_insert_eq, decide_True by auto. reflexivity.
    + rewrite lookup_insert_ne by congruence.
      rewrite decide_False by tauto. reflexivity.
Qed.

Lemma remove_interaction_interactions k net :
  interactions (remove_interaction k net)
  = dict_pop (k.2, k.1) (dict_pop k (interactions net)).
Proof.
  destruct k as [x y]. rewrite remove_interaction_unfold. cbv zeta.
  repeat (match goal with
          | |- context [if ?c then _ else _] => destruct c
          end); rewrite ?remove_node_fuel_1; reflexivity.
Qed.

(** X11. [remove_interaction] takes from the dictionary of interactions
    the pair in both orders and nothing else: the other interactions
    are as they were, in the same order, and the number of interactions
    falls by at most two.  The nodes and the sets of interactions of the
    entities other than the two are untouched. *)
Theorem remove_interaction_removes x y net :
  NoDup (dict_keys (interactions net)) →
  let net' := remove_interaction (x, y) net in
  dict_get (x, y) (interactions net') = None
  ∧ dict_get (y, x) (interactions net') = None
  ∧ (∀ k, k ≠ (x, y) → k ≠ (y, x) →
       dict_get k (interactions net') = dict_get k (interactions net))
  ∧ (ecount net ≤ ecount net' + 2 ∧ ecount net' ≤ ecount net)%nat
  ∧ (∀ e, e ≠ x → e ≠ y →
       interactions_by_nodes net' !! e = interactions_by_nodes net !! e)
  ∧ (∀ i, i ≠ identifier x → i ≠ identifier y →
       Networks.nodes net' !! i = Networks.nodes net !! i).
Proof.
  intros Hnd net'. subst net'.
  pose proof (remove_interaction_interactions (x, y) net) as Hi.
  cbn [fst snd] in Hi.
  split; [|split; [|split; [|split; [|split]]]].
  - rewrite Hi. destruct (decide ((y, x) = (x, y))) as [E|E].
    + rewrite E. apply dict_get_pop_eq, dict_pop_NoDup, Hnd.
    + rewrite dict_get_pop_ne by exact E. apply dict_get_pop_eq, Hnd.
  - rewrite Hi. apply dict_get_pop_eq, dict_pop_NoDup, Hnd.
  - intros k H1 H2. rewrite Hi, !dict_get_pop_ne by congruence. reflexivity.
  - unfold ecount. rewrite Hi.
    assert (Hle : ∀ (k : Entity * Entity) (d : list (Entity * Entity * Interaction)),
              (length d ≤ S (length (dict_pop k d)))%nat).
    { intros k d. destruct (dict_get k d) as [v|] eqn:E.
      - rewrite (dict_pop_length _ _ _ E). lia.
      - rewrite (dict_pop_absent _ _ E). lia. }
    pose proof (Hle (x, y) (interactions net)).
    pose proof (Hle (y, x) (dict_pop (x, y) (interactions net))).
    pose proof (dict_pop_length_le (x, y) (interactions net)).
    pose proof (dict_pop_length_le (y, x) (dict_pop (x, y) (interactions net))).
    lia.
  - intros e Hx Hy. rewrite remove_interaction_unfold. cbv zeta.
    pose proof (after_pops_adj x y net e) as He.
    rewrite decide_False in He by tauto.
    repeat (match goal with
            | |- context [if ?c then _ else _] => destruct c
            end); rewrite ?remove_node_fuel_1;
      cbn [interactions_by_nodes];
      rewrite ?lookup_delete_ne by congruence;
      rewrite ?remove_node_fuel_1; cbn [interactions_by_nodes];
      rewrite ?lookup_delete_ne by congruence; exact He.
  - intros i Hx Hy. rewrite remove_interaction_unfold. cbv zeta.
    repeat (match goal with
            | |- context [if ?c then _ else _] => destruct c
            end); rewrite ?remove_node_fuel_1;
      cbn [Networks.nodes];
      rewrite ?lookup_delete_ne by congruence;
      rewrite ?remove_node_fuel_1; cbn [Networks.nodes];
      rewrite ?lookup_delete_ne by congruence; reflexivity.
Qed.

Lemma remove_interaction_removes_witness :
  dict_get (eA, eC)
    (interactions (remove_interaction (eA, eB) net_undirected))
  = dict_get (eA, eC) (interactions net_undirected).
Proof.
  refine (proj1 (proj2 (proj2 (remove_interaction_removes eA eB
                                 net_undirected _))) (eA, eC) _ _);
    vm_decide.
Defined.

Lemma difference_empty_iff (s keys : gset (Entity * Entity)) :
  Some (s ∖ keys) = Some ∅ ↔ s ⊆ keys.
Proof.
  split.
  - intros H. inversion H as [H']. set_solver.
  - intros H. f_equal. set_solver.
Qed.

(** X12. An endpoint whose interactions were all with the other endpoint
    is removed together with the interaction: its node is gone and so
    is its set of interactions.  An endpoint with an interaction left
    keeps its set, less the pair in both orders. *)
Theorem remove_interaction_orphans x y net e :
  e = x ∨ e = y →
  let keys : gset (Entity * Entity) := {[ (x, y); (y, x) ]} in
  let net' := remove_interaction (x, y) net in
  (interactions_by_nodes net !!! e ⊆ keys →
     Networks.nodes net' !! identifier e = None
     ∧ interactions_by_nodes net' !! e = None)
  ∧ (¬ interactions_by_nodes net !!! e ⊆ keys →
     interactions_by_nodes net' !! e
     = Some (interactions_by_nodes net !!! e ∖ keys)).
Proof.
  intros He keys net'. subst net'. rewrite remove_interaction_unfold.
  cbv zeta.
  pose proof (fun s => difference_empty_iff s keys) as Hempty.
  pose proof (after_pops_adj x y net x) as Hx.
  rewrite decide_True in Hx by auto.
  pose proof (after_pops_adj x y net y) as Hy.
  rewrite decide_True in Hy by auto.
  fold keys in Hx, Hy.
  set (net1 := after_pops x y net) in *.
  assert (Hn1 : Networks.nodes net1 = Networks.nodes net) by reflexivity.
  destruct (bool_decide (interactions_by_nodes net1 !! x = Some ∅)) eqn:E1;
    [apply bool_decide_eq_true in E1 | apply bool_decide_eq_false in E1];
    rewrite Hx, Hempty in E1.
  - rewrite remove_node_fuel_1. cbn [interactions_by_nodes].
    destruct (decide (x = y)) as [<- | Hxy].
    + rewrite lookup_delete_eq.
      rewrite bool_decide_eq_false_2 by discriminate.
      assert (e = x) by tauto. subst e.
      cbn [Networks.nodes interactions_by_nodes].
      rewrite !lookup_delete_eq. split; [auto | intros H; contradiction].
    + rewrite lookup_delete_ne by exact Hxy.
      destruct (bool_decide (interactions_by_nodes net1 !! y = Some ∅))
        eqn:E2;
        [apply bool_decide_eq_true in E2 | apply bool_decide_eq_false in E2];
        rewrite Hy, Hempty in E2.
      * rewrite remove_node_fuel_1.
        cbn [Networks.nodes interactions_by_nodes].
        destruct He as [-> | ->].
        -- split; [|intros H; contradiction]. intros _. split.
           ++ destruct (decide (identifier y = identifier x)) as [Ei|Ei].
              ** rewrite Ei. apply lookup_delete_eq.
              ** rewrite lookup_delete_ne by exact Ei. apply lookup_delete_eq.
           ++ rewrite lookup_delete_ne by congruence. apply lookup_delete_eq.
        -- rewrite !lookup_delete_eq.
           split; [auto | intros H; contradiction].
      * cbn [Networks.nodes interactions_by_nodes].
        destruct He as [-> | ->].
        -- rewrite !lookup_delete_eq.
           split; [auto | intros H; contradiction].
        -- split; [intros H; contradiction | intros _].
           rewrite lookup_delete_ne by exact Hxy. exact Hy.
  - destruct (decide (x = y)) as [<- | Hxy].
    + assert (e = x) by tauto. subst e.
      rewrite bool_decide_eq_false_2 by (rewrite Hx, Hempty; exact E1).
      split; [intros H; contradiction | intros _; exact Hx].
    + destruct (bool_decide (interactions_by_nodes net1 !! y = Some ∅))
        eqn:E2;
        [apply bool_decide_eq_true in E2 | apply bool_decide_eq_false in E2];
        rewrite Hy, Hempty in E2.
      * rewrite remove_node_fuel_1.
        cbn [Networks.nodes interactions_by_nodes].
        destruct He as [-> | ->].
        -- split; [intros H; contradiction | intros _].
           rewrite lookup_delete_ne by congruence. exact Hx.
        -- rewrite !lookup_delete_eq.
           split; [auto | intros H; contradiction].
      * destruct He as [-> | ->].
        -- split; [intros H; contradiction | intros _; exact Hx].
        -- split; [intros H; contradiction | intros _; exact Hy].
Qed.

Lemma remove_interaction_orphans_witness :
  Networks.nodes (remove_interaction (eA, eB) net_undirected) !! "B" = None
  ∧ interactions_by_nodes (remove_interaction (eA, eB) net_undirected) !! eB
    = None.
Proof.
  refine (proj1 (remove_interaction_orphans eA eB net_undirected eB _) _).
  - right. reflexivity.
  - vm_decide.
Defined.

End RemovalMoreProps.

(** * Networks: removing nodes, sweeps over the network *)

Module SweepProps.
Import Examples EvidenceProps RemovalProps NetworkProps NetworkMoreProps
  RemovalMoreProps.

Lemma remove_interaction_fuel_S f x y net :
  remove_interaction_fuel (S f) x y net
  = let net1 := after_pops x y net in
    let net2 :=
      if bool_decide (interactions_by_nodes net1 !! x = Some ∅)
      then remove_node_fuel f x net1 else net1 in
    if bool_decide (interactions_by_nodes net2 !! y = Some ∅)
    then remove_node_fuel f y net2 else net2.
Proof. reflexivity. Qed.

Lemma remove_node_fuel_S f e net :
  remove_node_fuel (S f) e net
  = let net0 :=
      mkNetwork (interactions net)
        (delete (identifier e) (Networks.nodes net))
        (match label e with
         | Some l => delete l (nodes_by_label net)
         | None => nodes_by_label net
         end)
        (interactions_by_nodes net) in
    match interactions_by_nodes net !! e with
    | Some i_keys =>
        let net1 :=
          foldl (fun n i_key =>
                   remove_interaction_fuel f i_key.1 i_key.2 n)
            net0 (elements i_keys) in
        mkNetwork (interactions net1) (Networks.nodes net1)
          (nodes_by_label net1) (delete e (interactions_by_nodes net1))
    | None => net0
    end.
Proof. reflexivity. Qed.

(** The removals only ever delete nodes. *)
Lemma remove_fuel_nodes f :
  (∀ e net i n,
     Networks.nodes (remove_node_fuel f e net) !! i = Some n →
     Networks.nodes net !! i = Some n)
  ∧ (∀ x y net i n,
       Networks.nodes (remove_interaction_fuel f x y net) !! i = Some n →
       Networks.nodes net !! i = Some n).
Proof.
  induction f as [|f [IHn IHi]]; [split; intros; assumption|].
  assert (Hnode : ∀ e net i n,
            Networks.nodes (remove_node_fuel (S f) e net) !! i = Some n →
            Networks.nodes net !! i = Some n).
  { intros e net i n. rewrite remove_node_fuel_S. cbv zeta.
    set (net0 := mkNetwork _ _ _ _).
    assert (H0 : Networks.nodes net0 !! i = Some n →
                 Networks.nodes net !! i = Some n).
    { subst net0. cbn [Networks.nodes]. intros H.
      apply lookup_delete_Some in H. tauto. }
    destruct (interactions_by_nodes net !! e) as [ks|]; [|exact H0].
    cbn [Networks.nodes]. intros H. apply H0. revert H.
    generalize net0. clear H0 net0.
    induction (elements ks) as [|k l IHl]; intros n0; simpl; [auto|].
    intros H. apply IHl in H. apply IHi in H. exact H. }
  split; [exact Hnode|].
  intros x y net i n. rewrite remove_interaction_fuel_S. cbv zeta.
  assert (H1 : Networks.nodes (after_pops x y net) = Networks.nodes net)
    by reflexivity.
  repeat (match goal with
          | |- context [if ?c then _ else _] => destruct c
          end); intros H; repeat (apply IHn in H); rewrite <- H1; exact H.
Qed.

Lemma remove_node_fuel_gone f e net :
  Networks.nodes (remove_node_fuel (S f) e net) !! identifier e = None.
Proof.
  destruct (Networks.nodes (remove_node_fuel (S f) e net) !! identifier e)
    as [n|] eqn:E; [|reflexivity].
  exfalso. revert E. rewrite remove_node_fuel_S. cbv zeta.
  set (net0 := mkNetwork _ _ _ _).
  assert (H0 : Networks.nodes net0 !! identifier e = None)
    by apply lookup_delete_eq.
  destruct (interactions_by_nodes net !! e) as [ks|];
    [|intros H; rewrite H0 in H; discriminate].
  cbn [Networks.nodes]. intros H.
  assert (Hfold : ∀ l n0 i n',
            Networks.nodes
              (foldl (fun n i_key =>
                        remove_interaction_fuel f i_key.1 i_key.2 n) n0 l)
            !! i = Some n' → Networks.nodes n0 !! i = Some n').
  { induction l as [|k l IHl]; intros n0 i n'; simpl; [auto|].
    intros H'. apply IHl in H'.
    apply (proj2 (remove_fuel_nodes f)) in H'. exact H'. }
  apply Hfold in H. rewrite H0 in H. discriminate.
Qed.

Lemma remove_node_absent f e net :
  interactions_by_nodes net !! e = None →
  remove_node_fuel (S f) e net
  = mkNetwork (interactions net)
      (delete (identifier e) (Networks.nodes net))
      (match label e with
       | Some l => delete l (nodes_by_label net)
       | None => nodes_by_label net
       end)
      (interactions_by_nodes net).
Proof. intros H. rewrite remove_node_fuel_S. cbv zeta. rewrite H. reflexivity. Qed.

Section NodeRoundTrip.
Variable entity_iadd : Entity → Entity → Entity.

(** X13. Adding a new node and removing it again gives back the nodes,
    the interactions and the sets of interactions.  [add_node] files the
    node under [entity.label or entity.identifier], [remove_node] pops
    [entity.label].  With a label that is not empty the dictionary by label
    is the old one without that label: it is the old one exactly when the
    label was not a key of it.  Without label, or with the empty label,
    the node was filed under its identifier and the entry stays, so that
    [entity] still finds the removed node by its identifier. *)
Theorem remove_node_after_add_node e net :
  Networks.nodes net !! identifier e = None →
  interactions_by_nodes net !! e = None →
  let net' := remove_node e (add_node entity_iadd e true net) in
  interactions net' = interactions net
  ∧ Networks.nodes net' = Networks.nodes net
  ∧ interactions_by_nodes net' = interactions_by_nodes net
  ∧ (∀ l, label e = Some l → l ≠ "" →
       nodes_by_label net' = delete l (nodes_by_label net)
       ∧ (nodes_by_label net' = nodes_by_label net
          ↔ nodes_by_label net !! l = None))
  ∧ (label e = None →
       nodes_by_label net' = <[identifier e := e]> (nodes_by_label net)
       ∧ entity_by_id net' (identifier e) = None
       ∧ entity net' (identifier e) = Some e)
  ∧ (label e = Some "" →
       nodes_by_label net'
       = delete "" (<[identifier e := e]> (nodes_by_label net))
       ∧ entity_by_id net' (identifier e) = None
       ∧ (identifier e ≠ "" → entity net' (identifier e) = Some e)).
Proof.
  intros Hn Hadj net'. subst net'. unfold remove_node, add_node, label_key.
  rewrite Hn. rewrite remove_node_absent by exact Hadj.
  cbn [interactions Networks.nodes nodes_by_label interactions_by_nodes].
  split; [reflexivity|]. split; [apply delete_insert_id, Hn|].
  split; [reflexivity|]. split; [|split].
  - intros l Hl Hne. rewrite Hl. rewrite bool_decide_eq_false_2 by exact Hne.
    rewrite delete_insert_eq. split; [reflexivity|]. split.
    + intros H. rewrite <- H. apply lookup_delete_eq.
    + apply delete_id.
  - intros Hl. rewrite Hl.
    split; [reflexivity|].
    unfold entity, entity_by_id, entity_by_label.
    cbn [Networks.nodes nodes_by_label].
    rewrite lookup_delete_eq. split; [reflexivity|]. apply lookup_insert_eq.
  - intros Hl. rewrite Hl. rewrite bool_decide_eq_true_2 by reflexivity.
    split; [reflexivity|].
    unfold entity, entity_by_id, entity_by_label.
    cbn [Networks.nodes nodes_by_label].
    rewrite lookup_delete_eq. split; [reflexivity|].
    intros Hne. rewrite lookup_delete_ne by congruence.
    apply lookup_insert_eq.
Qed.
End NodeRoundTrip.

Lemma remove_node_after_add_node_witness :
  entity (remove_node eC (add_node keep_entity eC true net_directed)) "C"
  = Some eC.
Proof.
  refine (proj2 (proj2 (proj1 (proj2 (proj2 (proj2 (proj2
            (remove_node_after_add_node keep_entity eC net_directed _ _)))))
            eq_refl))); vm_decide.
Defined.

Lemma remove_isolated_fold l : ∀ net,
  NoDup l →
  (∀ z, z ∈ l → interactions_by_nodes net !! z = Some ∅) →
  let net' := foldl (fun n node => remove_node node n) net l in
  interactions net' = interactions net
  ∧ (∀ e, interactions_by_nodes net' !! e
          = if decide (e ∈ l) then None
            else interactions_by_nodes net !! e)
  ∧ (∀ i, Networks.nodes net' !! i
          = if decide (i ∈ identifier <$> l) then None
            else Networks.nodes net !! i).
Proof.
  induction l as [|z l IH]; intros net Hnd Hall; cbn [foldl].
  - split; [reflexivity|]. split; intros x.
    + rewrite decide_False by apply not_elem_of_nil. reflexivity.
    + rewrite fmap_nil, decide_False by apply not_elem_of_nil. reflexivity.
  - apply NoDup_cons in Hnd as [Hz Hnd].
    assert (Hstep : remove_node z net
                    = mkNetwork (interactions net)
                        (delete (identifier z) (Networks.nodes net))
                        (match label z with
                         | Some lb => delete lb (nodes_by_label net)
                         | None => nodes_by_label net
                         end)
                        (delete z (interactions_by_nodes net))).
    { unfold remove_node.
      rewrite (remove_node_fuel_isolated 2 z net) by (apply Hall; left).
      apply remove_node_fuel_1. }
    rewrite Hstep. set (net1 := mkNetwork _ _ _ _).
    destruct (IH net1 Hnd) as (Hi & Ha & Hn).
    { intros z' Hz'. subst net1. cbn [interactions_by_nodes].
      rewrite lookup_delete_ne by (intros ->; contradiction).
      apply Hall. right. exact Hz'. }
    cbv zeta in Hi, Ha, Hn.
    split; [rewrite Hi; reflexivity|]. split.
    + intros e. rewrite Ha. subst net1. cbn [interactions_by_nodes].
      destruct (decide (e ∈ l)) as [He|He].
      * rewrite decide_True by (right; exact He). reflexivity.
      * destruct (decide (e = z)) as [-> | Hez].
        -- rewrite lookup_delete_eq, decide_True by left. reflexivity.
        -- rewrite lookup_delete_ne by congruence.
           rewrite decide_False; [reflexivity|].
           rewrite elem_of_cons. tauto.
    + intros i. rewrite Hn. subst net1. cbn [Networks.nodes].
      rewrite fmap_cons.
      destruct (decide (i ∈ identifier <$> l)) as [He|He].
      * rewrite decide_True by (right; exact He). reflexivity.
      * destruct (decide (i = identifier z)) as [-> | Hez].
        -- rewrite lookup_delete_eq, decide_True by left. reflexivity.
        -- rewrite lookup_delete_ne by congruence.
           rewrite decide_False; [reflexivity|].
           rewrite elem_of_cons. tauto.
Qed.

Lemma elem_of_zero_degree net e :
  e ∈ zero_degree net ↔ interactions_by_nodes net !! e = Some ∅.
Proof.
  unfold zero_degree. rewrite elem_of_dom. split.
  - intros [s Hs]. apply map_lookup_filter_Some in Hs as [Hs Hp].
    simpl in Hp. subst s. exact Hs.
  - intros H. exists ∅. apply map_lookup_filter_Some. auto.
Qed.

(** X14. [remove_zero_degree] removes the entities whose set of
    interactions is empty, with their nodes, and nothing else: every
    interaction stays, the other entities keep their sets, and no entity
    with an empty set is left. *)
Theorem remove_zero_degree_sweeps net :
  let net' := remove_zero_degree net in
  interactions net' = interactions net
  ∧ (∀ e, interactions_by_nodes net' !! e
          = if decide (interactions_by_nodes net !! e = Some ∅) then None
            else interactions_by_nodes net !! e)
  ∧ (∀ i, Networks.nodes net' !! i
          = if decide (i ∈ identifier <$> elements (zero_degree net))
            then None else Networks.nodes net !! i)
  ∧ zero_degree net' = ∅.
Proof.
  intros net'. subst net'. unfold remove_zero_degree.
  destruct (remove_isolated_fold (elements (zero_degree net)) net)
    as (Hi & Ha & Hn).
  { apply NoDup_elements. }
  { intros z Hz. apply elem_of_elements, elem_of_zero_degree in Hz. exact Hz. }
  cbv zeta in Hi, Ha, Hn.
  assert (Ha' : ∀ e,
    interactions_by_nodes
      (foldl (fun n node => remove_node node n) net
         (elements (zero_degree net))) !! e
    = if decide (interactions_by_nodes net !! e = Some ∅) then None
      else interactions_by_nodes net !! e).
  { intros e. rewrite Ha.
    destruct (decide (e ∈ elements (zero_degree net))) as [He|He];
      rewrite elem_of_elements, elem_of_zero_degree in He.
    - rewrite decide_True by exact He. reflexivity.
    - rewrite decide_False by exact He. reflexivity. }
  split; [exact Hi|]. split; [exact Ha'|]. split.
  - exact Hn.
  - apply set_eq. intros e. rewrite elem_of_zero_degree, Ha'.
    split; [|intros H; apply not_elem_of_empty in H; contradiction].
    destruct (decide (interactions_by_nodes net !! e = Some ∅));
      [discriminate | contradiction].
Qed.

Lemma elem_of_get_organisms net t :
  t ∈ get_organisms net ↔
  ∃ i n, Networks.nodes net !! i = Some n ∧ taxon n = t.
Proof.
  unfold get_organisms.
  apply (map_fold_weak_ind
           (fun (acc : gset Z) (m : gmap string Entity) =>
              t ∈ acc ↔ ∃ i n, m !! i = Some n ∧ taxon n = t)).
  - split; [intros H; apply not_elem_of_empty in H; contradiction|].
    intros (i & n & H & _). rewrite lookup_empty in H. discriminate.
  - intros i x m r Hi IH. rewrite elem_of_union, elem_of_singleton, IH.
    split.
    + intros [-> | (j & n & Hj & Ht)].
      * exists i, x. rewrite lookup_insert_eq. auto.
      * exists j, n. rewrite lookup_insert_ne by congruence. auto.
    + intros (j & n & Hj & Ht).
      destruct (decide (i = j)) as [-> | Hne].
      * rewrite lookup_insert_eq in Hj. inversion Hj; subst. auto.
      * rewrite lookup_insert_ne in Hj by exact Hne. right. eauto.
Qed.

Lemma foldl_remove_node_nodes l : ∀ net i n,
  Networks.nodes (foldl (fun n0 node => remove_node node n0) net l) !! i
  = Some n →
  Networks.nodes net !! i = Some n ∧ ∀ z, z ∈ l → identifier z ≠ i.
Proof.
  induction l as [|z l IH]; intros net i n; cbn [foldl].
  - intros H. split; [exact H|]. intros z Hz.
    apply not_elem_of_nil in Hz. contradiction.
  - intros H. apply IH in H as [H Hl].
    split; [exact (proj1 (remove_fuel_nodes 3) _ _ _ _ H)|].
    intros z' Hz'. apply elem_of_cons in Hz' as [-> | Hz']; [|auto].
    intros Heq. subst i. unfold remove_node in H.
    rewrite remove_node_fuel_gone in H. discriminate.
Qed.

Section Organisms.
Variable check : string → string → Z → bool.

Lemma organisms_check_nodes organisms remove_mismatches remove_nonspecific
    net i n :
  filed_by_identifier net →
  Networks.nodes (organisms_check check organisms remove_mismatches
                    remove_nonspecific net) !! i = Some n →
  Networks.nodes net !! i = Some n
  ∧ organism_mismatch check organisms remove_mismatches
      remove_nonspecific n = false.
Proof.
  intros Hid H. unfold organisms_check in H. cbv zeta in H.
  apply foldl_remove_node_nodes in H as [H Hl].
  split; [exact H|].
  destruct (organism_mismatch check organisms remove_mismatches
              remove_nonspecific n) eqn:E; [|reflexivity].
  exfalso. apply (Hl n); [|apply Hid, H].
  apply elem_of_elements, elem_of_list_to_set, list_elem_of_filter.
  split; [exact E|].
  apply list_elem_of_fmap. exists (i, n). split; [reflexivity|].
  apply elem_of_map_to_list, H.
Qed.

Lemma organisms_check_organisms organisms remove_mismatches
    remove_nonspecific net :
  filed_by_identifier net → organisms ≠ ∅ →
  get_organisms (organisms_check check organisms remove_mismatches
                   remove_nonspecific net) ⊆ organisms.
Proof.
  intros Hid Hne t Ht. apply elem_of_get_organisms in Ht as (i & n & Hn & <-).
  destruct (organisms_check_nodes _ _ _ _ _ _ Hid Hn) as [_ Hm].
  unfold organism_mismatch in Hm.
  apply orb_false_iff in Hm as [Hm _].
  apply orb_false_iff in Hm as [Hm _].
  apply andb_false_iff in Hm as [Hm|Hm].
  - apply bool_decide_eq_false in Hm. contradiction.
  - apply bool_decide_eq_false in Hm. apply dec_stable in Hm. exact Hm.
Qed.

(** X15. After [organisms_check] on a network whose nodes are filed under
    their identifiers, every node left was there before and passes the
    test of the first loop; with a set of organisms given, the organisms
    of the network are among them, and with [remove_nonspecific] the
    organism 0 is not. *)
Theorem organisms_check_keeps organisms remove_mismatches
    remove_nonspecific net :
  filed_by_identifier net →
  let net' := organisms_check check organisms remove_mismatches
                remove_nonspecific net in
  (∀ i n, Networks.nodes net' !! i = Some n →
     Networks.nodes net !! i = Some n
     ∧ organism_mismatch check organisms remove_mismatches
         remove_nonspecific n = false)
  ∧ (organisms ≠ ∅ → get_organisms net' ⊆ organisms)
  ∧ (remove_nonspecific = true → 0 ∉ get_organisms net').
Proof.
  intros Hid net'. split; [|split].
  - intros i n. apply organisms_check_nodes, Hid.
  - apply organisms_check_organisms, Hid.
  - intros -> Ht. apply elem_of_get_organisms in Ht as (i & n & Hn & Ht).
    destruct (organisms_check_nodes _ _ _ _ _ _ Hid Hn) as [_ Hm].
    unfold organism_mismatch in Hm.
    apply orb_false_iff in Hm as [_ Hm]. cbn [andb] in Hm.
    apply bool_decide_eq_false in Hm. contradiction.
Qed.
End Organisms.

Lemma organisms_check_keeps_witness :
  get_organisms
    (organisms_check (fun _ _ _ => true) {[ 9606 ]} true false net_undirected)
  ⊆ {[ 9606 ]}.
Proof.
  refine (proj1 (proj2 (organisms_check_keeps (fun _ _ _ => true)
                          {[ 9606 ]} true false net_undirected _)) _).
  - apply (bool_decide_unpack
             (map_Forall (fun i n => identifier n = i)
                (Networks.nodes net_undirected))).
    vm_compute. exact I.
  - vm_decide.
Defined.

End SweepProps.

(** * Networks: the removal loops and the reference counts *)

Module LoopProps.
Import Examples EvidenceProps RemovalProps NetworkProps NetworkMoreProps
  RemovalMoreProps SweepProps.

Lemma dict_get_is_Some_elem {K V} `{EqDecision K} (k : K) (v : V) d :
  (k, v) ∈ d → is_Some (dict_get k d).
Proof.
  induction d as [|[k0 v0] d IH]; simpl.
  - intros H. apply not_elem_of_nil in H. contradiction.
  - intros H. destruct (decide (k0 = k)); [eauto|].
    apply elem_of_cons in H as [H|H]; [congruence | auto].
Qed.

Lemma remove_interaction_shrinks k ia net :
  (k, ia) ∈ interactions net →
  (length (interactions (remove_interaction k net))
   < length (interactions net))%nat.
Proof.
  intros Hin. rewrite remove_interaction_interactions.
  destruct (dict_get_is_Some_elem _ _ _ Hin) as [v Hv].
  pose proof (dict_pop_length _ _ _ Hv).
  pose proof (dict_pop_length_le (k.2, k.1) (dict_pop k (interactions net))).
  lia.
Qed.

Lemma remove_undirected_loop_changed size0 min_refs items net :
  length (interactions net) ≠ size0 →
  remove_undirected_loop size0 min_refs items net = (net, RuntimeError).
Proof.
  intros H. destruct items; simpl;
    rewrite bool_decide_eq_true_2 by exact H; reflexivity.
Qed.

Lemma remove_undirected_loop_first min_refs items : ∀ net,
  (∀ p, p ∈ items → p ∈ interactions net) →
  remove_undirected_loop (length (interactions net)) min_refs items net
  = match filter (fun p : Entity * Entity * Interaction =>
                    undirected_to_remove min_refs p.2 = true) items with
    | [] => (net, Returned)
    | p :: _ => (remove_interaction p.1 net, RuntimeError)
    end.
Proof.
  induction items as [|[k ia] rest IH]; intros net Hsub;
    cbn [remove_undirected_loop];
    rewrite bool_decide_eq_false_2 by (intros H; apply H; reflexivity).
  - reflexivity.
  - rewrite filter_cons. cbn [snd].
    destruct (undirected_to_remove min_refs ia) eqn:E.
    + rewrite decide_True by reflexivity. cbn [fst].
      apply remove_undirected_loop_changed.
      assert (Hin : (k, ia) ∈ interactions net) by (apply Hsub; left).
      pose proof (remove_interaction_shrinks _ _ _ Hin). lia.
    + rewrite decide_False by discriminate.
      apply IH. intros p Hp. apply Hsub. right. exact Hp.
Qed.

(** X16. [remove_undirected] on any network: when no interaction passes
    its test -- [is_directed()] and few enough references -- the network
    is returned as it is; otherwise the first interaction that passes, in
    the order of the dictionary, is removed, and the loop ends there with
    the [RuntimeError] of a dictionary changed during iteration.  No
    second interaction is ever removed. *)
Theorem remove_undirected_first_only min_refs net :
  remove_undirected min_refs net
  = match filter (fun p : Entity * Entity * Interaction =>
                    undirected_to_remove min_refs p.2 = true)
            (interactions net) with
    | [] => (net, Returned)
    | p :: _ => (remove_interaction p.1 net, RuntimeError)
    end
  ∧ (ecount net ≤ ecount (remove_undirected min_refs net).1 + 2)%nat.
Proof.
  assert (H : remove_undirected min_refs net
              = match filter (fun p : Entity * Entity * Interaction =>
                                undirected_to_remove min_refs p.2 = true)
                        (interactions net) with
                | [] => (net, Returned)
                | p :: _ => (remove_interaction p.1 net, RuntimeError)
                end).
  { unfold remove_undirected. apply remove_undirected_loop_first. auto. }
  split; [exact H|]. rewrite H.
  destruct (filter _ (interactions net)) as [|p l]; cbn [fst]; [lia|].
  unfold ecount. rewrite remove_interaction_interactions.
  assert (Hle : ∀ (k : Entity * Entity)
                  (d : list (Entity * Entity * Interaction)),
            (length d ≤ S (length (dict_pop k d)))%nat).
  { intros k d. destruct (dict_get k d) as [v|] eqn:E.
    - rewrite (dict_pop_length _ _ _ E). lia.
    - rewrite (dict_pop_absent _ _ E). lia. }
  pose proof (Hle p.1 (interactions net)).
  pose proof (Hle (p.1.2, p.1.1) (dict_pop p.1 (interactions net))).
  lia.
Qed.

Lemma foldl_remove_interaction_get l : ∀ net k,
  NoDup (dict_keys (interactions net)) →
  dict_get k
    (interactions (foldl (fun n k0 => remove_interaction k0 n) net l))
  = if decide (k ∈ l ∨ (k.2, k.1) ∈ l) then None
    else dict_get k (interactions net).
Proof.
  induction l as [|k0 l IH]; intros net k Hnd; cbn [foldl].
  - rewrite decide_False; [reflexivity|].
    intros [H|H]; apply not_elem_of_nil in H; contradiction.
  - rewrite IH.
    2:{ rewrite remove_interaction_interactions.
        apply dict_pop_NoDup, dict_pop_NoDup, Hnd. }
    rewrite remove_interaction_interactions.
    destruct (decide (k ∈ l ∨ (k.2, k.1) ∈ l)) as [H|H].
    + rewrite decide_True; [reflexivity|].
      destruct H; [left | right]; right; assumption.
    + destruct (decide (k = k0)) as [-> | Hk].
      * rewrite decide_True by (left; left).
        destruct (decide ((k0.2, k0.1) = k0)) as [E|E].
        -- rewrite E. apply dict_get_pop_eq, dict_pop_NoDup, Hnd.
        -- rewrite dict_get_pop_ne by exact E. apply dict_get_pop_eq, Hnd.
      * destruct (decide (k = (k0.2, k0.1))) as [-> | Hk'].
        -- rewrite decide_True.
           2:{ right. cbn [fst snd]. destruct k0. left. }
           apply dict_get_pop_eq, dict_pop_NoDup, Hnd.
        -- rewrite decide_False.
           2:{ rewrite !elem_of_cons. intros [[?|?]|[E|?]]; try tauto.
               apply Hk'. destruct k, k0. cbn [fst snd] in *.
               inversion E. reflexivity. }
           rewrite !dict_get_pop_ne by congruence. reflexivity.
Qed.

(** X17. What [remove_htp] leaves of the interactions: an interaction
    stays exactly when it is not marked -- it has a reference that is not
    high-throughput, or it is kept as directed -- and the interaction of
    the reversed pair, if there is one, is not marked either. *)
Theorem remove_htp_leaves threshold keep_directed net k ia :
  NoDup (dict_keys (interactions net)) →
  dict_get k (interactions (remove_htp threshold keep_directed net)) = Some ia
  ↔ dict_get k (interactions net) = Some ia
    ∧ htp_to_remove threshold keep_directed net ia = false
    ∧ (∀ ia', dict_get (k.2, k.1) (interactions net) = Some ia' →
              htp_to_remove threshold keep_directed net ia' = false).
Proof.
  intros Hnd. unfold remove_htp. cbv zeta.
  rewrite foldl_remove_interaction_get by exact Hnd.
  assert (Hmark : ∀ k0,
    k0 ∈ (filter (fun p : Entity * Entity * Interaction =>
                    htp_to_remove threshold keep_directed net p.2 = true)
            (interactions net)).*1
    ↔ ∃ i, dict_get k0 (interactions net) = Some i
           ∧ htp_to_remove threshold keep_directed net i = true).
  { intros k0. rewrite list_elem_of_fmap. split.
    - intros ([k1 i] & -> & Hin). apply list_elem_of_filter in Hin as [Hm Hin].
      exists i. split; [|exact Hm]. apply dict_get_elem; assumption.
    - intros (i & Hi & Hm). exists (k0, i). split; [reflexivity|].
      apply list_elem_of_filter. split; [exact Hm|].
      apply dict_get_Some_elem, Hi. }
  destruct (decide _) as [H|H]; rewrite !Hmark in H.
  - split; [discriminate|]. intros (Hk & Hm & Hrev). exfalso.
    destruct H as [(i & Hi & Hmi)|(i & Hi & Hmi)].
    + rewrite Hk in Hi. inversion Hi; subst. congruence.
    + rewrite (Hrev _ Hi) in Hmi. discriminate.
  - split.
    + intros Hk. split; [exact Hk|]. split.
      * destruct (htp_to_remove threshold keep_directed net ia) eqn:E;
          [|reflexivity].
        exfalso. apply H. left. eauto.
      * intros ia' Hi'.
        destruct (htp_to_remove threshold keep_directed net ia') eqn:E;
          [|reflexivity].
        exfalso. apply H. right. eauto.
    + intros (Hk & _). exact Hk.
Qed.

Lemma remove_htp_leaves_witness :
  dict_get (eA, eB) (interactions (remove_htp 5 false net_undirected))
  = Some ia_undirected.
Proof.
  apply (proj2 (remove_htp_leaves 5 false net_undirected (eA, eB)
                  ia_undirected ltac:(vm_decide))).
  split; [vm_decide|]. split; [vm_decide|].
  intros ia' H. exfalso. revert H.
  apply (bool_decide_unpack
           (dict_get (eB, eA) (interactions net_undirected) = Some ia' → False)).
  vm_compute. exact I.
Defined.

End LoopProps.

(** * Networks: interactions per literature reference *)

Module ReferenceProps.
Import Examples EvidenceProps NetworkProps NetworkMoreProps.

Lemma count_refs_inner (l : list string) : ∀ (cnt : gmap string nat) r,
  NoDup l →
  foldl (fun c ref => <[ref := S (c !!! ref)]> c) cnt l !! r
  = if decide (r ∈ l) then Some (S (cnt !!! r)) else cnt !! r.
Proof.
  induction l as [|x l IH]; intros cnt r Hnd; cbn [foldl].
  - rewrite decide_False by apply not_elem_of_nil. reflexivity.
  - apply NoDup_cons in Hnd as [Hx Hnd]. rewrite IH by exact Hnd.
    destruct (decide (r ∈ l)) as [Hr|Hr].
    + rewrite decide_True by (right; exact Hr).
      rewrite lookup_total_insert_ne by (intros ->; contradiction).
      reflexivity.
    + destruct (decide (r = x)) as [-> | Hne].
      * rewrite decide_True by left. apply lookup_insert_eq.
      * rewrite decide_False by (rewrite elem_of_cons; tauto).
        apply lookup_insert_ne. congruence.
Qed.

Lemma count_refs_outer (items : list (Entity * Entity * Interaction)) :
  ∀ (cnt : gmap string nat) r,
  let n := length (filter (fun p : Entity * Entity * Interaction =>
                             r ∈ ia_get_references p.2) items) in
  foldl
    (fun cnt (p : Entity * Entity * Interaction) =>
       foldl (fun c ref => <[ref := S (c !!! ref)]> c) cnt
         (elements (ia_get_references p.2)))
    cnt items !! r
  = if decide (n = 0%nat) then cnt !! r else Some (cnt !!! r + n)%nat.
Proof.
  induction items as [|[k ia] items IH]; intros cnt r; cbn [foldl].
  - reflexivity.
  - cbv zeta in *. rewrite IH. rewrite filter_cons. cbn [snd].
    rewrite lookup_total_alt.
    rewrite !count_refs_inner by apply NoDup_elements.
    destruct (decide (r ∈ elements (ia_get_references ia))) as [Hr|Hr];
      pose proof Hr as Hr'; rewrite elem_of_elements in Hr'.
    + rewrite (decide_True (P := r ∈ ia_get_references ia)) by exact Hr'.
      cbn [length default from_option].
      destruct (decide (length _ = 0%nat)) as [E|E].
      * rewrite (decide_False (P := S _ = 0%nat)) by discriminate.
        rewrite E, Nat.add_1_r. reflexivity.
      * rewrite (decide_False (P := S _ = 0%nat)) by discriminate.
        rewrite Nat.add_succ_r. reflexivity.
    + rewrite (decide_False (P := r ∈ ia_get_references ia)) by exact Hr'.
      rewrite <- lookup_total_alt. reflexivity.
Qed.

Lemma numof_lookup net ref :
  numof_interactions_per_reference net !! ref
  = let n := length (filter (fun p : Entity * Entity * Interaction =>
                               ref ∈ ia_get_references p.2)
                       (interactions net)) in
    if decide (n = 0%nat) then None else Some n.
Proof.
  unfold numof_interactions_per_reference.
  pose proof (count_refs_outer (interactions net) ∅ ref) as H.
  cbv zeta in *. rewrite H, lookup_empty, lookup_total_empty.
  reflexivity.
Qed.

Lemma numof_lookup_total net ref :
  numof_interactions_per_reference net !!! ref
  = length (filter (fun p : Entity * Entity * Interaction =>
                      ref ∈ ia_get_references p.2) (interactions net)).
Proof.
  rewrite lookup_total_alt, numof_lookup. cbv zeta.
  destruct (decide (length _ = 0%nat)) as [-> |]; reflexivity.
Qed.

(** X18. The counter of [numof_interactions_per_reference]: the count of
    a reference is the number of interactions whose references include
    it; a reference no interaction cites is no key of the counter; and
    the high-throughput references of [remove_htp] are the cited
    references with more interactions than the threshold. *)
Theorem numof_interactions_per_reference_counts net ref :
  let n := length (filter (fun p : Entity * Entity * Interaction =>
                             ref ∈ ia_get_references p.2)
                     (interactions net)) in
  numof_interactions_per_reference net !!! ref = n
  ∧ (numof_interactions_per_reference net !! ref = None ↔ n = 0%nat)
  ∧ (∀ threshold,
       ref ∈ htp_refs threshold net ↔ n ≠ 0%nat ∧ threshold < Z.of_nat n).
Proof.
  intros n. pose proof (numof_lookup net ref) as H. cbv zeta in H. fold n in H.
  split; [apply numof_lookup_total|]. split.
  - rewrite H. destruct (decide (n = 0%nat)) as [E|E]; split; intros H';
      try assumption; try reflexivity; [discriminate | contradiction].
  - intros threshold. unfold htp_refs. rewrite elem_of_dom. split.
    + intros [c Hc]. apply map_lookup_filter_Some in Hc as [Hc Ht].
      cbn [snd] in Ht. rewrite H in Hc.
      destruct (decide (n = 0%nat)); [discriminate|].
      inversion Hc; subst. auto.
    + intros [Hn Ht]. exists n. apply map_lookup_filter_Some.
      split; [|exact Ht]. rewrite H.
      rewrite decide_False by exact Hn. reflexivity.
Qed.

Lemma by_ref_inner (k : Entity * Entity) (l : list string) :
  ∀ (m : gmap string (gset (Entity * Entity))) r,
  foldl (fun m ref => <[ref := {[ k ]} ∪ (m !!! ref)]> m) m l !!! r
  = if decide (r ∈ l) then {[ k ]} ∪ m !!! r else m !!! r.
Proof.
  induction l as [|x l IH]; intros m r; cbn [foldl].
  - rewrite decide_False by apply not_elem_of_nil. reflexivity.
  - rewrite IH. destruct (decide (r = x)) as [-> | Hne].
    + rewrite lookup_total_insert_eq.
      rewrite (decide_True (P := x ∈ x :: l)) by left.
      destruct (decide (x ∈ l)); [set_solver | reflexivity].
    + rewrite lookup_total_insert_ne by congruence.
      destruct (decide (r ∈ l)) as [Hr|Hr].
      * rewrite decide_True by (right; exact Hr). reflexivity.
      * rewrite decide_False by (rewrite elem_of_cons; tauto). reflexivity.
Qed.

Lemma by_ref_outer (items : list (Entity * Entity * Interaction)) :
  ∀ (m : gmap string (gset (Entity * Entity))) r,
  foldl
    (fun acc (p : Entity * Entity * Interaction) =>
       foldl (fun m ref => <[ref := {[ p.1 ]} ∪ (m !!! ref)]> m) acc
         (elements (ia_get_references p.2)))
    m items !!! r
  = m !!! r
    ∪ list_to_set (filter (fun p : Entity * Entity * Interaction =>
                             r ∈ ia_get_references p.2) items).*1.
Proof.
  induction items as [|[k ia] items IH]; intros m r; cbn [foldl].
  - rewrite filter_nil, fmap_nil, list_to_set_nil. set_solver.
  - rewrite IH, by_ref_inner, filter_cons. cbn [fst snd].
    destruct (decide (r ∈ elements (ia_get_references ia))) as [Hr|Hr];
      pose proof Hr as Hr'; rewrite elem_of_elements in Hr'.
    + rewrite (decide_True (P := r ∈ ia_get_references ia)) by exact Hr'.
      rewrite fmap_cons, list_to_set_cons. cbn [fst]. set_solver.
    + rewrite (decide_False (P := r ∈ ia_get_references ia)) by exact Hr'.
      reflexivity.
Qed.

Lemma NoDup_filter_keys (P : Entity * Entity * Interaction → Prop)
    `{∀ p, Decision (P p)} (items : list (Entity * Entity * Interaction)) :
  NoDup (dict_keys items) → NoDup (filter P items).*1.
Proof.
  unfold dict_keys. induction items as [|p items IH]; [auto|].
  rewrite fmap_cons, NoDup_cons. intros [Hp Hnd]. rewrite filter_cons.
  destruct (decide (P p)); [|auto].
  rewrite fmap_cons. apply NoDup_cons. split; [|auto].
  intros Hin. apply Hp. apply list_elem_of_fmap in Hin as (q & -> & Hq).
  apply list_elem_of_filter in Hq as [_ Hq].
  apply list_elem_of_fmap. eauto.
Qed.

(** X19. [interactions_by_reference] files under a reference the pairs of
    exactly the interactions that cite it; when no pair is stored twice,
    the size of that set is the count
    [numof_interactions_per_reference] gives for the reference. *)
Theorem interactions_by_reference_agrees net ref :
  (∀ k, k ∈ interactions_by_reference net !!! ref ↔
        ∃ ia, (k, ia) ∈ interactions net ∧ ref ∈ ia_get_references ia)
  ∧ (NoDup (dict_keys (interactions net)) →
     size (interactions_by_reference net !!! ref)
     = numof_interactions_per_reference net !!! ref).
Proof.
  assert (H : interactions_by_reference net !!! ref
              = list_to_set
                  (filter (fun p : Entity * Entity * Interaction =>
                             ref ∈ ia_get_references p.2)
                     (interactions net)).*1).
  { unfold interactions_by_reference. rewrite by_ref_outer.
    rewrite lookup_total_empty. set_solver. }
  split.
  - intros k. rewrite H, elem_of_list_to_set, list_elem_of_fmap. split.
    + intros ([k' ia] & -> & Hin).
      apply list_elem_of_filter in Hin as [Hr Hin]. eauto.
    + intros (ia & Hin & Hr). exists (k, ia). split; [reflexivity|].
      apply list_elem_of_filter. auto.
  - intros Hnd. rewrite H.
    rewrite numof_lookup_total.
    rewrite size_list_to_set by (apply NoDup_filter_keys; exact Hnd).
    apply length_fmap.
Qed.

Lemma interactions_by_reference_agrees_witness :
  size (interactions_by_reference net_undirected !!! "100")
  = numof_interactions_per_reference net_undirected !!! "100".
Proof.
  apply (proj2 (interactions_by_reference_agrees net_undirected "100")).
  vm_decide.
Defined.

End ReferenceProps.

(** * Path search: what a returned path is *)

Module PathMoreProps.
Import Examples PathProps.

Lemma linked_snoc partners (path : list Entity) x node :
  linked partners (path ++ [x]) →
  node ∈ partners (length (path ++ [x]) - 1)%nat x →
  linked partners ((path ++ [x]) ++ [node]).
Proof.
  intros Hl Hnode i u v Hu Hv.
  rewrite length_app in Hnode. cbn [length] in Hnode.
  replace (length path + 1 - 1)%nat with (length path) in Hnode by lia.
  apply lookup_snoc_Some in Hv as [[Hlt Hv] | [Hi ->]].
  - rewrite lookup_app_l in Hu by lia. exact (Hl i u v Hu Hv).
  - rewrite length_app in Hi. cbn [length] in Hi.
    assert (i = length path) by lia. subst i.
    rewrite lookup_app_l in Hu by (rewrite length_app; cbn [length]; lia).
    rewrite lookup_app_r in Hu by lia.
    rewrite Nat.sub_diag in Hu. inversion Hu; subst. exact Hnode.
Qed.

Section Soundness.
Variable partners : nat → Entity → gset Entity.
Variable loops : bool.
Variables minlen maxlen : nat.

Lemma complete_sound start end_ path :
  linked partners (path ++ [start]) →
  (length (path ++ [start]) ≤ maxlen + 1)%nat →
  path_complete loops minlen maxlen start end_ (path ++ [start]) = true →
  sound_from partners loops minlen maxlen (path ++ [start]) end_ (path ++ [start]).
Proof.
  intros Hl Hlen Hc. split; [reflexivity|]. split; [exact Hl|]. split.
  - split; [|exact Hlen]. unfold path_complete in Hc.
    apply andb_true_iff in Hc as [Hc _]. apply Nat.leb_le in Hc. exact Hc.
  - exists start. split; [apply last_snoc | exact Hc].
Qed.

Lemma find_all_paths_aux_sound fuel : ∀ start end_ path ps,
  linked partners (path ++ [start]) →
  (length (path ++ [start]) ≤ maxlen + 1)%nat →
  find_all_paths_aux partners loops minlen maxlen fuel start end_ path
  = Some ps →
  ∀ p, p ∈ ps → sound_from partners loops minlen maxlen (path ++ [start]) end_ p.
Proof.
  induction fuel as [|fuel IH]; intros start end_ path ps Hl Hlen;
    cbn [find_all_paths_aux]; cbv zeta.
  - destruct (path_complete _ _ _ _ _ _) eqn:Hc.
    + intros H p Hp. inversion H; subst.
      apply list_elem_of_singleton in Hp. subst p.
      apply complete_sound; assumption.
    + destruct (length (path ++ [start]) <=? maxlen)%nat; [discriminate|].
      intros H p Hp. inversion H; subst. apply elem_of_nil in Hp.
      contradiction.
  - destruct (path_complete _ _ _ _ _ _) eqn:Hc.
    + intros H p Hp. inversion H; subst.
      apply list_elem_of_singleton in Hp. subst p.
      apply complete_sound; assumption.
    + destruct (Nat.leb_spec (length (path ++ [start])) maxlen) as [Hle|Hgt].
      * intros H. apply fmap_Some in H. destruct H as (k & Hk & ->).
        eapply mapM_join_forall; [|exact Hk].
        intros node r Hnode Hr p Hp.
        assert (Hnode' : node ∈ partners (length (path ++ [start]) - 1)%nat
                                  start).
        { apply elem_of_elements in Hnode. destruct loops; set_solver. }
        specialize (IH node end_ (path ++ [start]) r
                      (linked_snoc _ _ _ _ Hl Hnode')).
        destruct (IH ltac:(rewrite length_app; cbn [length]; lia) Hr p Hp)
          as (Hh & Hrest).
        split; [|exact Hrest]. rewrite Hh.
        destruct path; reflexivity.
      * intros H p Hp. inversion H; subst. apply elem_of_nil in Hp.
        contradiction.
Qed.
End Soundness.

(** X20. Every path [find_paths] returns starts at one of the start
    nodes, has between [max(1, minlen)] and [maxlen] steps, takes each
    step to a partner that [partners] gives for this step, and ends as
    asked: at one of the end nodes, or, when loops are searched, where it
    started, or, with no end node and no loops, after [maxlen] steps. *)
Theorem find_paths_sound partners start end_ loops maxlen minlen paths p :
  find_paths partners start end_ loops maxlen minlen = Some paths →
  p ∈ paths →
  (∃ s, s ∈ start ∧ head p = Some s)
  ∧ (Nat.max 1 minlen + 1 ≤ length p ∧ length p ≤ maxlen + 1)%nat
  ∧ linked partners p
  ∧ ∃ t, last p = Some t
         ∧ (t ∈ end_
            ∨ (loops = true ∧ head p = last p)
            ∨ (end_ = [] ∧ loops = false ∧ length p = (maxlen + 1)%nat)).
Proof.
  unfold find_paths. cbv zeta. intros H Hp.
  apply fmap_Some in H as (k & Hk & ->).
  revert p Hp.
  eapply (mapM_join_forall _
            (fun p =>
               (∃ s, s ∈ start ∧ head p = Some s)
               ∧ (Nat.max 1 minlen + 1 ≤ length p ∧ length p ≤ maxlen + 1)%nat
               ∧ linked partners p
               ∧ ∃ t, last p = Some t
                      ∧ (t ∈ end_
                         ∨ (loops = true ∧ head p = last p)
                         ∨ (end_ = [] ∧ loops = false
                            ∧ length p = (maxlen + 1)%nat)))); [|exact Hk].
  intros [s e] r Hse Hr p Hp. cbn [fst snd] in Hr.
  apply list_elem_of_bind in Hse as (s' & Hse & Hs).
  apply list_elem_of_bind in Hse as (e' & Hse & He).
  apply list_elem_of_singleton in Hse. inversion Hse; subst s' e'.
  destruct (find_all_paths_aux_sound partners loops (Nat.max 1 minlen) maxlen
              maxlen s e [] r) with (p := p)
    as (Hh & Hl & Hlen & t & Ht & Hc); auto.
  { intros i u v Hu Hv. destruct i; discriminate. }
  { cbn [app length]. lia. }
  split; [exists s; split; [exact Hs | exact Hh]|].
  split; [exact Hlen|]. split; [exact Hl|].
  exists t. split; [exact Ht|].
  unfold path_complete in Hc. apply andb_true_iff in Hc as [_ Hc].
  apply orb_true_iff in Hc as [Hc|Hc];
    [apply orb_true_iff in Hc as [Hc|Hc]|].
  - apply bool_decide_eq_true in Hc. left. subst e.
    destruct end_ as [|e0 end_]; cbn [fmap] in He.
    + apply list_elem_of_singleton in He. discriminate.
    + apply list_elem_of_fmap in He as (t' & Heq & Hin).
      inversion Heq; subst. exact Hin.
  - apply andb_true_iff in Hc as [Hc Hn].
    apply andb_true_iff in Hc as [He' Hlo].
    apply bool_decide_eq_true in He'. subst e.
    apply Nat.eqb_eq in Hn. apply negb_true_iff in Hlo.
    right. right. split; [|auto].
    destruct end_ as [|e0 end_]; [reflexivity|].
    apply list_elem_of_fmap in He as (t' & Heq & _). discriminate.
  - apply andb_true_iff in Hc as [Hlo Hc].
    apply bool_decide_eq_true in Hc. right. left. auto.
Qed.

Lemma find_paths_sound_witness :
  linked partners_AB [eA; eB; eA].
Proof.
  refine (proj1 (proj2 (proj2 (find_paths_sound partners_AB [eA] [] true 4 2
                                 [[eA; eB; eA]] [eA; eB; eA] _ _)))).
  - vm_decide.
  - apply list_elem_of_here.
Defined.

(** X21. The per-hop arguments: a single value is used for every hop; a
    tuple gives hop [i] its element [i], and the hops beyond its end its
    last element; a tuple longer than [maxlen] is cut.  An empty tuple
    fails. *)
Theorem interaction_arg_pads {A} (value : ArgValue A) (maxlen : nat) :
  let vs := match value with Tuple l => l | Scalar v => [v] end in
  (vs = [] → interaction_arg value maxlen = None)
  ∧ (vs ≠ [] →
     ∃ l, interaction_arg value maxlen = Some l
          ∧ length l = maxlen
          ∧ ∀ i, (i < maxlen)%nat →
                 l !! i = vs !! Nat.min i (length vs - 1)).
Proof.
  intros vs. unfold interaction_arg. fold vs. split.
  - intros ->. reflexivity.
  - intros Hne. destruct (last vs) as [v|] eqn:Hlast.
    2:{ apply last_None in Hlast. contradiction. }
    eexists. split; [reflexivity|].
    assert (Hlen : (0 < length vs)%nat).
    { destruct vs; [contradiction | cbn [length]; lia]. }
    split.
    + rewrite length_take, length_app, length_replicate. lia.
    + intros i Hi. rewrite lookup_take_lt by exact Hi.
      destruct (Nat.lt_ge_cases i (length vs)) as [Hlt|Hge].
      * rewrite lookup_app_l by exact Hlt. f_equal. lia.
      * rewrite lookup_app_r by exact Hge.
        rewrite lookup_replicate_2 by lia.
        rewrite Nat.min_r by lia.
        rewrite last_lookup in Hlast. rewrite <- Hlast. f_equal. lia.
Qed.

Lemma interaction_arg_pads_witness :
  ∃ l, interaction_arg (Tuple ["negative"; "positive"]) 4 = Some l
       ∧ length l = 4%nat.
Proof.
  destruct (proj2 (interaction_arg_pads (Tuple ["negative"; "positive"]) 4)
              ltac:(discriminate)) as (l & H1 & H2 & _).
  exists l. split; assumption.
Defined.

End PathMoreProps.

(** * Ingest: filters, signs, translation and the interaction of an edge *)

Module IngestMoreProps.
Import Examples EvidenceProps InvariantProps InteractionMoreProps
  NetworkProps NetworkMoreProps SweepProps.

Section RowFacts.
Variable split : option string → string → list string.

Lemma negative_loop_spec line nf :
  Forall (fun f => is_Some (py_index line (flt_col f))) nf →
  ∃ b, negative_loop split line nf = Some b
       ∧ (b = true ↔
          ∃ f v, f ∈ nf ∧ this_val split line f = Some v
                 ∧ v ∩ flt_values f ≠ ∅).
Proof.
  induction 1 as [|f nf [field Hf] _ (b & Hb & IH)]; cbn [negative_loop].
  - exists false. split; [reflexivity|]. split; [discriminate|].
    intros (f & v & Hin & _). apply not_elem_of_nil in Hin. contradiction.
  - unfold this_val at 1. rewrite Hf.
    set (v := match flt_sep f with
              | Some sep => list_to_set (split sep field)
              | None => {[ field ]}
              end : gset string).
    assert (Hv : this_val split line f = Some v)
      by (unfold this_val; rewrite Hf; reflexivity).
    destruct (bool_decide (v ∩ flt_values f ≠ ∅)) eqn:E.
    + apply bool_decide_eq_true in E. exists true. split; [reflexivity|].
      split; [|reflexivity]. intros _. exists f, v.
      split; [left|]. auto.
    + apply bool_decide_eq_false in E. exists b. split; [exact Hb|].
      rewrite IH. split.
      * intros (f' & v' & Hin & H'). exists f', v'. split; [right|]; auto.
      * intros (f' & v' & Hin & Hv' & Hne).
        apply elem_of_cons in Hin as [-> | Hin]; [|eauto].
        rewrite Hv in Hv'. inversion Hv'; subst. contradiction.
Qed.

Lemma positive_loop_spec line pf :
  Forall (fun f => is_Some (py_index line (flt_col f))) pf →
  ∃ b, positive_loop split line pf = Some b
       ∧ (b = true ↔
          ∃ f v, f ∈ pf ∧ this_val split line f = Some v
                 ∧ v ∩ flt_values f = ∅).
Proof.
  induction 1 as [|f pf [field Hf] _ (b & Hb & IH)]; cbn [positive_loop].
  - exists false. split; [reflexivity|]. split; [discriminate|].
    intros (f & v & Hin & _). apply not_elem_of_nil in Hin. contradiction.
  - unfold this_val at 1. rewrite Hf.
    set (v := match flt_sep f with
              | Some sep => list_to_set (split sep field)
              | None => {[ field ]}
              end : gset string).
    assert (Hv : this_val split line f = Some v)
      by (unfold this_val; rewrite Hf; reflexivity).
    destruct (bool_decide (v ∩ flt_values f = ∅)) eqn:E.
    + apply bool_decide_eq_true in E. exists true. split; [reflexivity|].
      split; [|reflexivity]. intros _. exists f, v.
      split; [left|]. auto.
    + apply bool_decide_eq_false in E. exists b. split; [exact Hb|].
      rewrite IH. split.
      * intros (f' & v' & Hin & H'). exists f', v'. split; [right|]; auto.
      * intros (f' & v' & Hin & Hv' & Hne).
        apply elem_of_cons in Hin as [-> | Hin]; [|eauto].
        rewrite Hv in Hv'. inversion Hv'; subst. contradiction.
Qed.

(** X22. [_filters] on a record that has every column the filters name:
    it returns, and the record is discarded exactly when a negative
    filter finds one of its values in its column or a positive filter
    finds none of its values in its column. *)
Theorem filters_discards line positive_filters negative_filters :
  Forall (fun f => is_Some (py_index line (flt_col f)))
    (negative_filters ++ positive_filters) →
  ∃ b, _filters split line positive_filters negative_filters = Some b
       ∧ (b = true ↔
          (∃ f v, f ∈ negative_filters ∧ this_val split line f = Some v
                  ∧ v ∩ flt_values f ≠ ∅)
          ∨ (∃ f v, f ∈ positive_filters ∧ this_val split line f = Some v
                    ∧ v ∩ flt_values f = ∅)).
Proof.
  intros Hall. apply Forall_app in Hall as [Hn Hp].
  destruct (negative_loop_spec line _ Hn) as (bn & Hbn & Hn').
  destruct (positive_loop_spec line _ Hp) as (bp & Hbp & Hp').
  unfold _filters. rewrite Hbn. destruct bn.
  - exists true. split; [reflexivity|]. split; [|reflexivity].
    intros _. left. apply Hn'. reflexivity.
  - exists bp. split; [exact Hbp|]. rewrite Hp'. split; [auto|].
    intros [H|H]; [|exact H]. apply Hn' in H. discriminate.
Qed.

(** X23. A resource with a sign column and no direction column takes the
    direction from the sign column, with both lists of sign values as the
    values of a directed record: such a record is directed exactly when
    [_process_sign] gives it a sign. *)
Theorem direction_from_sign_column line col field pos neg sep :
  py_index line col = Some field →
  _process_direction split line (Some col) (Some (pos ∪ neg)) sep
  = Some ((_process_sign split field pos neg sep).1
          || (_process_sign split field pos neg sep).2).
Proof.
  intros H. unfold _process_direction, _process_sign. rewrite H.
  cbn [fst snd]. f_equal.
  generalize (list_to_set (split sep field) : gset string). intros s.
  destruct (bool_decide (s ∩ pos ≠ ∅)) eqn:E1;
    [apply bool_decide_eq_true in E1 | apply bool_decide_eq_false in E1];
    (destruct (bool_decide (s ∩ neg ≠ ∅)) eqn:E2;
     [apply bool_decide_eq_true in E2 | apply bool_decide_eq_false in E2]);
    cbn [orb];
    try (apply bool_decide_eq_true; set_solver).
  apply bool_decide_eq_false.
  apply dec_stable in E1. apply dec_stable in E2. set_solver.
Qed.
End RowFacts.

Lemma filters_discards_witness :
  ∃ b, _filters (fun _ s => [s]) ["P1"; "P2"; "x"]
         [mkRowFilter 2 {[ "x" ]} None] [] = Some b.
Proof.
  destruct (filters_discards (fun _ s => [s]) ["P1"; "P2"; "x"]
              [mkRowFilter 2 {[ "x" ]} None] []) as (b & Hb & _).
  - apply Forall_cons. split; [|apply Forall_nil_2].
    cbn. eauto.
  - exists b. exact Hb.
Defined.

Lemma direction_from_sign_column_witness :
  _process_direction (fun _ s => [s]) ["P1"; "P2"; "+"] (Some 2)
    (Some ({[ "+" ]} ∪ {[ "-" ]})) None
  = Some ((_process_sign (fun _ s => [s]) "+" {[ "+" ]} {[ "-" ]} None).1
          || (_process_sign (fun _ s => [s]) "+" {[ "+" ]} {[ "-" ]} None).2).
Proof.
  apply (direction_from_sign_column (fun _ s => [s]) ["P1"; "P2"; "+"] 2 "+").
  reflexivity.
Defined.

Section MappingFacts.
Context {Payload : Type}.
Variable map_name : string → string → string → Z → bool → list string.
Variable default_name_types : gmap string string.

Lemma _map_edge_elem (e : RawEdge Payload) x l m :
  _map_edge map_name default_name_types e x = Some l →
  m ∈ l ↔
  edge m = e
  ∧ default_name_types !! entity_type_a e = Some (default_name_type_a m)
  ∧ default_name_types !! entity_type_b e = Some (default_name_type_b m)
  ∧ default_name_a m
    ∈ map_name (id_a e) (id_type_a e) (default_name_type_a m) (taxon_a e) x
  ∧ default_name_b m
    ∈ map_name (id_b e) (id_type_b e) (default_name_type_b m) (taxon_b e) x.
Proof.
  unfold _map_edge.
  destruct (default_name_types !! entity_type_a e) as [ta|]; [|discriminate].
  destruct (default_name_types !! entity_type_b e) as [tb|]; [|discriminate].
  intros H. inversion H; subst l. clear H.
  rewrite list_elem_of_bind. split.
  - intros (na & Hm & Hna). apply list_elem_of_bind in Hm as (nb & Hm & Hnb).
    apply list_elem_of_singleton in Hm. subst m. cbn. auto.
  - intros (He & Hta & Htb & Hna & Hnb). destruct m as [e' na ta' nb tb'].
    cbn in *. subst e'. inversion Hta; inversion Htb; subst.
    exists na. split; [|exact Hna]. apply list_elem_of_bind.
    exists nb. split; [|exact Hnb]. apply list_elem_of_singleton. reflexivity.
Qed.

Lemma _map_edge_length (e : RawEdge Payload) x l ta tb :
  default_name_types !! entity_type_a e = Some ta →
  default_name_types !! entity_type_b e = Some tb →
  _map_edge map_name default_name_types e x = Some l →
  length l
  = (length (map_name (id_a e) (id_type_a e) ta (taxon_a e) x)
     * length (map_name (id_b e) (id_type_b e) tb (taxon_b e) x))%nat.
Proof.
  unfold _map_edge. intros -> -> H. inversion H; subst l. clear H.
  generalize (map_name (id_a e) (id_type_a e) ta (taxon_a e) x).
  generalize (map_name (id_b e) (id_type_b e) tb (taxon_b e) x).
  intros lb la. induction la as [|na la IH]; [reflexivity|].
  cbn [mbind list_bind]. rewrite length_app. cbn [length Nat.mul].
  f_equal; [|exact IH].
  clear. induction lb as [|nb lb IH]; [reflexivity|].
  cbn. f_equal. exact IH.
Qed.

(** X24. The translation of a list of edges succeeds exactly when every
    entity type has a default name type.  The translated edges are then
    those that carry one of the edges, the default name types of its two
    entity types, and one of the names [map_name] gives for each of its
    two identifiers: an edge with [n] names for one side and [m] for the
    other gives [n * m] edges, and none when a side has no name. *)
Theorem map_list_translates (lst : list (RawEdge Payload)) x :
  (is_Some (_map_list map_name default_name_types lst x) ↔
   Forall (fun e => is_Some (default_name_types !! entity_type_a e)
                    ∧ is_Some (default_name_types !! entity_type_b e)) lst)
  ∧ (∀ l, _map_list map_name default_name_types lst x = Some l →
     (∀ m, m ∈ l ↔
        edge m ∈ lst
        ∧ default_name_types !! entity_type_a (edge m)
          = Some (default_name_type_a m)
        ∧ default_name_types !! entity_type_b (edge m)
          = Some (default_name_type_b m)
        ∧ default_name_a m
          ∈ map_name (id_a (edge m)) (id_type_a (edge m))
              (default_name_type_a m) (taxon_a (edge m)) x
        ∧ default_name_b m
          ∈ map_name (id_b (edge m)) (id_type_b (edge m))
              (default_name_type_b m) (taxon_b (edge m)) x)
     ∧ length l
       = sum_list
           ((fun e =>
               length (map_name (id_a e) (id_type_a e)
                         (default_name_types !!! entity_type_a e)
                         (taxon_a e) x)
               * length (map_name (id_b e) (id_type_b e)
                           (default_name_types !!! entity_type_b e)
                           (taxon_b e) x))%nat <$> lst)).
Proof.
  induction lst as [|e lst [IHt IHl]]; cbn [_map_list].
  - split.
    + split; [intros _; apply Forall_nil_2 | eauto].
    + intros l H. inversion H; subst. split; [|reflexivity].
      intros m. split.
      * intros Hm. apply not_elem_of_nil in Hm. contradiction.
      * intros [Hm _]. apply not_elem_of_nil in Hm. contradiction.
  - destruct (_map_edge map_name default_name_types e x) as [mapped|] eqn:Em.
    + assert (Hty : is_Some (default_name_types !! entity_type_a e)
                    ∧ is_Some (default_name_types !! entity_type_b e)).
      { unfold _map_edge in Em.
        destruct (default_name_types !! entity_type_a e); [|discriminate].
        destruct (default_name_types !! entity_type_b e); [|discriminate].
        eauto. }
      destruct (_map_list map_name default_name_types lst x) as [more|] eqn:El.
      * split.
        -- split; [|eauto]. intros _. apply Forall_cons. split; [exact Hty|].
           apply IHt. eauto.
        -- intros l H. inversion H; subst l. clear H.
           destruct (IHl more eq_refl) as [IHm IHn]. split.
           ++ intros m. rewrite elem_of_app, (_map_edge_elem _ _ _ _ Em), IHm.
              rewrite elem_of_cons. split.
              ** intros [(He & H)|(He & H)]; [rewrite He|]; tauto.
              ** intros ([He|He] & H); [left; rewrite <- He | right]; tauto.
           ++ rewrite length_app, fmap_cons. cbn [sum_list sum_list_with].
              rewrite <- IHn. f_equal.
              destruct Hty as [[ta Hta] [tb Htb]].
              rewrite (_map_edge_length _ _ _ _ _ Hta Htb Em).
              rewrite !lookup_total_alt, Hta, Htb. reflexivity.
      * split; [|discriminate]. split.
        -- intros [? H]; discriminate.
        -- intros H. apply Forall_cons in H as [_ H].
           apply IHt in H as [? H]. discriminate.
    + split; [|discriminate]. split.
      * intros [? H]; discriminate.
      * intros H. apply Forall_cons in H as [[[ta Hta] [tb Htb]] _].
        unfold _map_edge in Em. rewrite Hta, Htb in Em. discriminate.
Qed.
End MappingFacts.

End IngestMoreProps.

(** * Ingest: the interaction of an edge and the loading of a resource *)

Module EmissionProps.
Import Examples IngestExamples EvidenceProps InvariantProps
  InteractionMoreProps NetworkProps NetworkMoreProps SweepProps.

Lemma evs_add_empty_l (x : gmap NetworkResource (gset string)) :
  evs_add ∅ x = x.
Proof.
  apply map_eq; intros r. rewrite evs_add_lookup, lookup_empty.
  destruct (x !! r); reflexivity.
Qed.

Lemma add_evidence_directed ia ev x y eff :
  Directed x y = a_b ia ∨ Directed x y = b_a ia →
  add_evidence ia ev (Directed x y) eff
  = mkInteraction (a ia) (b ia) (evs_add (evidences ia) ev)
      (slot_add (Directed x y) ev (direction ia))
      (if effect_is_positive eff
       then slot_add (Directed x y) ev (positive ia) else positive ia)
      (if effect_is_positive eff then negative ia
       else if effect_is_negative eff
            then slot_add (Directed x y) ev (negative ia)
            else negative ia).
Proof.
  intros H. unfold add_evidence.
  rewrite (direction_key_valid ia (Directed x y)) by tauto.
  rewrite bool_decide_eq_true_2 by discriminate.
  destruct (effect_is_positive eff); [reflexivity|].
  destruct (effect_is_negative eff); reflexivity.
Qed.

Lemma add_evidence_undirected ia ev eff :
  add_evidence ia ev Undirected eff
  = mkInteraction (a ia) (b ia) (evs_add (evidences ia) ev)
      (slot_add Undirected ev (direction ia)) (positive ia) (negative ia).
Proof.
  unfold add_evidence. cbn [direction_key].
  rewrite bool_decide_eq_false_2 by (intros H; apply H; reflexivity).
  reflexivity.
Qed.

Lemma new_interaction_lookups x y :
  let ia := new_interaction x y in
  (Directed x y = a_b ia ∨ Directed x y = b_a ia)
  ∧ key ia = sorted_pair x y
  ∧ direction ia !! Directed x y = Some ∅
  ∧ direction ia !! Directed y x = Some ∅
  ∧ direction ia !! Undirected = Some ∅
  ∧ positive ia !! Directed x y = Some ∅
  ∧ positive ia !! Directed y x = Some ∅
  ∧ negative ia !! Directed x y = Some ∅
  ∧ negative ia !! Directed y x = Some ∅.
Proof.
  unfold new_interaction, key, a_b, b_a, sorted_pair.
  destruct (entity_lt y x);
    cbn [fst snd a b direction positive negative];
    (split; [auto|]); (split; [reflexivity|]);
    rewrite !lookup_insert; repeat case_decide; try congruence; auto 10.
Qed.

Section EdgeFacts.
Context {Attrs : Type}.
Variable entity_label : string → string → string → Z → option string.

(** X25. The interaction [_add_update_edge] builds from an edge, [E]
    being the evidences of the edge and [(entity_a, entity_b)] its nodes
    in the order of the record: its key is the sorted pair, its evidences
    are [E]; [E] is under the direction [(entity_a, entity_b)] when the
    record is directed or has a sign, and under ['undirected'] when the
    record is not directed -- a signed record that is not directed has
    it under both; the signs are under the same direction; the reverse
    direction stays empty. *)
Theorem edge_interaction_slots (e : MappedEdge (EdgeData Attrs)) :
  let entity_a := edge_entity_a entity_label e in
  let entity_b := edge_entity_b entity_label e in
  let d := payload (edge e) in
  let ia := edge_interaction entity_label e in
  key ia = sorted_pair entity_a entity_b
  ∧ evidences ia = evidences_ d
  ∧ direction ia !! Directed entity_a entity_b
    = Some (if is_directed_ d || positive_ d || negative_ d
            then evidences_ d else ∅)
  ∧ direction ia !! Undirected
    = Some (if is_directed_ d then ∅ else evidences_ d)
  ∧ positive ia !! Directed entity_a entity_b
    = Some (if positive_ d then evidences_ d else ∅)
  ∧ negative ia !! Directed entity_a entity_b
    = Some (if negative_ d then evidences_ d else ∅)
  ∧ (entity_a ≠ entity_b →
     direction ia !! Directed entity_b entity_a = Some ∅
     ∧ positive ia !! Directed entity_b entity_a = Some ∅
     ∧ negative ia !! Directed entity_b entity_a = Some ∅).
Proof.
  intros entity_a entity_b d ia. subst ia. unfold edge_interaction.
  fold entity_a entity_b d. cbv zeta.
  destruct (new_interaction_lookups entity_a entity_b)
    as (Hk & Hkey & Hd1 & Hd2 & Hd3 & Hp1 & Hp2 & Hn1 & Hn2).
  cbv zeta in *.
  set (ia0 := new_interaction entity_a entity_b) in *.
  set (E := evidences_ d).
  assert (He0 : evidences ia0 = ∅) by reflexivity.
  assert (Hne : entity_a ≠ entity_b →
                Directed entity_a entity_b ≠ Directed entity_b entity_a)
    by (intros H1 H2; inversion H2; congruence).
  assert (Hpos : effect_is_positive (EffInt 1) = true) by reflexivity.
  assert (Hneg : effect_is_positive (EffInt (-1)) = false
                 ∧ effect_is_negative (EffInt (-1)) = true)
    by (split; reflexivity).
  assert (Hzero : effect_is_positive (EffInt 0) = false
                  ∧ effect_is_negative (EffInt 0) = false)
    by (split; reflexivity).
  destruct Hneg as [Hneg1 Hneg2]. destruct Hzero as [Hz1 Hz2].
  destruct (is_directed_ d), (positive_ d), (negative_ d);
    rewrite ?add_evidence_undirected;
    repeat (match goal with
            | |- context [add_evidence ?i ?ev (Directed ?x ?y) ?eff] =>
                lazymatch i with
                | context [add_evidence] => fail
                | _ => rewrite (add_evidence_directed i ev x y eff)
                         by (cbn [a b a_b b_a] in *; exact Hk)
                end
            end);
    rewrite ?Hpos, ?Hneg1, ?Hneg2, ?Hz1, ?Hz2;
    cbn [key a b evidences direction positive negative orb];
    rewrite ?lookup_slot_add, ?Hd1, ?Hd2, ?Hd3, ?Hp1, ?Hp2, ?Hn1, ?Hn2, ?He0;
    cbn [fmap option_fmap option_map];
    repeat (match goal with
            | |- context [decide (?k = ?k)] =>
                rewrite (decide_True (P := k = k)) by reflexivity
            | |- context [decide (Undirected = Directed ?x ?y)] =>
                rewrite (decide_False (P := Undirected = Directed x y))
                  by discriminate
            | |- context [decide (Directed ?x ?y = Undirected)] =>
                rewrite (decide_False (P := Directed x y = Undirected))
                  by discriminate
            end);
    rewrite ?evs_add_empty_l, ?evs_add_diag;
    (split; [exact Hkey|]); (split; [reflexivity|]);
    (split; [reflexivity|]); (split; [reflexivity|]);
    (split; [reflexivity|]); (split; [reflexivity|]);
    intros Hab; specialize (Hne Hab);
    rewrite ?lookup_slot_add, ?Hd2, ?Hp2, ?Hn2;
    cbn [fmap option_fmap option_map];
    repeat (match goal with
            | |- context [decide (Undirected = Directed ?x ?y)] =>
                rewrite (decide_False (P := Undirected = Directed x y))
                  by discriminate
            | |- context [decide (Directed entity_a entity_b
                                  = Directed entity_b entity_a)] =>
                rewrite (decide_False (P := Directed entity_a entity_b
                                           = Directed entity_b entity_a))
                  by exact Hne
            end);
    auto.
Qed.
End EdgeFacts.

Section LoadFacts.
Context {Attrs : Type}.
Variable update_attrs : Interaction → Attrs → Interaction.
Variable entity_iadd : Entity → Entity → Entity.
Variable unset_interaction_type : Interaction → string → Interaction.
Variable entity_label : string → string → string → Z → option string.
Variable check : string → string → Z → bool.
Hypothesis entity_iadd_identifier :
  ∀ old new, identifier old = identifier new →
             identifier (entity_iadd old new) = identifier old.

Lemma filed_add_node e add net :
  filed_by_identifier net →
  filed_by_identifier (add_node entity_iadd e add net).
Proof.
  intros Hf i n. unfold add_node.
  destruct (Networks.nodes net !! identifier e) as [old|] eqn:E.
  - cbn [Networks.nodes]. rewrite lookup_insert. case_decide as Hi.
    + intros H. inversion H; subst.
      rewrite entity_iadd_identifier; apply (Hf _ _ E).
    + apply Hf.
  - destruct add; [|apply Hf].
    cbn [Networks.nodes]. rewrite lookup_insert. case_decide as Hi.
    + intros H. inversion H; subst. reflexivity.
    + apply Hf.
Qed.

Lemma filed_add_interaction ia attrs od net :
  filed_by_identifier net →
  filed_by_identifier
    (add_interaction update_attrs entity_iadd unset_interaction_type ia attrs
       od net).
Proof.
  intros Hf.
  assert (Hfin : ∀ k ia' ints,
            filed_by_identifier
              (add_interaction_finish update_attrs entity_iadd k ia' attrs od
                 ints net)).
  { intros k ia' ints. unfold add_interaction_finish, adjacency_add.
    cbv zeta. cbn [Networks.nodes].
    apply filed_add_node, filed_add_node. exact Hf. }
  unfold add_interaction. cbv zeta.
  destruct (dict_get _ _); destruct od; try apply Hfin; try exact Hf.
  destruct (bool_decide _); [apply Hfin | exact Hf].
Qed.

Lemma filed_add_edge_list edges od : ∀ net,
  filed_by_identifier net →
  filed_by_identifier
    (_add_edge_list update_attrs entity_iadd unset_interaction_type
       entity_label edges od net).
Proof.
  unfold _add_edge_list.
  induction edges as [|e edges IH]; intros net Hf; cbn [foldl]; [exact Hf|].
  apply IH. unfold _add_update_edge. apply filed_add_interaction, Hf.
Qed.

(** X26. Loading a resource into a network whose nodes are filed under
    their identifiers, [+=] on entities keeping the identifier: after the
    edges are added and [organisms_check] and [remove_zero_degree] have
    run, every node left passes the organism test, the organisms of the
    network are among those asked for, and no entity is left with an
    empty set of interactions. *)
Theorem load_resource_cleans organisms edges only_directions net :
  filed_by_identifier net →
  let net' := load_resource_edges update_attrs entity_iadd
                unset_interaction_type entity_label check organisms edges
                only_directions net in
  (∀ i n, Networks.nodes net' !! i = Some n →
     organism_mismatch check organisms true false n = false)
  ∧ (organisms ≠ ∅ → get_organisms net' ⊆ organisms)
  ∧ zero_degree net' = ∅.
Proof.
  intros Hf net'. subst net'. unfold load_resource_edges.
  set (net1 := _add_edge_list update_attrs entity_iadd
                 unset_interaction_type entity_label edges only_directions
                 net).
  assert (Hf1 : filed_by_identifier net1) by apply filed_add_edge_list, Hf.
  pose proof (fun i n => organisms_check_nodes check organisms true false
                           net1 i n Hf1) as Hkeep.
  pose proof (organisms_check_organisms check organisms true false net1 Hf1)
    as Horg.
  set (net2 := organisms_check check organisms true false net1) in *.
  destruct (remove_isolated_fold (elements (zero_degree net2)) net2)
    as (_ & Ha & Hn).
  { apply NoDup_elements. }
  { intros z Hz. apply elem_of_elements, elem_of_zero_degree in Hz. exact Hz. }
  cbv zeta in Ha, Hn. fold (remove_zero_degree net2) in Ha, Hn.
  assert (Hsub : ∀ i n, Networks.nodes (remove_zero_degree net2) !! i = Some n →
                        Networks.nodes net2 !! i = Some n).
  { intros i n. rewrite Hn. case_decide; [discriminate | auto]. }
  split; [|split].
  - intros i n H. apply Hsub in H. apply (Hkeep _ _ H).
  - intros Hne t Ht. apply elem_of_get_organisms in Ht as (i & n & Hi & Ht).
    apply Horg; [exact Hne|]. apply elem_of_get_organisms.
    exists i, n. split; [apply Hsub, Hi | exact Ht].
  - apply set_eq. intros z. rewrite elem_of_zero_degree, Ha.
    split; [|intros H; apply not_elem_of_empty in H; contradiction].
    case_decide as Hz; [discriminate|].
    rewrite elem_of_elements, elem_of_zero_degree in Hz. contradiction.
Qed.
End LoadFacts.

Lemma load_resource_cleans_witness :
  zero_degree
    (load_resource_edges no_attrs keep_entity remove_interaction_type
       no_label all_listed {[ 9606 ]} [edge_AB] false net_undirected) = ∅.
Proof.
  refine (proj2 (proj2 (load_resource_cleans no_attrs keep_entity
                          remove_interaction_type no_label all_listed _
                          {[ 9606 ]} [edge_AB] false net_undirected _))).
  - intros old new _. reflexivity.
  - apply (bool_decide_unpack
             (map_Forall (fun i n => identifier n = i)
                (Networks.nodes net_undirected))).
    vm_compute. exact I.
Defined.

End EmissionProps.

(** * Interactions: what [get_evidences] can give, what unsetting leaves *)

Module SelectionProps.
Import Examples EvidenceProps InteractionProps InvariantProps
  InteractionMoreProps InteractionQueryProps.

Lemma evs_le_add_lub x y z :
  evs_le x z → evs_le y z → evs_le (evs_add x y) z.
Proof.
  intros Hx Hy r refs. rewrite evs_add_lookup.
  destruct (x !! r) as [r1|] eqn:E1; destruct (y !! r) as [r2|] eqn:E2;
    cbn; intros H; inversion H; subst; clear H.
  - destruct (Hx _ _ E1) as (refs1 & H1 & Hs1).
    destruct (Hy _ _ E2) as (refs2 & H2 & Hs2).
    rewrite H1 in H2. inversion H2; subst.
    exists refs2. split; [exact H1 | set_solver].
  - apply (Hx _ _ E1).
  - apply (Hy _ _ E2).
Qed.

Lemma evs_le_sum l z :
  Forall (fun e => evs_le e z) l → evs_le (evs_sum l) z.
Proof.
  unfold evs_sum. intros Hl.
  assert (H : ∀ acc, evs_le acc z → evs_le (foldl evs_add acc l) z).
  { induction Hl as [|e l He _ IH]; intros acc Hacc; cbn [foldl];
      [exact Hacc|].
    apply IH, evs_le_add_lub; assumption. }
  apply H, evs_le_empty.
Qed.

Lemma evs_le_filter f x : evs_le (evs_filter f x) x.
Proof.
  intros r refs H. unfold evs_filter in H.
  apply map_lookup_filter_Some in H as [H _].
  exists refs. split; [exact H | reflexivity].
Qed.

(** Every evidence under a direction is among the evidences. *)
Lemma direction_within_reachable ia :
  reachable ia → slots_ok (direction ia) (direction ia) (evidences ia).
Proof.
  induction 1 as [x y|ia ev d eff _ IH|ia other _ IH _ IHo|ia other _ IH _ IHo
                 |ia d only_sign resource itype v _ IH
                 |ia d sign resource itype v _ IH].
  - intros k e. unfold new_interaction. cbn [direction evidences].
    rewrite !lookup_insert. repeat case_decide; rewrite ?lookup_empty;
      intros Heq; inversion Heq; subst;
      (eexists; split; [reflexivity|]; split; apply evs_le_empty).
  - unfold add_evidence. destruct (direction_key ia d); [|exact IH].
    repeat (match goal with
            | |- context [if ?c then _ else _] => destruct c
            end); cbn [direction evidences]; apply slots_ok_add_both, IH.
  - unfold merge. destruct (negb _); [exact IH|].
    cbn [direction evidences]. apply slots_ok_merge_keys; auto.
  - unfold iadd. destruct (bool_decide _); [exact IH|].
    unfold _merge_evidences. cbn [direction evidences].
    apply slots_ok_merge_slots; auto.
  - unfold unset_direction. destruct (direction_key ia d); [|exact IH].
    destruct only_sign as [s|].
    + destruct (bool_decide (s = "")).
      * cbn [direction evidences]. apply slots_ok_unset_both, IH.
      * destruct (_effect_synonyms (Some s)); [|exact IH].
        destruct (bool_decide _); exact IH.
    + cbn [direction evidences]. apply slots_ok_unset_both, IH.
  - unfold unset_sign, unset_direction.
    destruct (direction_key ia d); [|exact IH].
    destruct (bool_decide (sign = "")).
    + cbn [direction evidences]. apply slots_ok_unset_both, IH.
    + destruct (_effect_synonyms (Some sign)); [|exact IH].
      destruct (bool_decide _); exact IH.
Qed.

Lemma slots_values_within
    (s d : gmap DirKey (gmap NetworkResource (gset string))) evs :
  slots_ok s d evs → Forall (fun e => evs_le e evs) (dict_values s).
Proof.
  intros Hok. unfold dict_values. apply Forall_forall. intros e He.
  apply list_elem_of_fmap in He as ([k e'] & -> & Hin).
  apply elem_of_map_to_list in Hin.
  destruct (Hok _ _ Hin) as (_ & _ & _ & H). exact H.
Qed.

Lemma slot_total_within
    (s d : gmap DirKey (gmap NetworkResource (gset string))) evs k :
  slots_ok s d evs → evs_le (s !!! k) evs.
Proof.
  intros Hok. rewrite lookup_total_alt.
  destruct (s !! k) as [e|] eqn:E; cbn; [|apply evs_le_empty].
  destruct (Hok _ _ E) as (_ & _ & _ & H). exact H.
Qed.

(** X27. Whatever direction, effect and filter are asked for --
    [direction = True] only on an interaction with directed evidence, the
    [sum] being the integer 0 otherwise, on which [filter] fails --
    [get_evidences] on a reachable interaction gives only evidences of
    the interaction: each is of a resource that has an evidence in
    [evidences], with no reference that one does not have. *)
Theorem get_evidences_within ia dir effect f :
  reachable ia →
  (dir = DirTrue → which_directions ia ≠ []) →
  evs_le (get_evidences ia dir effect f) (evidences ia).
Proof.
  intros Hreach _.
  destruct (I1_reachable _ Hreach) as [[Hpos Hneg] _].
  pose proof (direction_within_reachable _ Hreach) as Hdir.
  unfold get_evidences.
  eapply evs_le_trans; [apply evs_le_filter|].
  assert (Hby : evs_le
                  match dir with
                  | DirTrue =>
                      evs_sum (map (fun d => direction ia !!! d)
                                 (which_directions ia))
                  | DirIs d =>
                      match direction ia !! d with
                      | Some e => e
                      | None => evidences ia
                      end
                  | DirAll => evidences ia
                  end (evidences ia)).
  { destruct dir as [| |d].
    - apply evs_le_refl.
    - apply evs_le_sum, Forall_forall. intros e He.
      apply list_elem_of_In, in_map_iff in He as (k & <- & _).
      exact (slot_total_within _ _ _ k Hdir).
    - destruct (direction ia !! d) as [e|] eqn:E; [|apply evs_le_refl].
      destruct (Hdir _ _ E) as (_ & _ & _ & H). exact H. }
  assert (Hsum : evs_le (evs_sum (dict_values (positive ia))) (evidences ia)).
  { apply evs_le_sum. exact (slots_values_within _ _ _ Hpos). }
  assert (Hpa : evs_le
                  match dir with
                  | DirIs d =>
                      match positive ia !! d with
                      | Some e => e
                      | None => evs_sum (dict_values (positive ia))
                      end
                  | _ => evs_sum (dict_values (positive ia))
                  end (evidences ia)).
  { destruct dir as [| |d]; try exact Hsum.
    destruct (positive ia !! d) as [e|] eqn:E; [|exact Hsum].
    destruct (Hpos _ _ E) as (_ & _ & _ & H). exact H. }
  unfold select_evidences. cbv zeta. destruct effect as [| |s].
  - exact Hby.
  - apply evs_le_sum, Forall_app. split.
    + exact (slots_values_within _ _ _ Hpos).
    + exact (slots_values_within _ _ _ Hneg).
  - repeat case_bool_decide; assumption.
Qed.

Lemma get_evidences_within_witness :
  evs_le (get_evidences (merge ia_r3 ia_negative) DirTrue EffAll no_filter)
    (evidences (merge ia_r3 ia_negative)).
Proof.
  apply (get_evidences_within (merge ia_r3 ia_negative) DirTrue EffAll
           no_filter).
  - apply reach_merge; apply reach_add_evidence, reach_init.
  - intros _. vm_decide.
Defined.

(** X28. [unset_direction] of a key of the interaction, without a sign
    and without a resource: the direction and both signs of the key are
    emptied -- also for ['undirected'], which thereby becomes a key of
    the sign dictionaries -- so that [get_direction] of the key is
    [False]; the other keys keep what they had, and [evidences] keeps
    every evidence, those of the emptied direction too. *)
Theorem unset_direction_empties ia d :
  d = a_b ia ∨ d = b_a ia ∨ d = Undirected →
  let ia' := unset_direction ia d None None None ViaAny in
  direction ia' !! d = Some ∅
  ∧ positive ia' !! d = Some ∅
  ∧ negative ia' !! d = Some ∅
  ∧ get_direction ia' d = Some (Some false)
  ∧ (∀ k, k ≠ d →
       direction ia' !! k = direction ia !! k
       ∧ positive ia' !! k = positive ia !! k
       ∧ negative ia' !! k = negative ia !! k)
  ∧ evidences ia' = evidences ia.
Proof.
  intros Hd ia'. subst ia'. unfold unset_direction.
  rewrite (direction_key_valid _ _ Hd). unfold unset_slot.
  cbn [direction positive negative evidences].
  rewrite !lookup_insert_eq.
  split; [reflexivity|]. split; [reflexivity|]. split; [reflexivity|].
  split.
  - unfold get_direction.
    assert (Hd' : d = a_b ia ∨ d = b_a ia ∨ d = Undirected) by exact Hd.
    rewrite (direction_key_valid
               (mkInteraction (a ia) (b ia) (evidences ia)
                  (<[d:=∅]> (direction ia)) (<[d:=∅]> (positive ia))
                  (<[d:=∅]> (negative ia))) d Hd').
    cbn [direction]. rewrite lookup_insert_eq. reflexivity.
  - split; [|reflexivity]. intros k Hk.
    rewrite !lookup_insert_ne by congruence. auto.
Qed.

Lemma unset_direction_empties_witness :
  get_direction
    (unset_direction ia_negative (Directed eA eB) None None None ViaAny)
    (Directed eA eB) = Some (Some false).
Proof.
  refine (proj1 (proj2 (proj2 (proj2
            (unset_direction_empties ia_negative (Directed eA eB) _))))).
  left. vm_decide.
Defined.

End SelectionProps.
